(** * Replica synchronisation of the daily-habits application

    A shallow embedding of the class [SyncManager] and of the record types
    it works on (both in [lib/auth-manager.ts] of the sources), and of the
    Base64 text codecs of [lib/github-client.ts] and
    [lib/encoding-utils.ts], with the properties the design document states
    about them.

    Conventions of the embedding:
    - an ISO timestamp string is represented by the number of milliseconds
      [new Date(s).getTime()] yields for it (a [Z]); strings that do not
      parse as dates are outside the model;
    - [h.updatedAt || h.createdAt] falls back to [createdAt] when
      [updatedAt] is absent or empty, so [updatedAt] is an [option Z];
    - a JavaScript [Map] or [Set] keeps insertion order: both are
      association lists here, with [set] replacing in place;
    - [localStorage], the remote file and the manager's fields are threaded
      explicitly as a state; one merge pass, and one sync cycle, reads the
      clock once;
    - a JavaScript string is the list of its UTF-16 code units. *)

From stdpp Require Import base decidable option list strings gmap.
From Stdlib Require Import ZArith Lia Bool.

Local Open Scope Z_scope.

(** ** Insertion-ordered maps and sets (JavaScript [Map] and [Set]) *)

Module JsMap.

Section Defs.
Context {V : Type}.

(** [m.get(k)] *)
Fixpoint get (k : string) (m : list (string * V)) : option V :=
  match m with
  | [] => None
  | (k', v) :: m' => if decide (k = k') then Some v else get k m'
  end.

(** [m.set(k, v)]: an existing key keeps its position, a new key goes last *)
Fixpoint set (k : string) (v : V) (m : list (string * V)) : list (string * V) :=
  match m with
  | [] => [(k, v)]
  | (k', v') :: m' =>
      if decide (k = k') then (k, v) :: m' else (k', v') :: set k v m'
  end.

(** [m.delete(k)] *)
Fixpoint delete (k : string) (m : list (string * V)) : list (string * V) :=
  match m with
  | [] => []
  | (k', v') :: m' =>
      if decide (k = k') then m' else (k', v') :: delete k m'
  end.

(** [new Map(entries)] *)
Definition of_entries (es : list (string * V)) : list (string * V) :=
  foldl (fun m e => set e.1 e.2 m) [] es.

(** [m.keys()] and [m.values()] *)
Definition keys (m : list (string * V)) : list string := m.*1.
Definition values (m : list (string * V)) : list V := m.*2.

End Defs.

(** [s.add(k)] on a [Set] of strings *)
Definition add (k : string) (s : list string) : list string :=
  if decide (k ∈ s) then s else s ++ [k].

(** [new Set(ks)] *)
Definition set_of (ks : list string) : list string :=
  foldl (fun s k => add k s) [] ks.

End JsMap.

(** ** Data types ([lib/types.ts]) *)

Module HabitItem.
Record t : Type := mk {
  id : string;
  text : string;
  completed : bool;
  hidden : bool;
  createdAt : Z;
  updatedAt : option Z
}.
End HabitItem.

(** Values of the [settings] object, which the engine never inspects. *)
Inductive jsval : Type :=
  | JStr (s : string)
  | JBool (b : bool)
  | JNum (n : Z).

Module HabitsData.
Record t : Type := mk {
  version : string;
  lastSync : Z;
  lastResetDate : string;
  habits : list HabitItem.t;
  settings : gmap string jsval
}.
End HabitsData.

Inductive ConflictType : Type := Modify | Delete | Create.

Module ConflictInfo.
Record t : Type := mk {
  id : string;
  type : ConflictType;
  local : option HabitItem.t;
  remote : option HabitItem.t;
  timestamp_local : Z;
  timestamp_remote : Z
}.
End ConflictInfo.

Inductive ConflictResolution : Type := ResLocal | ResRemote | ResMerge | ResManual.

Inductive SyncStatus : Type :=
  | Idle | Syncing | StatusError | Offline | StatusConflict | Success.

Inductive SyncErrorType : Type := ErrNetwork | ErrConflict | ErrAuth | ErrStorage.

(** One entry of the [deleted_habits] blob of [localStorage]. *)
Module Tombstone.
Record t : Type := mk {
  id : string;
  deletedAt : Z
}.
End Tombstone.

(** ** Conflict detection *)

(** [new Date(h.updatedAt || h.createdAt).getTime()] *)
Definition habitTime (h : HabitItem.t) : Z :=
  default (HabitItem.createdAt h) (HabitItem.updatedAt h).

Definition conflictWindow : Z := 60 * 60 * 1000.

Definition hasConflict (local remote : HabitItem.t) : bool :=
  if negb (String.eqb (HabitItem.text local) (HabitItem.text remote)) then true
  else if negb (Bool.eqb (HabitItem.completed local) (HabitItem.completed remote)) then
    let localTime := habitTime local in
    let remoteTime := habitTime remote in
    let timeDiff := Z.abs (localTime - remoteTime) in
    timeDiff <? conflictWindow
  else false.

Definition habitMap (hs : list HabitItem.t) : list (string * HabitItem.t) :=
  JsMap.of_entries (map (fun h => (HabitItem.id h, h)) hs).

Definition allIds (local remote : HabitsData.t) : list string :=
  JsMap.set_of (JsMap.keys (habitMap (HabitsData.habits local))
                ++ JsMap.keys (habitMap (HabitsData.habits remote))).

(** What one iteration of the loop over [allIds] pushes, if anything. *)
Definition detectPick (localHabits remoteHabits : list (string * HabitItem.t))
    (id : string) : option ConflictInfo.t :=
  match JsMap.get id localHabits, JsMap.get id remoteHabits with
  | Some localHabit, Some remoteHabit =>
      if hasConflict localHabit remoteHabit then
        Some (ConflictInfo.mk id Modify (Some localHabit) (Some remoteHabit)
                (habitTime localHabit) (habitTime remoteHabit))
      else None
  | _, _ => None
  end.

(** [for (const x of xs) { ...; out.push(y) }] with at most one push per
    iteration. *)
Definition pushLoop {A B : Type} (pick : A -> option B) (xs : list A) : list B :=
  foldl (fun out x => match pick x with Some y => out ++ [y] | None => out end) [] xs.

Definition detectConflicts (local remote : HabitsData.t) : list ConflictInfo.t :=
  let localHabits := habitMap (HabitsData.habits local) in
  let remoteHabits := habitMap (HabitsData.habits remote) in
  pushLoop (detectPick localHabits remoteHabits) (allIds local remote).

(** The reference definition of a conflict (design document, 4.1), on the
    effective modification time of a record. *)
Definition conflictSpec (a b : HabitItem.t) : Prop :=
  HabitItem.text a <> HabitItem.text b
  \/ (HabitItem.completed a <> HabitItem.completed b
      /\ Z.abs (habitTime a - habitTime b) < conflictWindow).

(** ** Deletion tracking ([deleted_habits] in [localStorage])

    The blob is a JSON array of [{id, deletedAt}]; a missing key reads as
    the empty array. *)

Definition retention : Z := 7 * 24 * 60 * 60 * 1000.

Definition getDeletedHabitsIds (store : list Tombstone.t) : list string :=
  JsMap.set_of (map Tombstone.id store).

Definition wasRecentlyDeleted (now : Z) (store : list Tombstone.t) (id : string) : bool :=
  match List.find (fun item => bool_decide (Tombstone.id item = id)) store with
  | None => false
  | Some deletedItem =>
      let deletedTime := Tombstone.deletedAt deletedItem in
      let sevenDaysAgo := now - retention in
      sevenDaysAgo <? deletedTime
  end.

Definition cleanupDeletedIds (now : Z) (store : list Tombstone.t) : list Tombstone.t :=
  let sevenDaysAgo := now - retention in
  List.filter (fun item => sevenDaysAgo <? Tombstone.deletedAt item) store.

Definition markHabitAsDeleted (now : Z) (id : string) (store : list Tombstone.t)
    : list Tombstone.t :=
  match List.find (fun item => bool_decide (Tombstone.id item = id)) store with
  | None => store ++ [Tombstone.mk id now]
  | Some _ => store
  end.

(** ** Merge *)

(** [Array.prototype.sort] is stable; with the comparator
    [a.createdAt - b.createdAt] it is the stable sort by [createdAt]. *)
Fixpoint insertByCreatedAt (h : HabitItem.t) (l : list HabitItem.t) : list HabitItem.t :=
  match l with
  | [] => [h]
  | x :: l' =>
      if HabitItem.createdAt h <=? HabitItem.createdAt x then h :: l
      else x :: insertByCreatedAt h l'
  end.

Definition sortByCreatedAt (l : list HabitItem.t) : list HabitItem.t :=
  foldr insertByCreatedAt [] l.

(** What one iteration of the merge loop pushes for [id], if anything. *)
Definition mergePick (now : Z) (store : list Tombstone.t) (localLastSync : Z)
    (localHabits remoteHabits : list (string * HabitItem.t))
    (id : string) : option HabitItem.t :=
  if decide (id ∈ getDeletedHabitsIds store) then None
  else
    match JsMap.get id localHabits, JsMap.get id remoteHabits with
    | Some localHabit, Some remoteHabit =>
        let localTime := habitTime localHabit in
        let remoteTime := habitTime remoteHabit in
        Some (if remoteTime <=? localTime then localHabit else remoteHabit)
    | Some localHabit, None => Some localHabit
    | None, Some remoteHabit =>
        let remoteTime := habitTime remoteHabit in
        let lastSyncTime := localLastSync in
        if lastSyncTime <? remoteTime then Some remoteHabit
        else if negb (wasRecentlyDeleted now store id) then Some remoteHabit
        else None
    | None, None => None
    end.

Definition mergedHabits (now : Z) (store : list Tombstone.t)
    (local remote : HabitsData.t) : list HabitItem.t :=
  pushLoop (mergePick now store (HabitsData.lastSync local)
              (habitMap (HabitsData.habits local)) (habitMap (HabitsData.habits remote)))
           (allIds local remote).

(** [mergeData] reads the clock ([now]) and reads and rewrites the
    [deleted_habits] blob: it returns the merged snapshot and the blob it
    leaves behind. *)
Definition mergeData (now : Z) (store : list Tombstone.t)
    (local remote : HabitsData.t) : HabitsData.t * list Tombstone.t :=
  let merged := mergedHabits now store local remote in
  let store' := cleanupDeletedIds now store in
  let localTime := HabitsData.lastSync local in
  let remoteTime := HabitsData.lastSync remote in
  let newerMeta := if remoteTime <=? localTime then local else remote in
  (HabitsData.mk (HabitsData.version newerMeta) now
     (HabitsData.lastResetDate newerMeta)
     (sortByCreatedAt merged)
     (HabitsData.settings newerMeta),
   store').

(** The settings overlay of the design document (4.3, step 7): remote keys
    first, local keys override. *)
Definition settingsOverlaySpec (local remote : HabitsData.t) : gmap string jsval :=
  HabitsData.settings local ∪ HabitsData.settings remote.

(** A series of merge passes over one [deleted_habits] blob: each pass is
    given its clock and its two snapshots and leaves the blob to the next. *)
Fixpoint runMerges (store : list Tombstone.t)
    (passes : list (Z * HabitsData.t * HabitsData.t)) : list HabitsData.t :=
  match passes with
  | [] => []
  | (now, local, remote) :: rest =>
      let '(merged, store') := mergeData now store local remote in
      merged :: runMerges store' rest
  end.

Definition habitIds (d : HabitsData.t) : list string :=
  map HabitItem.id (HabitsData.habits d).

(** ** Conflict resolution *)

Definition mergeHabitItems (now : Z) (local remote : HabitItem.t) : HabitItem.t :=
  let localTime := habitTime local in
  let remoteTime := habitTime remote in
  let newer := if remoteTime <=? localTime then local else remote in
  let older := if remoteTime <=? localTime then remote else local in
  HabitItem.mk (HabitItem.id newer)
    (if String.eqb (HabitItem.text newer) "" then HabitItem.text older
     else HabitItem.text newer)
    (HabitItem.completed newer) (HabitItem.hidden newer)
    (HabitItem.createdAt newer) (Some now).

Definition resolveStep (now : Z) (resolvedHabits : list (string * HabitItem.t))
    (cr : ConflictInfo.t * ConflictResolution) : list (string * HabitItem.t) :=
  let conflict := cr.1 in
  match cr.2 with
  | ResLocal => resolvedHabits
  | ResRemote =>
      match ConflictInfo.remote conflict with
      | Some r => JsMap.set (ConflictInfo.id conflict) r resolvedHabits
      | None => JsMap.delete (ConflictInfo.id conflict) resolvedHabits
      end
  | ResMerge =>
      match ConflictInfo.local conflict, ConflictInfo.remote conflict with
      | Some l, Some r =>
          JsMap.set (ConflictInfo.id conflict) (mergeHabitItems now l r) resolvedHabits
      | _, _ => resolvedHabits
      end
  | ResManual => resolvedHabits
  end.

(** The snapshot [resolveConflicts] builds and then writes to both stores;
    [None] is the thrown length-mismatch error. *)
Definition resolveConflicts (now : Z) (conflicts : list ConflictInfo.t)
    (resolutions : list ConflictResolution) (localData : HabitsData.t)
    : option HabitsData.t :=
  if negb (length conflicts =? length resolutions)%nat then None
  else
    let resolvedHabits :=
      foldl (resolveStep now) (habitMap (HabitsData.habits localData))
            (zip conflicts resolutions) in
    Some (HabitsData.mk (HabitsData.version localData) now
            (HabitsData.lastResetDate localData)
            (JsMap.values resolvedHabits)
            (HabitsData.settings localData)).

(** A conflict descriptor whose records carry the descriptor's id, as
    [detectConflicts] builds them. *)
Definition wfConflict (c : ConflictInfo.t) : Prop :=
  (forall l, ConflictInfo.local c = Some l -> HabitItem.id l = ConflictInfo.id c)
  /\ (forall r, ConflictInfo.remote c = Some r -> HabitItem.id r = ConflictInfo.id c).

(** Records already in [createdAt] order. *)
Fixpoint isSortedByCreatedAt (l : list HabitItem.t) : bool :=
  match l with
  | [] => true
  | x :: l' =>
      match l' with
      | [] => true
      | y :: _ => (HabitItem.createdAt x <=? HabitItem.createdAt y) && isSortedByCreatedAt l'
      end
  end.

(** [{ ...s, lastSync: now }] *)
Definition withLastSync (now : Z) (s : HabitsData.t) : HabitsData.t :=
  HabitsData.mk (HabitsData.version s) now (HabitsData.lastResetDate s)
    (HabitsData.habits s) (HabitsData.settings s).

(** Sample records and snapshots, used to exercise the definitions. *)
Definition habit1 : HabitItem.t := HabitItem.mk "1" "read" false false 100 (Some 100).
Definition habit1remote : HabitItem.t :=
  HabitItem.mk "1" "read more" false false 100 (Some 120).
Definition habit2 : HabitItem.t := HabitItem.mk "2" "walk" true false 200 (Some 250).
Definition habit3 : HabitItem.t := HabitItem.mk "3" "write" false true 300 None.

Definition snapshotOf (lastSync : Z) (hs : list HabitItem.t)
    (settings : gmap string jsval) : HabitsData.t :=
  HabitsData.mk "1.0" lastSync "Mon Jan 01 2024" hs settings.

Definition darkTheme : gmap string jsval := {["theme" := JStr "dark"]}.
Definition lightTheme : gmap string jsval := {["theme" := JStr "light"]}.

(** ** The stores a sync cycle works on *)

(** One element of the [dailyTodos] array of [localStorage]. *)
Module Todo.
Record t : Type := mk {
  id : string;
  text : string;
  completed : bool;
  hidden : option bool;
  createdAt : Z
}.
End Todo.

Module LocalStorage.
Record t : Type := mk {
  dailyTodos : option (list Todo.t);
  lastResetDate : option string;
  deleted_habits : list Tombstone.t;
  habits_data : option HabitsData.t;
  sync_state_saved : bool
}.
End LocalStorage.

(** The remote object [data.json]. Its version token (the blob [sha]) is
    represented by a revision counter that every accepted write advances. *)
Module Remote.
Record t : Type := mk {
  file : option HabitsData.t;
  rev : nat
}.
End Remote.

Inductive PutResult : Type :=
  | PutOk
  | PutVersionConflict
  | PutMissingToken
  | PutTransportError.

Definition remoteToken (r : Remote.t) : option nat :=
  match Remote.file r with
  | Some _ => Some (Remote.rev r)
  | None => None
  end.

(** Modelled from the spec: the remote store is an external service, not
    code of the application; its write follows the contract of the design
    document, section 6: a [put] carrying a token fails with a version
    conflict when the token does not match the current remote state.  A
    [put] without a token creates the object and is rejected when the
    object already exists. *)
Definition remotePut (data : HabitsData.t) (token : option nat) (r : Remote.t)
    : PutResult * Remote.t :=
  if decide (token = remoteToken r) then (PutOk, Remote.mk (Some data) (S (Remote.rev r)))
  else
    match token with
    | Some _ => (PutVersionConflict, r)
    | None => (PutMissingToken, r)
    end.

(** A write by another replica. *)
Definition foreignWrite (w : option HabitsData.t) (r : Remote.t) : Remote.t :=
  match w with
  | Some d => Remote.mk (Some d) (S (Remote.rev r))
  | None => r
  end.

Inductive RemoteCall : Type :=
  | CallGet
  | CallPut (res : PutResult).

Module SyncConfig.
Record t : Type := mk {
  autoSync : bool;
  syncInterval : Z;
  retryAttempts : nat;
  retryDelay : Z
}.
End SyncConfig.

Definition defaultConfig : SyncConfig.t :=
  SyncConfig.mk true (5 * 60 * 1000) 3 2000.

Module SyncState.
Record t : Type := mk {
  status : SyncStatus;
  lastSyncTime : option Z;
  lastError : option string;
  pendingChanges : bool;
  conflictCount : nat
}.
End SyncState.

Module SyncResult.
Record t : Type := mk {
  success : bool;
  conflicts : list ConflictInfo.t;
  lastSyncTime : Z;
  syncedRecords : nat;
  error : bool
}.
End SyncResult.

(** What the environment does during one cycle: the clock, transport
    failures of the three remote calls, writes of other replicas, and
    whether the encrypted local write succeeds. *)
Module Env.
Record t : Type := mk {
  now : Z;
  today : string;
  readFails : bool;
  shaFails : bool;
  writeBeforeSha : option HabitsData.t;
  writeBeforePut : option HabitsData.t;
  putFails : bool;
  secureFails : bool
}.
End Env.

Module World.
Record t : Type := mk {
  storage : LocalStorage.t;
  remote : Remote.t;
  syncState : SyncState.t;
  config : SyncConfig.t;
  isOnline : bool;
  authenticated : bool;
  hasUserAndRepo : bool;
  calls : list RemoteCall
}.
End World.

Inductive Outcome (A : Type) : Type :=
  | Returned (a : A)
  | Thrown (ty : SyncErrorType) (msg : string).
Arguments Returned {A} a.
Arguments Thrown {A} ty msg.

Definition withStorage (s : LocalStorage.t) (w : World.t) : World.t :=
  World.mk s (World.remote w) (World.syncState w) (World.config w)
    (World.isOnline w) (World.authenticated w) (World.hasUserAndRepo w) (World.calls w).

Definition withRemote (r : Remote.t) (c : list RemoteCall) (w : World.t) : World.t :=
  World.mk (World.storage w) r (World.syncState w) (World.config w)
    (World.isOnline w) (World.authenticated w) (World.hasUserAndRepo w) (World.calls w ++ c).

Definition withSyncState (s : SyncState.t) (w : World.t) : World.t :=
  World.mk (World.storage w) (World.remote w) s (World.config w)
    (World.isOnline w) (World.authenticated w) (World.hasUserAndRepo w) (World.calls w).

Definition defaultSettings (autoSync : bool) (syncInterval : Z) : gmap string jsval :=
  <["theme" := JStr "light"]>
  (<["autoSync" := JBool autoSync]>
  (<["syncInterval" := JNum syncInterval]>
  (<["encryptionEnabled" := JBool true]> ∅))).

Definition getDefaultHabitsData (env : Env.t) : HabitsData.t :=
  HabitsData.mk "1.0" (Env.now env) (Env.today env) [] (defaultSettings true 300000).

Definition getLocalData (env : Env.t) (w : World.t) : HabitsData.t :=
  let ls := World.storage w in
  let lastResetDate :=
    match LocalStorage.lastResetDate ls with
    | Some d => if String.eqb d "" then Env.today env else d
    | None => Env.today env
    end in
  match LocalStorage.dailyTodos ls with
  | Some todos =>
      let habits :=
        map (fun todo =>
               HabitItem.mk (Todo.id todo) (Todo.text todo) (Todo.completed todo)
                 (default false (Todo.hidden todo))
                 (Todo.createdAt todo) (Some (Todo.createdAt todo))) todos in
      HabitsData.mk "1.0" (Env.now env) lastResetDate habits
        (defaultSettings (SyncConfig.autoSync (World.config w))
                         (SyncConfig.syncInterval (World.config w)))
  | None => getDefaultHabitsData env
  end.

(** [client.readHabitsData] wrapped by [getRemoteData]: a missing file and
    any failure of the read both yield the default snapshot. *)
Definition readRemote (env : Env.t) (w : World.t) : HabitsData.t :=
  if Env.readFails env then getDefaultHabitsData env
  else default (getDefaultHabitsData env) (Remote.file (World.remote w)).

Definition getRemoteData (env : Env.t) (w : World.t) : Outcome HabitsData.t * World.t :=
  if negb (World.hasUserAndRepo w) then
    (Thrown ErrAuth "User or repository not found", w)
  else (Returned (readRemote env w), withRemote (World.remote w) [CallGet] w).

Definition saveLocalStorage (data : HabitsData.t) (ls : LocalStorage.t) : LocalStorage.t :=
  let todos :=
    map (fun habit =>
           Todo.mk (HabitItem.id habit) (HabitItem.text habit) (HabitItem.completed habit)
             (Some (HabitItem.hidden habit)) (HabitItem.createdAt habit))
        (HabitsData.habits data) in
  LocalStorage.mk (Some todos) (Some (HabitsData.lastResetDate data))
    (LocalStorage.deleted_habits ls) (LocalStorage.habits_data ls)
    (LocalStorage.sync_state_saved ls).

Definition saveLocalData (env : Env.t) (data : HabitsData.t) (w : World.t)
    : Outcome unit * World.t :=
  let ls := saveLocalStorage data (World.storage w) in
  if Env.secureFails env then
    (Thrown ErrStorage "Failed to save local data", withStorage ls w)
  else
    (Returned tt,
     withStorage
       (LocalStorage.mk (LocalStorage.dailyTodos ls) (LocalStorage.lastResetDate ls)
          (LocalStorage.deleted_habits ls) (Some data) (LocalStorage.sync_state_saved ls)) w).

(** [saveRemoteData] asks for the current token itself, just before it
    writes; a failed token request means "no token". *)
Definition saveRemoteData (env : Env.t) (data : HabitsData.t) (w : World.t)
    : Outcome unit * World.t :=
  if negb (World.hasUserAndRepo w) then
    (Thrown ErrAuth "User or repository not found", w)
  else
    let r1 := foreignWrite (Env.writeBeforeSha env) (World.remote w) in
    let currentSha := if Env.shaFails env then None else remoteToken r1 in
    let r2 := foreignWrite (Env.writeBeforePut env) r1 in
    let '(res, r3) :=
      if Env.putFails env then (PutTransportError, r2)
      else remotePut data currentSha r2 in
    let w' := withRemote r3 [CallGet; CallPut res] w in
    match res with
    | PutOk => (Returned tt, w')
    | _ => (Thrown ErrNetwork "Failed to save remote data", w')
    end.

Definition updateStatus (st : SyncStatus) (err : option string) (w : World.t) : World.t :=
  let s := World.syncState w in
  withSyncState (SyncState.mk st (SyncState.lastSyncTime s) err
                   (SyncState.pendingChanges s) (SyncState.conflictCount s)) w.

Definition saveSyncState (w : World.t) : World.t :=
  let ls := World.storage w in
  withStorage (LocalStorage.mk (LocalStorage.dailyTodos ls) (LocalStorage.lastResetDate ls)
                 (LocalStorage.deleted_habits ls) (LocalStorage.habits_data ls) true) w.

(** The [catch] block of [sync]. *)
Definition syncFailed (ty : SyncErrorType) (msg : string) (w : World.t)
    : Outcome SyncResult.t * World.t :=
  (Thrown ty msg, updateStatus StatusError (Some msg) w).

(** [Promise.all([saveLocalData(d), saveRemoteData(d)])]: both writes are
    started and both run to their end; the rejection reported is the one of
    the local write when it fails (it settles without a network round
    trip), otherwise the one of the remote write. *)
Definition saveBoth (env : Env.t) (data : HabitsData.t) (w : World.t)
    : Outcome unit * World.t :=
  let '(ol, w1) := saveLocalData env data w in
  let '(or, w2) := saveRemoteData env data w1 in
  match ol with
  | Thrown ty msg => (Thrown ty msg, w2)
  | Returned _ => (or, w2)
  end.

Definition sync (env : Env.t) (w : World.t) : Outcome SyncResult.t * World.t :=
  if negb (World.authenticated w) then (Thrown ErrAuth "Not authenticated", w)
  else if negb (World.isOnline w) then (Thrown ErrNetwork "Network unavailable", w)
  else
    let w0 := updateStatus Syncing None w in
    let localData := getLocalData env w0 in
    match getRemoteData env w0 with
    | (Thrown ty msg, w1) => syncFailed ty msg w1
    | (Returned remoteData, w1) =>
        let conflicts := detectConflicts localData remoteData in
        if (0 <? length conflicts)%nat then
          let s := World.syncState w1 in
          (Returned (SyncResult.mk false conflicts (Env.now env) 0 true),
           withSyncState (SyncState.mk StatusConflict (SyncState.lastSyncTime s)
                            (SyncState.lastError s) (SyncState.pendingChanges s)
                            (length conflicts)) w1)
        else
          let ls := World.storage w1 in
          let '(mergedData, store') :=
            mergeData (Env.now env) (LocalStorage.deleted_habits ls) localData remoteData in
          let w2 :=
            withStorage (LocalStorage.mk (LocalStorage.dailyTodos ls)
                           (LocalStorage.lastResetDate ls) store'
                           (LocalStorage.habits_data ls)
                           (LocalStorage.sync_state_saved ls)) w1 in
          match saveBoth env mergedData w2 with
          | (Thrown ty msg, w3) => syncFailed ty msg w3
          | (Returned _, w3) =>
              let s := World.syncState w3 in
              let w4 :=
                withSyncState (SyncState.mk Success (Some (Env.now env))
                                 (SyncState.lastError s) false 0) w3 in
              (Returned (SyncResult.mk true [] (Env.now env)
                           (length (HabitsData.habits mergedData)) false),
               saveSyncState w4)
          end
    end.

(** Remote writes attempted, and writes rejected for a stale token, in a
    log of remote calls. *)
Definition isPut (c : RemoteCall) : bool :=
  match c with CallPut _ => true | CallGet => false end.

Definition isStalePut (c : RemoteCall) : bool :=
  match c with CallPut PutVersionConflict => true | _ => false end.

Definition putAttempts (cs : list RemoteCall) : nat := length (List.filter isPut cs).
Definition staleRejections (cs : list RemoteCall) : nat := length (List.filter isStalePut cs).

(** The remote calls a cycle added to the log. *)
Definition newCalls (w w' : World.t) : list RemoteCall :=
  drop (length (World.calls w)) (World.calls w').

Definition withRetryAttempts (n : nat) (w : World.t) : World.t :=
  let c := World.config w in
  World.mk (World.storage w) (World.remote w) (World.syncState w)
    (SyncConfig.mk (SyncConfig.autoSync c) (SyncConfig.syncInterval c) n
       (SyncConfig.retryDelay c))
    (World.isOnline w) (World.authenticated w) (World.hasUserAndRepo w) (World.calls w).

(** The retry rule of the design document (4.5), in the form of what it
    implies for a cycle that ends in an error after a write was rejected
    for a stale token: the budget of [retryAttempts] writes has been used
    up and the error is a storage error. *)
Definition staleWriteRetriedSpec (env : Env.t) (w : World.t) : Prop :=
  forall ty msg,
    (sync env w).1 = Thrown ty msg ->
    (0 < staleRejections (newCalls w (sync env w).2))%nat ->
    putAttempts (newCalls w (sync env w).2) = SyncConfig.retryAttempts (World.config w)
    /\ ty = ErrStorage.

(** A device holding record 1, in sync with the remote file, and a cycle
    during which another replica writes between this device's request for
    the token and its write. *)
Definition sampleWorld : World.t :=
  World.mk
    (LocalStorage.mk (Some [Todo.mk "1" "read" false (Some false) 100]) None [] None false)
    (Remote.mk (Some (snapshotOf 900 [habit1] ∅)) 1)
    (SyncState.mk Idle None None true 0)
    defaultConfig true true true [].

Definition racingEnv : Env.t :=
  Env.mk 5000 "Tue Jan 02 2024" false false None
    (Some (snapshotOf 4999 [habit1; habit2] ∅)) false false.

Definition quietEnv : Env.t :=
  Env.mk 5000 "Tue Jan 02 2024" false false None None false false.

(** The same device when the remote file holds another text for record 1. *)
Definition conflictWorld : World.t :=
  World.mk (World.storage sampleWorld)
    (Remote.mk (Some (snapshotOf 900 [habit1remote] ∅)) 1)
    (World.syncState sampleWorld) defaultConfig true true true [].

(** ** Text codecs ([encodeToBase64] / [decodeFromBase64] and
       [encodeUTF8ToBase64] / [decodeBase64ToUTF8])

    A JavaScript string is its sequence of UTF-16 code units, a binary
    string one whose code units are bytes.  The platform functions the
    codecs are made of are modelled after their standards: [TextEncoder]
    and [TextDecoder] after the WHATWG Encoding standard, [btoa] and [atob]
    after the HTML standard (RFC 4648 alphabet, forgiving decode). *)

Module Codec.

Definition isHigh (u : Z) : bool := (0xD800 <=? u) && (u <=? 0xDBFF).
Definition isLow (u : Z) : bool := (0xDC00 <=? u) && (u <=? 0xDFFF).

(** The scalar values of a string; an unpaired surrogate reads as U+FFFD. *)
Fixpoint toScalars (s : list Z) : list Z :=
  match s with
  | [] => []
  | u :: s' =>
      if isHigh u then
        match s' with
        | l :: s'' =>
            if isLow l then
              (0x10000 + (u - 0xD800) * 0x400 + (l - 0xDC00)) :: toScalars s''
            else 0xFFFD :: toScalars s'
        | [] => [0xFFFD]
        end
      else if isLow u then 0xFFFD :: toScalars s'
      else u :: toScalars s'
  end.

(** No unpaired surrogate. *)
Fixpoint wellFormed (s : list Z) : bool :=
  match s with
  | [] => true
  | u :: s' =>
      if isHigh u then
        match s' with
        | l :: s'' => isLow l && wellFormed s''
        | [] => false
        end
      else negb (isLow u) && wellFormed s'
  end.

Definition isCodeUnit (u : Z) : bool := (0 <=? u) && (u <? 0x10000).

(** A Unicode scalar value: a code point that is not a surrogate. *)
Definition isScalar (cp : Z) : bool :=
  (0 <=? cp) && (cp <=? 0x10FFFF) && negb ((0xD800 <=? cp) && (cp <=? 0xDFFF)).

(** The string begins with U+FEFF. *)
Definition startsWithBOM (s : list Z) : bool :=
  match s with
  | u :: _ => u =? 0xFEFF
  | [] => false
  end.

(** UTF-8 encoder, one scalar value. *)
Definition utf8EncodeCodePoint (cp : Z) : list Z :=
  if cp <=? 0x7F then [cp]
  else if cp <=? 0x7FF then
    [Z.shiftr cp 6 + 0xC0; Z.lor 0x80 (Z.land cp 0x3F)]
  else if cp <=? 0xFFFF then
    [Z.shiftr cp 12 + 0xE0;
     Z.lor 0x80 (Z.land (Z.shiftr cp 6) 0x3F);
     Z.lor 0x80 (Z.land cp 0x3F)]
  else
    [Z.shiftr cp 18 + 0xF0;
     Z.lor 0x80 (Z.land (Z.shiftr cp 12) 0x3F);
     Z.lor 0x80 (Z.land (Z.shiftr cp 6) 0x3F);
     Z.lor 0x80 (Z.land cp 0x3F)].

(** [new TextEncoder().encode(text)] *)
Definition textEncode (text : list Z) : list Z :=
  concat (map utf8EncodeCodePoint (toScalars text)).

(** State of the UTF-8 decoder. *)
Record DecState : Type := mkDec {
  codePoint : Z;
  bytesSeen : Z;
  bytesNeeded : Z;
  lowerBoundary : Z;
  upperBoundary : Z
}.

Definition decInit : DecState := mkDec 0 0 0 0x80 0xBF.

(** The decoder's handler on a byte when no sequence is open. *)
Definition leadByte (b : Z) : list Z * DecState :=
  if (0 <=? b) && (b <=? 0x7F) then ([b], decInit)
  else if (0xC2 <=? b) && (b <=? 0xDF) then
    ([], mkDec (Z.land b 0x1F) 0 1 0x80 0xBF)
  else if (0xE0 <=? b) && (b <=? 0xEF) then
    ([], mkDec (Z.land b 0xF) 0 2
           (if b =? 0xE0 then 0xA0 else 0x80)
           (if b =? 0xED then 0x9F else 0xBF))
  else if (0xF0 <=? b) && (b <=? 0xF4) then
    ([], mkDec (Z.land b 0x7) 0 3
           (if b =? 0xF0 then 0x90 else 0x80)
           (if b =? 0xF4 then 0x8F else 0xBF))
  else ([0xFFFD], decInit).

(** The handler: an out-of-range continuation byte yields U+FFFD and is
    then read again as a lead byte. *)
Definition decHandler (st : DecState) (b : Z) : list Z * DecState :=
  if bytesNeeded st =? 0 then leadByte b
  else if negb ((lowerBoundary st <=? b) && (b <=? upperBoundary st)) then
    let '(out, st') := leadByte b in (0xFFFD :: out, st')
  else
    let cp := Z.lor (Z.shiftl (codePoint st) 6) (Z.land b 0x3F) in
    if bytesSeen st + 1 =? bytesNeeded st then ([cp], decInit)
    else ([], mkDec cp (bytesSeen st + 1) (bytesNeeded st) 0x80 0xBF).

Fixpoint utf8DecodeFrom (st : DecState) (bs : list Z) : list Z :=
  match bs with
  | [] => if bytesNeeded st =? 0 then [] else [0xFFFD]
  | b :: bs' =>
      let '(out, st') := decHandler st b in
      out ++ utf8DecodeFrom st' bs'
  end.

Definition utf16EncodeCodePoint (cp : Z) : list Z :=
  if cp <? 0x10000 then [cp]
  else [0xD800 + Z.shiftr (cp - 0x10000) 10; 0xDC00 + Z.land (cp - 0x10000) 0x3FF].

(** A decoder made without [ignoreBOM] drops a leading U+FEFF. *)
Definition stripBOM (cps : list Z) : list Z :=
  match cps with
  | cp :: rest => if cp =? 0xFEFF then rest else cps
  | [] => []
  end.

(** [new TextDecoder('utf-8').decode(bytes)] *)
Definition textDecode (bytes : list Z) : list Z :=
  concat (map utf16EncodeCodePoint (stripBOM (utf8DecodeFrom decInit bytes))).

(** The Base64 alphabet, as code units. *)
Definition b64char (i : Z) : Z :=
  if i <? 26 then 65 + i
  else if i <? 52 then 97 + (i - 26)
  else if i <? 62 then 48 + (i - 52)
  else if i =? 62 then 43
  else 47.

Definition b64index (c : Z) : option Z :=
  if (65 <=? c) && (c <=? 90) then Some (c - 65)
  else if (97 <=? c) && (c <=? 122) then Some (c - 97 + 26)
  else if (48 <=? c) && (c <=? 57) then Some (c - 48 + 52)
  else if c =? 43 then Some 62
  else if c =? 47 then Some 63
  else None.

Definition padChar : Z := 61.

Fixpoint base64Encode (bs : list Z) : list Z :=
  match bs with
  | [] => []
  | [a] =>
      [b64char (Z.shiftr a 2); b64char (Z.shiftl (Z.land a 3) 4); padChar; padChar]
  | [a; b] =>
      [b64char (Z.shiftr a 2);
       b64char (Z.lor (Z.shiftl (Z.land a 3) 4) (Z.shiftr b 4));
       b64char (Z.shiftl (Z.land b 15) 2);
       padChar]
  | a :: b :: c :: rest =>
      b64char (Z.shiftr a 2)
      :: b64char (Z.lor (Z.shiftl (Z.land a 3) 4) (Z.shiftr b 4))
      :: b64char (Z.lor (Z.shiftl (Z.land b 15) 2) (Z.shiftr c 6))
      :: b64char (Z.land c 63)
      :: base64Encode rest
  end.

Definition isByte (b : Z) : bool := (0 <=? b) && (b <=? 0xFF).

(** [btoa(binaryString)]; [None] is the [InvalidCharacterError] thrown for
    a code unit above 0xFF. *)
Definition btoa (s : list Z) : option (list Z) :=
  if forallb isByte s then Some (base64Encode s) else None.

(** The sextets of a Base64 text and its padding: [p] padding signs after
    [4k + r] sextets, with [r + p] a multiple of four. *)
Definition padShape (n p : nat) : Prop :=
  exists k : nat,
    (p = 0 /\ n = 4 * k)%nat \/ (p = 1 /\ n = 4 * k + 3)%nat \/ (p = 2 /\ n = 4 * k + 2)%nat.

Definition isAsciiWhitespace (c : Z) : bool :=
  (c =? 9) || (c =? 10) || (c =? 12) || (c =? 13) || (c =? 32).

(** Remove one or two trailing [=] signs. *)
Definition stripPadding (s : list Z) : list Z :=
  match rev s with
  | p :: q :: r =>
      if p =? padChar then (if q =? padChar then rev r else rev (q :: r)) else s
  | [p] => if p =? padChar then [] else s
  | [] => []
  end.

Fixpoint decodeSextets (xs : list Z) : list Z :=
  match xs with
  | a :: b :: c :: d :: rest =>
      Z.lor (Z.shiftl a 2) (Z.shiftr b 4)
      :: Z.lor (Z.shiftl (Z.land b 15) 4) (Z.shiftr c 2)
      :: Z.lor (Z.shiftl (Z.land c 3) 6) d
      :: decodeSextets rest
  | [a; b; c] =>
      [Z.lor (Z.shiftl a 2) (Z.shiftr b 4);
       Z.lor (Z.shiftl (Z.land b 15) 4) (Z.shiftr c 2)]
  | [a; b] => [Z.lor (Z.shiftl a 2) (Z.shiftr b 4)]
  | _ => []
  end.

(** [atob(data)], the forgiving Base64 decode; [None] is the thrown
    [InvalidCharacterError]. *)
Definition atob (data : list Z) : option (list Z) :=
  let d1 := List.filter (fun c => negb (isAsciiWhitespace c)) data in
  let d2 := if (length d1 mod 4 =? 0)%nat then stripPadding d1 else d1 in
  if (length d2 mod 4 =? 1)%nat then None
  else
    match mapM b64index d2 with
    | Some sextets => Some (decodeSextets sextets)
    | None => None
    end.

(** [base64.replace(/\n/g, '')] *)
Definition removeNewlines (s : list Z) : list Z :=
  List.filter (fun c => negb (c =? 10)) s.

(** Storing into a [Uint8Array] keeps the low 8 bits. *)
Definition toUint8Array (s : list Z) : list Z := map (fun c => c mod 256) s.

(** [GitHubClient.encodeToBase64]: the loop appends one code unit per byte
    and [btoa] accepts them, so the [catch] branch is not entered. *)
Definition encodeToBase64 (text : list Z) : option (list Z) :=
  let utf8Bytes := textEncode text in
  let binaryString := utf8Bytes in
  btoa binaryString.

(** [GitHubClient.decodeFromBase64]: when [atob] throws, the fallback calls
    it again on the same input and the function throws. *)
Definition decodeFromBase64 (base64 : list Z) : option (list Z) :=
  let cleanBase64 := removeNewlines base64 in
  match atob cleanBase64 with
  | Some binaryString => Some (textDecode (toUint8Array binaryString))
  | None => None
  end.

(** [encodeUTF8ToBase64]: [String.fromCharCode(...utf8Bytes)] throws a
    [RangeError] when the bytes exceed the engine's argument limit
    ([spreadLimit]); the fallback [btoa(unescape(encodeURIComponent(text)))]
    yields the same bytes for well-formed text and throws a [URIError] for
    an unpaired surrogate. *)
Definition encodeUTF8ToBase64 (spreadLimit : nat) (text : list Z) : option (list Z) :=
  let utf8Bytes := textEncode text in
  if (length utf8Bytes <=? spreadLimit)%nat then btoa utf8Bytes
  else if wellFormed text then btoa utf8Bytes
  else None.

(** [decodeBase64ToUTF8]: the fallback applies [atob] to the same data
    (which ignores line feeds itself), so it throws whenever the first
    attempt did. *)
Definition decodeBase64ToUTF8 (base64 : list Z) : option (list Z) :=
  let cleanBase64 := removeNewlines base64 in
  match atob cleanBase64 with
  | Some binaryString => Some (textDecode (toUint8Array binaryString))
  | None => None
  end.

End Codec.

(** The record a resolution leaves for a conflict that holds both
    versions. *)
Definition chosenRecord (now : Z) (res : ConflictResolution) (l r : HabitItem.t)
    : HabitItem.t :=
  match res with
  | ResRemote => r
  | ResMerge => mergeHabitItems now l r
  | ResLocal | ResManual => l
  end.

(** ** Pushing and pulling ([SyncManager.push], [SyncManager.pull]) *)

Definition clearPending (w : World.t) : World.t :=
  let s := World.syncState w in
  withSyncState (SyncState.mk (SyncState.status s) (SyncState.lastSyncTime s)
                   (SyncState.lastError s) false (SyncState.conflictCount s)) w.

(** [push(data?)]: writes [data], or the local snapshot when none is
    given, to the remote file; an error of the write is passed on. *)
Definition push (env : Env.t) (data : option HabitsData.t) (w : World.t)
    : Outcome unit * World.t :=
  if negb (World.authenticated w) then (Thrown ErrAuth "Not authenticated", w)
  else
    let dataToSync := default (getLocalData env w) data in
    match saveRemoteData env dataToSync w with
    | (Thrown ty msg, w1) => (Thrown ty msg, w1)
    | (Returned _, w1) => (Returned tt, clearPending w1)
    end.

(** [pull()]: stores the remote snapshot locally and returns it. *)
Definition pull (env : Env.t) (w : World.t) : Outcome HabitsData.t * World.t :=
  if negb (World.authenticated w) then (Thrown ErrAuth "Not authenticated", w)
  else
    match getRemoteData env w with
    | (Thrown ty msg, w1) => (Thrown ty msg, w1)
    | (Returned remoteData, w1) =>
        match saveLocalData env remoteData w1 with
        | (Thrown ty msg, w2) => (Thrown ty msg, w2)
        | (Returned _, w2) => (Returned remoteData, w2)
        end
    end.

(** The [dailyTodos] entry [saveLocalData] writes for a record, and the
    record [getLocalData] reads back from it. *)
Definition todoOfHabit (habit : HabitItem.t) : Todo.t :=
  Todo.mk (HabitItem.id habit) (HabitItem.text habit) (HabitItem.completed habit)
    (Some (HabitItem.hidden habit)) (HabitItem.createdAt habit).

Definition habitOfTodo (todo : Todo.t) : HabitItem.t :=
  HabitItem.mk (Todo.id todo) (Todo.text todo) (Todo.completed todo)
    (default false (Todo.hidden todo)) (Todo.createdAt todo) (Some (Todo.createdAt todo)).

(** A record whose modification time is reset to its creation time. *)
Definition resetUpdatedAt (h : HabitItem.t) : HabitItem.t :=
  HabitItem.mk (HabitItem.id h) (HabitItem.text h) (HabitItem.completed h)
    (HabitItem.hidden h) (HabitItem.createdAt h) (Some (HabitItem.createdAt h)).

(** The snapshot a cycle merges from what it reads at its start. *)
Definition cycleMerged (env : Env.t) (w : World.t) : HabitsData.t :=
  (mergeData (Env.now env) (LocalStorage.deleted_habits (World.storage w))
     (getLocalData env w) (readRemote env w)).1.

(** ** One-time import of local data ([lib/data-migration.ts]) *)

Module DataMigration.

Module MigrationResult.
Record t : Type := mk {
  success : bool;
  migratedCount : nat;
  error : bool
}.
End MigrationResult.

Definition hasLocalData (ls : LocalStorage.t) : bool :=
  match LocalStorage.dailyTodos ls with
  | Some (_ :: _) => true
  | _ => false
  end.

(** The [reduce] of [getLocalDataStats]: the earliest [createdAt] so far. *)
Definition oldestStep (oldest : option Z) (todo : Todo.t) : option Z :=
  match oldest with
  | None => Some (Todo.createdAt todo)
  | Some o => if Todo.createdAt todo <? o then Some (Todo.createdAt todo) else Some o
  end.

Definition getLocalDataStats (ls : LocalStorage.t) : nat * option Z :=
  match LocalStorage.dailyTodos ls with
  | None => (0%nat, None)
  | Some parsedTodos => (length parsedTodos, foldl oldestStep None parsedTodos)
  end.

Definition getLocalHabitsData (env : Env.t) (ls : LocalStorage.t) : HabitsData.t :=
  let lastResetDate :=
    match LocalStorage.lastResetDate ls with
    | Some d => if String.eqb d "" then Env.today env else d
    | None => Env.today env
    end in
  let habits :=
    match LocalStorage.dailyTodos ls with
    | Some todos => map habitOfTodo todos
    | None => []
    end in
  HabitsData.mk "1.0" (Env.now env) lastResetDate habits (defaultSettings true 300000).

(** [getRemoteData] of the migration: every failure, a missing
    authentication included, yields the default snapshot. *)
Definition getRemoteData (env : Env.t) (w : World.t) : HabitsData.t * World.t :=
  if World.authenticated w && World.hasUserAndRepo w then
    (readRemote env w, withRemote (World.remote w) [CallGet] w)
  else (getDefaultHabitsData env, w).

Definition mergePick (localHabits remoteHabits : list (string * HabitItem.t))
    (id : string) : option HabitItem.t :=
  match JsMap.get id localHabits, JsMap.get id remoteHabits with
  | Some localHabit, Some remoteHabit => Some localHabit
  | Some localHabit, None => Some localHabit
  | None, Some remoteHabit => Some remoteHabit
  | None, None => None
  end.

Definition mergeLocalAndRemote (now : Z) (local remote : HabitsData.t) : HabitsData.t :=
  let localHabits := habitMap (HabitsData.habits local) in
  let remoteHabits := habitMap (HabitsData.habits remote) in
  let mergedHabits := pushLoop (mergePick localHabits remoteHabits) (allIds local remote) in
  HabitsData.mk "1.0" now (HabitsData.lastResetDate local)
    (sortByCreatedAt mergedHabits)
    (HabitsData.settings local ∪ HabitsData.settings remote).

(** [migrateLocalData]: every error is caught and reported in the result. *)
Definition migrateLocalData (env : Env.t) (w : World.t) : MigrationResult.t * World.t :=
  if negb (World.authenticated w) then (MigrationResult.mk false 0 true, w)
  else if negb (hasLocalData (World.storage w)) then (MigrationResult.mk true 0 false, w)
  else
    let localData := getLocalHabitsData env (World.storage w) in
    let '(remoteData, w1) := getRemoteData env w in
    let toPush :=
      if (0 <? length (HabitsData.habits remoteData))%nat then
        mergeLocalAndRemote (Env.now env) localData remoteData
      else localData in
    match push env (Some toPush) w1 with
    | (Thrown _ _, w2) => (MigrationResult.mk false 0 true, w2)
    | (Returned _, w2) =>
        (MigrationResult.mk true (length (HabitsData.habits localData)) false, w2)
    end.

Definition clearLocalData (ls : LocalStorage.t) : LocalStorage.t :=
  LocalStorage.mk None None (LocalStorage.deleted_habits ls)
    (LocalStorage.habits_data ls) (LocalStorage.sync_state_saved ls).

(** The value a backup string stands for.  [JSON.parse] of a string that
    [JSON.stringify] made is taken to return the value that was written;
    a value read from a foreign string may lack [todos]. *)
Module Backup.
Record t : Type := mk {
  todos : option (list Todo.t);
  lastResetDate : option string;
  timestamp : Z
}.
End Backup.

Definition createLocalBackup (now : Z) (ls : LocalStorage.t) : option Backup.t :=
  match LocalStorage.dailyTodos ls with
  | None => None
  | Some todos => Some (Backup.mk (Some todos) (LocalStorage.lastResetDate ls) now)
  end.

(** [restoreFromBackup]; [None] as input is a string that does not parse. *)
Definition restoreFromBackup (backup : option Backup.t) (ls : LocalStorage.t)
    : bool * LocalStorage.t :=
  match backup with
  | None => (false, ls)
  | Some b =>
      match Backup.todos b with
      | None => (false, ls)
      | Some todos =>
          let lastResetDate :=
            match Backup.lastResetDate b with
            | Some d => if String.eqb d "" then LocalStorage.lastResetDate ls else Some d
            | None => LocalStorage.lastResetDate ls
            end in
          (true,
           LocalStorage.mk (Some todos) lastResetDate (LocalStorage.deleted_habits ls)
             (LocalStorage.habits_data ls) (LocalStorage.sync_state_saved ls))
      end
  end.

End DataMigration.

(** ** Text checks of [lib/encoding-utils.ts] *)

Module EncodingUtils.

(** A byte the UTF-8 decoder accepts when no sequence is open. *)
Definition leadByteValid (b : Z) : bool :=
  ((0 <=? b) && (b <=? 0x7F)) || ((0xC2 <=? b) && (b <=? 0xDF))
  || ((0xE0 <=? b) && (b <=? 0xEF)) || ((0xF0 <=? b) && (b <=? 0xF4)).

(** The decoder's handler in fatal mode: [None] where the lenient decoder
    would emit U+FFFD. *)
Definition decHandlerFatal (st : Codec.DecState) (b : Z)
    : option (list Z * Codec.DecState) :=
  if Codec.bytesNeeded st =? 0 then
    if leadByteValid b then Some (Codec.leadByte b) else None
  else if negb ((Codec.lowerBoundary st <=? b) && (b <=? Codec.upperBoundary st)) then None
  else Some (Codec.decHandler st b).

Fixpoint utf8DecodeFatalFrom (st : Codec.DecState) (bs : list Z) : option (list Z) :=
  match bs with
  | [] => if Codec.bytesNeeded st =? 0 then Some [] else None
  | b :: bs' =>
      match decHandlerFatal st b with
      | None => None
      | Some (out, st') =>
          match utf8DecodeFatalFrom st' bs' with
          | Some rest => Some (out ++ rest)
          | None => None
          end
      end
  end.

(** [new TextDecoder('utf-8', { fatal: true }).decode(bytes)]; [None] is
    the thrown [TypeError]. *)
Definition textDecodeFatal (bytes : list Z) : option (list Z) :=
  match utf8DecodeFatalFrom Codec.decInit bytes with
  | Some cps => Some (concat (map Codec.utf16EncodeCodePoint (Codec.stripBOM cps)))
  | None => None
  end.

Definition isValidUTF8 (text : list Z) : bool :=
  match textDecodeFatal (Codec.textEncode text) with
  | Some decoded => bool_decide (decoded = text)
  | None => false
  end.

(** [text.includes(c)] for a one-unit string [c] *)
Definition includesUnit (c : Z) (text : list Z) : bool := existsb (fun u => u =? c) text.

(** [fixCorruptedText] of [encoding-utils.ts]: a text with an [â] (U+00E2)
    or an [Ã] (U+00C3) is encoded to UTF-8 and decoded again. *)
Definition fixCorruptedText (corruptedText : list Z) : list Z :=
  if includesUnit 0xE2 corruptedText || includesUnit 0xC3 corruptedText then
    Codec.textDecode (Codec.textEncode corruptedText)
  else corruptedText.

End EncodingUtils.

(** ** Backup file names ([GitHubClient.createBackup],
       [GitHubClient.extractTimestampFromFileName]) *)

Module BackupNames.

(** ["backup-"] and [".json"] *)
Definition backupPrefix : list Z := [98; 97; 99; 107; 117; 112; 45].
Definition jsonSuffix : list Z := [46; 106; 115; 111; 110].

Definition dash : Z := 45.
Definition colon : Z := 58.
Definition dot : Z := 46.

(** [timestamp.replace(/[:.]/g, '-')] *)
Definition colonsAndDotsToDashes (s : list Z) : list Z :=
  map (fun c => if (c =? colon) || (c =? dot) then dash else c) s.

(** The file name [createBackup] gives the backup made at [timestamp]. *)
Definition backupFileName (timestamp : list Z) : list Z :=
  backupPrefix ++ colonsAndDotsToDashes timestamp ++ jsonSuffix.

(** Line terminators, which [.] does not match. *)
Definition isLineTerminator (c : Z) : bool :=
  (c =? 10) || (c =? 13) || (c =? 0x2028) || (c =? 0x2029).

Fixpoint startsWith (p s : list Z) : bool :=
  match p, s with
  | [], _ => true
  | a :: p', b :: s' => (a =? b) && startsWith p' s'
  | _ :: _, [] => false
  end.

(** The group captured by [/backup-(.+)\.json$/] when the match starts at
    the beginning of [s]: the greedy [.+] must end where the final [.json]
    begins, since [$] is the end of the string. *)
Definition matchBackupAt (s : list Z) : option (list Z) :=
  if startsWith backupPrefix s then
    let rest := drop (length backupPrefix) s in
    let n := length rest in
    if (length jsonSuffix <? n)%nat then
      let captured := take (n - length jsonSuffix) rest in
      let ending := drop (n - length jsonSuffix) rest in
      if bool_decide (ending = jsonSuffix)
         && forallb (fun c => negb (isLineTerminator c)) captured
      then Some captured else None
    else None
  else None.

(** [fileName.match(/backup-(.+)\.json$/)]: the leftmost match. *)
Fixpoint matchBackup (s : list Z) : option (list Z) :=
  match s with
  | [] => matchBackupAt []
  | _ :: s' =>
      match matchBackupAt s with
      | Some captured => Some captured
      | None => matchBackup s'
      end
  end.

(** [.replace(/-/g, ':')] *)
Definition dashesToColons (s : list Z) : list Z :=
  map (fun c => if c =? dash then colon else c) s.

Definition isDigit (c : Z) : bool := (48 <=? c) && (c <=? 57).

(** A match of [/T(\d{2}):(\d{2}):(\d{2})/] at the beginning of [s]: the
    text ['T$1:$2:$3'] that replaces it, and what follows the match. *)
Definition timeAt (s : list Z) : option (list Z * list Z) :=
  match s with
  | t :: a :: b :: c1 :: d :: e :: c2 :: f :: g :: rest =>
      if (t =? 84) && isDigit a && isDigit b && (c1 =? colon)
         && isDigit d && isDigit e && (c2 =? colon) && isDigit f && isDigit g
      then Some ([84] ++ [a; b] ++ [colon] ++ [d; e] ++ [colon] ++ [f; g], rest)
      else None
  | _ => None
  end.

(** [.replace(/T(\d{2}):(\d{2}):(\d{2})/, 'T$1:$2:$3')]: the first match
    only. *)
Fixpoint replaceTime (s : list Z) : list Z :=
  match s with
  | [] => []
  | c :: s' =>
      match timeAt s with
      | Some (replacement, rest) => replacement ++ rest
      | None => c :: replaceTime s'
      end
  end.

(** [extractTimestampFromFileName]; [nowIso] is [new Date().toISOString()]. *)
Definition extractTimestampFromFileName (nowIso : list Z) (fileName : list Z) : list Z :=
  match matchBackup fileName with
  | Some captured => replaceTime (dashesToColons captured)
  | None => nowIso
  end.

(** Every [-], [:] and [.] turned into [:]. *)
Definition allToColons (s : list Z) : list Z :=
  map (fun c => if (c =? dash) || (c =? colon) || (c =? dot) then colon else c) s.

End BackupNames.

(** ** Resolving conflicts ([SyncManager.resolveConflicts])

    The whole method: it reads the local snapshot again, fetches the
    remote one, applies the resolutions to the conflicts its caller passes
    in, writes the resolved snapshot to both stores and sets the state.
    The outcome [None] is the plain [Error] thrown for lists of different
    lengths; the method has no [catch], so a failed read or write leaves
    the state as it is. *)

Module SyncManager.

Definition resolveConflicts (env : Env.t) (conflicts : list ConflictInfo.t)
    (resolutions : list ConflictResolution) (w : World.t)
    : option (Outcome HabitsData.t) * World.t :=
  if negb (length conflicts =? length resolutions)%nat then (None, w)
  else
    let localData := getLocalData env w in
    match getRemoteData env w with
    | (Thrown ty msg, w1) => (Some (Thrown ty msg), w1)
    | (Returned remoteData, w1) =>
        let resolvedHabits :=
          foldl (resolveStep (Env.now env)) (habitMap (HabitsData.habits localData))
                (zip conflicts resolutions) in
        let resolvedData :=
          HabitsData.mk (HabitsData.version localData) (Env.now env)
            (HabitsData.lastResetDate localData)
            (JsMap.values resolvedHabits)
            (HabitsData.settings localData) in
        match saveBoth env resolvedData w1 with
        | (Thrown ty msg, w2) => (Some (Thrown ty msg), w2)
        | (Returned _, w2) =>
            let s := World.syncState w2 in
            (Some (Returned resolvedData),
             withSyncState (SyncState.mk Success (Some (Env.now env))
                              (SyncState.lastError s) (SyncState.pendingChanges s) 0) w2)
        end
    end.

End SyncManager.

(** An id of a record that one of the conflicts carries. *)
Definition carries (conflicts : list ConflictInfo.t) (k : string) : Prop :=
  exists c h,
    c ∈ conflicts
    /\ (ConflictInfo.local c = Some h \/ ConflictInfo.remote c = Some h)
    /\ HabitItem.id h = k.

(** ** The page ([app/page.tsx])

    The page keeps the list in its state [todos] and writes it to
    [dailyTodos] after each change. *)

Module Page.

Definition saveTodos (updatedTodos : list Todo.t) (ls : LocalStorage.t) : LocalStorage.t :=
  LocalStorage.mk (Some updatedTodos) (LocalStorage.lastResetDate ls)
    (LocalStorage.deleted_habits ls) (LocalStorage.habits_data ls)
    (LocalStorage.sync_state_saved ls).

(** [deleteTodo(id)]: the new state and the storage. *)
Definition deleteTodo (id : string) (todos : list Todo.t) (ls : LocalStorage.t)
    : list Todo.t * LocalStorage.t :=
  let updatedTodos := List.filter (fun todo => negb (String.eqb (Todo.id todo) id)) todos in
  (updatedTodos, saveTodos updatedTodos ls).

End Page.

(** A device holding records 1 and 2 while the remote file holds another
    text for record 1; the conflicts a cycle reports there; and the device
    after the page has then deleted record 1. *)
Definition twoRecordWorld : World.t :=
  World.mk
    (LocalStorage.mk (Some [Todo.mk "1" "read" false (Some false) 100;
                            Todo.mk "2" "walk" true (Some false) 200]) None [] None false)
    (Remote.mk (Some (snapshotOf 900 [habit1remote] ∅)) 1)
    (SyncState.mk Idle None None true 0)
    defaultConfig true true true [].

Definition reportedConflicts : list ConflictInfo.t :=
  detectConflicts (getLocalData quietEnv twoRecordWorld) (readRemote quietEnv twoRecordWorld).

Definition afterPageDelete : World.t :=
  withStorage
    (Page.deleteTodo "1" [Todo.mk "1" "read" false (Some false) 100;
                          Todo.mk "2" "walk" true (Some false) 200]
       (World.storage twoRecordWorld)).2
    twoRecordWorld.

(** * Properties *)

(** ** Insertion-ordered maps *)

Section JsMapFacts.
Context {V : Type}.
Implicit Types (m : list (string * V)) (k : string) (v : V).

Lemma keys_set k k' v m :
  k ∈ JsMap.keys (JsMap.set k' v m) <-> k = k' \/ k ∈ JsMap.keys m.
Proof.
  unfold JsMap.keys. induction m as [|[k0 v0] m IH]; simpl.
  - rewrite list_elem_of_singleton, elem_of_nil. tauto.
  - destruct (decide (k' = k0)) as [->|Hne]; simpl.
    + rewrite !elem_of_cons. tauto.
    + rewrite !elem_of_cons, IH. tauto.
Qed.

Lemma get_Some_keys k v m : JsMap.get k m = Some v -> k ∈ JsMap.keys m.
Proof.
  unfold JsMap.keys. induction m as [|[k0 v0] m IH]; simpl; [done|].
  rewrite elem_of_cons. destruct (decide (k = k0)); auto.
Qed.

Lemma get_None_keys k m : JsMap.get k m = None <-> k ∉ JsMap.keys m.
Proof.
  unfold JsMap.keys. induction m as [|[k0 v0] m IH]; simpl.
  - split; [intros _; apply not_elem_of_nil | done].
  - rewrite not_elem_of_cons. destruct (decide (k = k0)) as [->|Hne].
    + split; [done | intros [? _]; done].
    + rewrite IH. tauto.
Qed.

Lemma keys_get_is_Some k m : k ∈ JsMap.keys m -> is_Some (JsMap.get k m).
Proof.
  intros Hk. destruct (JsMap.get k m) eqn:E; [eauto|].
  apply get_None_keys in E. contradiction.
Qed.

Lemma get_Some_elem k v m : JsMap.get k m = Some v -> (k, v) ∈ m.
Proof.
  induction m as [|[k0 v0] m IH]; simpl; [done|].
  rewrite elem_of_cons. destruct (decide (k = k0)) as [->|].
  - intros [= ->]. by left.
  - auto.
Qed.

Lemma elem_of_set k v k' v' m :
  (k, v) ∈ JsMap.set k' v' m -> (k, v) = (k', v') \/ (k, v) ∈ m.
Proof.
  induction m as [|[k2 v2] m IHm]; simpl.
  - rewrite list_elem_of_singleton. auto.
  - destruct (decide (k' = k2)); rewrite !elem_of_cons; tauto.
Qed.

Lemma elem_of_delete k v k' m : (k, v) ∈ JsMap.delete k' m -> (k, v) ∈ m.
Proof.
  induction m as [|[k2 v2] m IHm]; simpl; [done|].
  destruct (decide (k' = k2)); rewrite !elem_of_cons; tauto.
Qed.

Lemma keys_foldl_set (es : list (string * V)) m k :
  k ∈ JsMap.keys (foldl (fun m e => JsMap.set e.1 e.2 m) m es)
  <-> k ∈ es.*1 \/ k ∈ JsMap.keys m.
Proof.
  revert m. induction es as [|[k0 v0] es IH]; intros m; simpl.
  - rewrite elem_of_nil. tauto.
  - rewrite IH, keys_set, elem_of_cons. tauto.
Qed.

Lemma keys_of_entries (es : list (string * V)) k :
  k ∈ JsMap.keys (JsMap.of_entries es) <-> k ∈ es.*1.
Proof.
  unfold JsMap.of_entries. rewrite keys_foldl_set. unfold JsMap.keys. simpl.
  rewrite elem_of_nil. tauto.
Qed.

Lemma set_fresh k v m : k ∉ JsMap.keys m -> JsMap.set k v m = m ++ [(k, v)].
Proof.
  unfold JsMap.keys. induction m as [|[k1 v1] m IH]; simpl; [done|].
  rewrite not_elem_of_cons. intros [Hne Hk].
  destruct (decide (k = k1)); [done|]. f_equal. by apply IH.
Qed.

(** Entries with distinct keys make a map that lists them unchanged. *)
Lemma foldl_set_fresh (es : list (string * V)) m :
  NoDup (JsMap.keys m ++ es.*1) ->
  foldl (fun m e => JsMap.set e.1 e.2 m) m es = m ++ es.
Proof.
  revert m. induction es as [|[k0 v0] es IH]; intros m Hnd; simpl.
  - by rewrite app_nil_r.
  - assert (Hk : k0 ∉ JsMap.keys m).
    { apply NoDup_app in Hnd as (_ & Hdisj & _).
      intros Hin. apply (Hdisj k0 Hin). simpl. apply elem_of_cons. by left. }
    rewrite (set_fresh _ _ _ Hk), IH.
    + by rewrite <- app_assoc.
    + unfold JsMap.keys in *. rewrite fmap_app. simpl in *.
      by rewrite <- app_assoc.
Qed.

Lemma of_entries_NoDup (es : list (string * V)) :
  NoDup es.*1 -> JsMap.of_entries es = es.
Proof. intros Hnd. unfold JsMap.of_entries. by rewrite foldl_set_fresh. Qed.

End JsMapFacts.

Lemma elem_of_add k k' s : k ∈ JsMap.add k' s <-> k = k' \/ k ∈ s.
Proof.
  unfold JsMap.add. destruct (decide (k' ∈ s)) as [Hin|Hn].
  - split; [auto|]. intros [->|H]; done.
  - rewrite elem_of_app, list_elem_of_singleton. tauto.
Qed.

Lemma elem_of_foldl_add ks s k :
  k ∈ foldl (fun s k => JsMap.add k s) s ks <-> k ∈ ks \/ k ∈ s.
Proof.
  revert s. induction ks as [|k0 ks IH]; intros s; simpl.
  - rewrite elem_of_nil. tauto.
  - rewrite IH, elem_of_add, elem_of_cons. tauto.
Qed.

Lemma elem_of_set_of ks k : k ∈ JsMap.set_of ks <-> k ∈ ks.
Proof.
  unfold JsMap.set_of. rewrite elem_of_foldl_add, elem_of_nil. tauto.
Qed.

Lemma foldl_add_fresh ks s :
  NoDup (s ++ ks) -> foldl (fun s k => JsMap.add k s) s ks = s ++ ks.
Proof.
  revert s. induction ks as [|k0 ks IH]; intros s Hnd; simpl.
  - by rewrite app_nil_r.
  - assert (Hk : k0 ∉ s).
    { apply NoDup_app in Hnd as (_ & Hdisj & _).
      intros Hin. apply (Hdisj k0 Hin), elem_of_cons. by left. }
    unfold JsMap.add at 2. destruct (decide (k0 ∈ s)); [done|].
    rewrite IH; by rewrite <- app_assoc.
Qed.

Lemma foldl_add_known ks s :
  (forall k, k ∈ ks -> k ∈ s) -> foldl (fun s k => JsMap.add k s) s ks = s.
Proof.
  revert s. induction ks as [|k0 ks IH]; intros s Hin; simpl; [done|].
  unfold JsMap.add at 2. destruct (decide (k0 ∈ s)) as [|Hn].
  - apply IH. intros k Hk. apply Hin, elem_of_cons. by right.
  - exfalso. apply Hn, Hin, elem_of_cons. by left.
Qed.

(** ** Loops that push *)

Lemma pushLoop_omap {A B} (pick : A -> option B) (xs : list A) :
  pushLoop pick xs = omap pick xs.
Proof.
  unfold pushLoop.
  enough (H : forall acc,
    foldl (fun out x => match pick x with Some y => out ++ [y] | None => out end) acc xs
    = acc ++ omap pick xs) by apply (H []).
  induction xs as [|x xs IH]; intros acc; simpl.
  - by rewrite app_nil_r.
  - rewrite IH. destruct (pick x); simpl; [by rewrite <- app_assoc | done].
Qed.

Lemma elem_of_pushLoop {A B} (pick : A -> option B) (xs : list A) (y : B) :
  y ∈ pushLoop pick xs <-> exists x, x ∈ xs /\ pick x = Some y.
Proof. rewrite pushLoop_omap. apply list_elem_of_omap. Qed.

(** ** Identifier maps of a snapshot *)

Lemma keys_habitMap hs k :
  k ∈ JsMap.keys (habitMap hs) <-> k ∈ map HabitItem.id hs.
Proof.
  unfold habitMap. rewrite keys_of_entries.
  rewrite <- list_fmap_compose. reflexivity.
Qed.

Lemma elem_of_habitMap hs k h :
  (k, h) ∈ habitMap hs -> h ∈ hs /\ HabitItem.id h = k.
Proof.
  unfold habitMap, JsMap.of_entries.
  enough (H : forall es (m : list (string * HabitItem.t)),
    (forall k v, (k, v) ∈ m -> v ∈ hs /\ HabitItem.id v = k) ->
    (forall k v, (k, v) ∈ es -> v ∈ hs /\ HabitItem.id v = k) ->
    forall k v, (k, v) ∈ foldl (fun m e => JsMap.set e.1 e.2 m) m es ->
                v ∈ hs /\ HabitItem.id v = k).
  { apply H.
    - intros ? ? Hin. by apply elem_of_nil in Hin.
    - intros k' v' Hin. apply list_elem_of_fmap in Hin as (h' & [= -> ->] & Hh'). done. }
  induction es as [|[k0 v0] es IH]; intros m Hm Hes k' v'; simpl; [apply Hm|].
  apply IH.
  - intros k1 v1 Hin.
    apply elem_of_set in Hin as [[= -> ->]|Hin]; [apply Hes, elem_of_cons; by left | by apply Hm].
  - intros k1 v1 Hin. apply Hes, elem_of_cons. by right.
Qed.

Lemma get_habitMap_elem hs k h :
  JsMap.get k (habitMap hs) = Some h -> h ∈ hs /\ HabitItem.id h = k.
Proof. intros Hg. by apply elem_of_habitMap, get_Some_elem. Qed.

Lemma elem_of_allIds local remote k :
  k ∈ allIds local remote <-> k ∈ habitIds local \/ k ∈ habitIds remote.
Proof.
  unfold allIds, habitIds. rewrite elem_of_set_of, elem_of_app, !keys_habitMap. reflexivity.
Qed.

(** ** Conflict detection *)

Lemma hasConflict_true_iff (a b : HabitItem.t) :
  hasConflict a b = true <-> conflictSpec a b.
Proof.
  unfold hasConflict, conflictSpec.
  destruct (String.eqb_spec (HabitItem.text a) (HabitItem.text b)) as [Ht|Ht]; simpl.
  - destruct (HabitItem.completed a), (HabitItem.completed b); simpl;
      rewrite ?Z.ltb_lt; split; intros H; try tauto; try discriminate;
      try (right; split; [discriminate | exact H]);
      destruct H as [H|[H _]]; congruence.
  - split; [intros _; by left | done].
Qed.

Lemma hasConflict_same_text_completed (a b : HabitItem.t) :
  HabitItem.text a = HabitItem.text b ->
  HabitItem.completed a = HabitItem.completed b ->
  hasConflict a b = false.
Proof.
  intros Ht Hc. unfold hasConflict.
  rewrite Ht, Hc, String.eqb_refl, Bool.eqb_reflx. reflexivity.
Qed.

Lemma hasConflict_refl (a : HabitItem.t) : hasConflict a a = false.
Proof. by apply hasConflict_same_text_completed. Qed.

(** C5. The verdict of [hasConflict] is the reference definition: two
    records conflict exactly when their texts differ, or their completion
    flags differ and their modification times are less than one hour
    apart.  Changing only [hidden] never yields a conflict, and a record
    never conflicts with itself. *)
Theorem conflict_verdict_matches_reference (a b : HabitItem.t) (h : bool) :
  (hasConflict a b = true <-> conflictSpec a b)
  /\ hasConflict a (HabitItem.mk (HabitItem.id a) (HabitItem.text a)
                      (HabitItem.completed a) h
                      (HabitItem.createdAt a) (HabitItem.updatedAt a)) = false
  /\ hasConflict a a = false.
Proof.
  split; [apply hasConflict_true_iff|].
  split; [by apply hasConflict_same_text_completed | apply hasConflict_refl].
Qed.

Lemma elem_of_detectConflicts local remote c :
  c ∈ detectConflicts local remote <->
  exists l r,
    JsMap.get (ConflictInfo.id c) (habitMap (HabitsData.habits local)) = Some l
    /\ JsMap.get (ConflictInfo.id c) (habitMap (HabitsData.habits remote)) = Some r
    /\ hasConflict l r = true
    /\ c = ConflictInfo.mk (ConflictInfo.id c) Modify (Some l) (Some r)
             (habitTime l) (habitTime r).
Proof.
  unfold detectConflicts. rewrite elem_of_pushLoop. split.
  - intros (k & _ & Hpick). unfold detectPick in Hpick.
    destruct (JsMap.get k _) as [l|] eqn:El; [|done].
    destruct (JsMap.get k (habitMap (HabitsData.habits remote))) as [r|] eqn:Er; [|done].
    destruct (hasConflict l r) eqn:Hc; [|done].
    injection Hpick as <-. simpl. eauto 10.
  - intros (l & r & Hl & Hr & Hc & Heq). exists (ConflictInfo.id c). split.
    + apply elem_of_allIds. left. apply keys_habitMap. by eapply get_Some_keys.
    + unfold detectPick. rewrite Hl, Hr, Hc. f_equal. symmetry. exact Heq.
Qed.

Lemma detectConflicts_self s : detectConflicts s s = [].
Proof.
  unfold detectConflicts. rewrite pushLoop_omap.
  induction (allIds s s) as [|k ks IH]; simpl; [done|].
  unfold detectPick at 1.
  destruct (JsMap.get k _) as [l|]; [rewrite hasConflict_refl|]; exact IH.
Qed.

(** ** Tombstones *)

Lemma elem_of_deletedIds store k :
  k ∈ getDeletedHabitsIds store <-> exists t, t ∈ store /\ Tombstone.id t = k.
Proof.
  unfold getDeletedHabitsIds. rewrite elem_of_set_of. rewrite list_elem_of_fmap.
  split; intros (t & H1 & H2); exists t; split; auto.
Qed.

Lemma find_tombstone_Some store k t :
  List.find (fun item => bool_decide (Tombstone.id item = k)) store = Some t ->
  t ∈ store /\ Tombstone.id t = k.
Proof.
  intros H. apply find_some in H as [Hin Hb].
  apply bool_decide_eq_true in Hb. split; [by apply list_elem_of_In | done].
Qed.

Lemma markHabitAsDeleted_recorded now k store :
  k ∈ getDeletedHabitsIds (markHabitAsDeleted now k store).
Proof.
  unfold markHabitAsDeleted.
  destruct (List.find _ store) as [t|] eqn:E.
  - apply find_tombstone_Some in E as [Hin Hid]. apply elem_of_deletedIds. eauto.
  - apply elem_of_deletedIds. exists (Tombstone.mk k now). split; [|done].
    apply elem_of_app. right. by apply list_elem_of_singleton.
Qed.

Lemma elem_of_cleanup now store t :
  t ∈ cleanupDeletedIds now store <-> t ∈ store /\ now - retention < Tombstone.deletedAt t.
Proof.
  unfold cleanupDeletedIds. rewrite !list_elem_of_In, filter_In, Z.ltb_lt. reflexivity.
Qed.

(** ** Merge *)

Lemma elem_of_insertByCreatedAt h x l :
  x ∈ insertByCreatedAt h l <-> x = h \/ x ∈ l.
Proof.
  induction l as [|y l IH]; simpl.
  - rewrite list_elem_of_singleton, elem_of_nil. tauto.
  - destruct (HabitItem.createdAt h <=? HabitItem.createdAt y).
    + rewrite !elem_of_cons. tauto.
    + rewrite !elem_of_cons, IH. tauto.
Qed.

Lemma elem_of_sortByCreatedAt x l : x ∈ sortByCreatedAt l <-> x ∈ l.
Proof.
  unfold sortByCreatedAt. induction l as [|y l IH]; simpl; [done|].
  rewrite elem_of_insertByCreatedAt, IH, elem_of_cons. tauto.
Qed.

Lemma mergeData_habits now store local remote :
  HabitsData.habits (mergeData now store local remote).1
  = sortByCreatedAt (mergedHabits now store local remote).
Proof. reflexivity. Qed.

Lemma mergeData_store now store local remote :
  (mergeData now store local remote).2 = cleanupDeletedIds now store.
Proof. reflexivity. Qed.

(** A record is in the merged snapshot exactly when the loop picked it. *)
Lemma elem_of_merged now store local remote h :
  h ∈ HabitsData.habits (mergeData now store local remote).1 <->
  exists k, k ∈ allIds local remote
    /\ mergePick now store (HabitsData.lastSync local)
         (habitMap (HabitsData.habits local)) (habitMap (HabitsData.habits remote)) k
       = Some h.
Proof.
  rewrite mergeData_habits, elem_of_sortByCreatedAt.
  unfold mergedHabits. apply elem_of_pushLoop.
Qed.

Lemma mergePick_id now store ls lh rh k h :
  mergePick now store ls (habitMap lh) (habitMap rh) k = Some h ->
  HabitItem.id h = k /\ k ∉ getDeletedHabitsIds store.
Proof.
  unfold mergePick. destruct (decide _) as [|Hnd]; [done|].
  destruct (JsMap.get k (habitMap lh)) as [l|] eqn:El;
    destruct (JsMap.get k (habitMap rh)) as [r|] eqn:Er; try done.
  - apply get_habitMap_elem in El as [_ <-]. apply get_habitMap_elem in Er as [_ Hr].
    destruct (_ <=? _); intros [= <-]; auto.
  - apply get_habitMap_elem in El as [_ <-]. intros [= <-]; auto.
  - apply get_habitMap_elem in Er as [_ <-].
    destruct (_ <? _); [intros [= <-]; auto|].
    destruct (negb _); [intros [= <-]; auto | done].
Qed.

(** Without a tombstone for [k], the loop pushes a record for every [k]
    that either side has. *)
Lemma mergePick_no_tombstone now store ls lh rh k :
  k ∉ getDeletedHabitsIds store ->
  k ∈ map HabitItem.id lh \/ k ∈ map HabitItem.id rh ->
  exists h, mergePick now store ls (habitMap lh) (habitMap rh) k = Some h.
Proof.
  intros Hnd Hin. unfold mergePick. destruct (decide _); [done|].
  destruct (JsMap.get k (habitMap lh)) as [l|] eqn:El;
    destruct (JsMap.get k (habitMap rh)) as [r|] eqn:Er; eauto.
  - destruct (_ <? _); eauto.
    unfold wasRecentlyDeleted.
    destruct (List.find _ store) as [t|] eqn:Ef; simpl; eauto.
    apply find_tombstone_Some in Ef as [Ht Hid].
    exfalso. apply Hnd, elem_of_deletedIds. eauto.
  - exfalso. apply get_None_keys in El, Er. rewrite keys_habitMap in El, Er. tauto.
Qed.

Lemma tombstoned_absent now store local remote k :
  k ∈ getDeletedHabitsIds store ->
  k ∉ habitIds (mergeData now store local remote).1.
Proof.
  intros Hd Hin. unfold habitIds in Hin.
  apply list_elem_of_fmap in Hin as (h & -> & Hh).
  apply elem_of_merged in Hh as (k & _ & Hpick).
  apply mergePick_id in Hpick as [<- Hn]. contradiction.
Qed.

Lemma untombstoned_present now store local remote k :
  k ∉ getDeletedHabitsIds store ->
  k ∈ habitIds local \/ k ∈ habitIds remote ->
  k ∈ habitIds (mergeData now store local remote).1.
Proof.
  intros Hnd Hin.
  destruct (mergePick_no_tombstone now store (HabitsData.lastSync local)
              (HabitsData.habits local) (HabitsData.habits remote) k Hnd Hin) as [h Hpick].
  unfold habitIds. apply list_elem_of_fmap. exists h. split.
  - symmetry. by apply mergePick_id in Hpick as [? _].
  - apply elem_of_merged. exists k. split; [by apply elem_of_allIds | done].
Qed.

Lemma runMerges_suppressed k tomb store passes :
  tomb ∈ store -> Tombstone.id tomb = k ->
  Forall (fun p => p.1.1 - retention < Tombstone.deletedAt tomb) passes ->
  Forall (fun merged => k ∉ habitIds merged) (runMerges store passes).
Proof.
  intros Hin Hid Hall. revert store Hin.
  induction Hall as [|[[now local] remote] passes Hnow _ IH]; intros store Hin; simpl.
  - constructor.
  - constructor.
    + apply tombstoned_absent, elem_of_deletedIds. eauto.
    + apply IH. apply elem_of_cleanup. done.
Qed.

(** C2. Once [markHabitAsDeleted id] has run, every merge pass made while
    the tombstone kept for [id] is younger than the retention window
    yields a snapshot without a record of that id, whatever the two input
    snapshots contain. *)
Theorem tombstone_suppresses_every_merge (id : string) (t0 : Z)
    (store0 : list Tombstone.t) (tomb : Tombstone.t)
    (passes : list (Z * HabitsData.t * HabitsData.t)) :
  List.find (fun item => bool_decide (Tombstone.id item = id))
            (markHabitAsDeleted t0 id store0) = Some tomb ->
  Forall (fun p => p.1.1 - retention < Tombstone.deletedAt tomb) passes ->
  Forall (fun merged => id ∉ habitIds merged)
         (runMerges (markHabitAsDeleted t0 id store0) passes).
Proof.
  intros Hfind Hall. apply find_tombstone_Some in Hfind as [Hin Hid].
  by eapply runMerges_suppressed.
Qed.

(** C3 (as amended). The sweep runs at the end of a merge pass, after the
    deletion lookups.  A pass made when every tombstone of [id] has
    outlived the retention window therefore still leaves [id] out when a
    tombstone is recorded, but leaves no tombstone for [id] behind; any
    later pass over the swept blob includes a record of [id] as soon as one
    of its input snapshots has one. *)
Theorem expired_tombstone_swept_after_lookup (now : Z) (store : list Tombstone.t)
    (local remote : HabitsData.t) (id : string) :
  (forall t, t ∈ store -> Tombstone.id t = id -> Tombstone.deletedAt t <= now - retention) ->
  (id ∈ getDeletedHabitsIds store -> id ∉ habitIds (mergeData now store local remote).1)
  /\ (id ∉ getDeletedHabitsIds (mergeData now store local remote).2)
  /\ forall now' local' remote',
       id ∈ habitIds local' \/ id ∈ habitIds remote' ->
       id ∈ habitIds (mergeData now' (mergeData now store local remote).2 local' remote').1.
Proof.
  intros Hexp.
  assert (Hswept : id ∉ getDeletedHabitsIds (mergeData now store local remote).2).
  { rewrite mergeData_store. intros Hin.
    apply elem_of_deletedIds in Hin as (t & Ht & Hid).
    apply elem_of_cleanup in Ht as [Ht Hlt]. specialize (Hexp t Ht Hid). lia. }
  split; [apply tombstoned_absent|]. split; [exact Hswept|].
  intros now' local' remote' Hin. by apply untombstoned_present.
Qed.

(** C4. A record present locally, absent remotely and without a tombstone
    is in the merged snapshot: the merged records include the local record
    of that id. *)
Theorem local_only_record_survives (now : Z) (store : list Tombstone.t)
    (local remote : HabitsData.t) (id : string) :
  id ∈ habitIds local ->
  id ∉ habitIds remote ->
  id ∉ getDeletedHabitsIds store ->
  id ∈ habitIds (mergeData now store local remote).1
  /\ exists h, JsMap.get id (habitMap (HabitsData.habits local)) = Some h
       /\ h ∈ HabitsData.habits (mergeData now store local remote).1.
Proof.
  intros Hl Hr Hd. split; [apply untombstoned_present; auto|].
  destruct (keys_get_is_Some id (habitMap (HabitsData.habits local))) as [h Hh].
  { by apply keys_habitMap. }
  exists h. split; [done|]. apply elem_of_merged. exists id.
  split; [apply elem_of_allIds; by left|].
  unfold mergePick. destruct (decide _); [done|]. rewrite Hh.
  assert (Hnone : JsMap.get id (habitMap (HabitsData.habits remote)) = None).
  { apply get_None_keys. by rewrite keys_habitMap. }
  by rewrite Hnone.
Qed.

(** C7 (as amended). The merged snapshot takes [version], [lastResetDate]
    and the whole [settings] object from the input with the newer
    [lastSync] (the local one on a tie); no key of the other side's
    settings is overlaid.  Its [lastSync] is the merge time. *)
Theorem merged_metadata_from_newer (now : Z) (store : list Tombstone.t)
    (local remote : HabitsData.t) :
  let merged := (mergeData now store local remote).1 in
  let newer :=
    if HabitsData.lastSync remote <=? HabitsData.lastSync local then local else remote in
  HabitsData.version merged = HabitsData.version newer
  /\ HabitsData.lastResetDate merged = HabitsData.lastResetDate newer
  /\ HabitsData.settings merged = HabitsData.settings newer
  /\ HabitsData.lastSync merged = now.
Proof. simpl. auto. Qed.

Lemma tombstone_suppresses_every_merge_witness :
  Forall (fun merged => "2" ∉ habitIds merged)
    (runMerges (markHabitAsDeleted 1000 "2" [])
       [(2000, snapshotOf 2000 [habit1; habit2] ∅, snapshotOf 1500 [habit2; habit3] ∅);
        (3000, snapshotOf 3000 [habit2] ∅, snapshotOf 2000 [habit1; habit2] ∅)]).
Proof.
  apply (tombstone_suppresses_every_merge "2" 1000 [] (Tombstone.mk "2" 1000)).
  - reflexivity.
  - repeat constructor; unfold retention; simpl; lia.
Defined.

(** C3 does not hold as the design document states it: with a tombstone of
    id 2 that is older than the retention window, a merge whose two inputs
    both hold record 2 still leaves it out. *)
Lemma expired_tombstone_still_suppresses :
  let store := [Tombstone.mk "2" 0] in
  let now := retention + 1 in
  let local := snapshotOf now [habit1; habit2] ∅ in
  let remote := snapshotOf 1500 [habit2] ∅ in
  wasRecentlyDeleted now store "2" = false
  /\ "2" ∈ habitIds local
  /\ "2" ∈ habitIds remote
  /\ habitIds (mergeData now store local remote).1 = ["1"].
Proof.
  simpl. split; [reflexivity|]. split; [|split].
  - compute_done.
  - compute_done.
  - vm_compute. reflexivity.
Qed.

Lemma expired_tombstone_swept_after_lookup_witness :
  "2" ∈ habitIds
          (mergeData (retention + 5)
             (mergeData (retention + 1) [Tombstone.mk "2" 0]
                (snapshotOf 10 [habit1; habit2] ∅) (snapshotOf 5 [habit2] ∅)).2
             (snapshotOf 20 [habit1] ∅) (snapshotOf 15 [habit2] ∅)).1.
Proof.
  apply (expired_tombstone_swept_after_lookup (retention + 1) [Tombstone.mk "2" 0]
           (snapshotOf 10 [habit1; habit2] ∅) (snapshotOf 5 [habit2] ∅) "2").
  - intros t Ht _. apply list_elem_of_singleton in Ht. subst t. simpl. lia.
  - right. compute_done.
Defined.

Lemma local_only_record_survives_witness :
  "2" ∈ habitIds (mergeData 5000 [Tombstone.mk "3" 4000]
                    (snapshotOf 5000 [habit1; habit2] ∅) (snapshotOf 1500 [habit1] ∅)).1.
Proof.
  apply (local_only_record_survives 5000 [Tombstone.mk "3" 4000]
           (snapshotOf 5000 [habit1; habit2] ∅) (snapshotOf 1500 [habit1] ∅) "2").
  - compute_done.
  - compute_done.
  - compute_done.
Defined.

(** C7 does not hold as the design document states it: when the remote
    snapshot is the newer one, its settings are the result; the local value
    of a key present on both sides does not override the remote one. *)
Lemma settings_not_overlaid :
  let local := snapshotOf 1 [] darkTheme in
  let remote := snapshotOf 2 [] lightTheme in
  HabitsData.settings (mergeData 3 [] local remote).1 <> settingsOverlaySpec local remote
  /\ HabitsData.settings (mergeData 3 [] local remote).1 !! "theme" = Some (JStr "light")
  /\ settingsOverlaySpec local remote !! "theme" = Some (JStr "dark").
Proof.
  simpl. split; [|split; reflexivity].
  intros H. apply (f_equal (fun m => m !! "theme")) in H. vm_compute in H. discriminate.
Qed.

(** ** Merging a snapshot with itself *)

Lemma sortByCreatedAt_sorted l : isSortedByCreatedAt l = true -> sortByCreatedAt l = l.
Proof.
  unfold sortByCreatedAt. induction l as [|x l IH]; [done|].
  intros Hs. simpl in Hs. destruct l as [|y l]; [done|].
  apply andb_true_iff in Hs as [Hle Hs].
  change (foldr insertByCreatedAt [] (x :: y :: l))
    with (insertByCreatedAt x (foldr insertByCreatedAt [] (y :: l))).
  rewrite (IH Hs). simpl. by rewrite Hle.
Qed.

Lemma habitMap_NoDup hs :
  NoDup (map HabitItem.id hs) -> habitMap hs = map (fun h => (HabitItem.id h, h)) hs.
Proof.
  intros Hnd. unfold habitMap. apply of_entries_NoDup.
  by rewrite <- list_fmap_compose.
Qed.

Lemma get_pairs_NoDup hs h :
  NoDup (map HabitItem.id hs) -> h ∈ hs ->
  JsMap.get (HabitItem.id h) (map (fun h => (HabitItem.id h, h)) hs) = Some h.
Proof.
  induction hs as [|x hs IH]; intros Hnd Hin; [by apply elem_of_nil in Hin|].
  simpl in *. apply NoDup_cons in Hnd as [Hx Hnd].
  destruct (decide (HabitItem.id h = HabitItem.id x)) as [Heq|Hne].
  - apply elem_of_cons in Hin as [->|Hin]; [done|].
    exfalso. apply Hx. rewrite <- Heq. by apply list_elem_of_fmap_2.
  - apply elem_of_cons in Hin as [->|Hin]; [done|]. by apply IH.
Qed.

Lemma allIds_self s :
  NoDup (habitIds s) -> allIds s s = habitIds s.
Proof.
  intros Hnd. unfold allIds, JsMap.set_of, habitIds in *.
  rewrite (habitMap_NoDup _ Hnd). unfold JsMap.keys.
  rewrite <- list_fmap_compose. change (fst ∘ _) with HabitItem.id.
  rewrite foldl_app, (foldl_add_fresh _ []) by done. simpl.
  by apply foldl_add_known.
Qed.

Lemma omap_pick_all {A} (f : HabitItem.t -> A) (pick : A -> option HabitItem.t)
    (hs : list HabitItem.t) :
  (forall h, h ∈ hs -> pick (f h) = Some h) -> omap pick (map f hs) = hs.
Proof.
  induction hs as [|x hs IH]; intros Hp; [done|]. simpl.
  rewrite (Hp x) by (apply elem_of_cons; by left). simpl. f_equal.
  apply IH. intros h Hh. apply Hp, elem_of_cons. by right.
Qed.

Lemma mergedHabits_self now store s :
  NoDup (habitIds s) ->
  (forall k, k ∈ habitIds s -> k ∉ getDeletedHabitsIds store) ->
  mergedHabits now store s s = HabitsData.habits s.
Proof.
  intros Hnd Hd. unfold mergedHabits. rewrite pushLoop_omap, (allIds_self _ Hnd).
  unfold habitIds in *. apply omap_pick_all. intros h Hh.
  unfold mergePick. destruct (decide _) as [Hin|_].
  - exfalso. eapply Hd; [|exact Hin]. by apply list_elem_of_fmap_2.
  - rewrite (habitMap_NoDup _ Hnd), (get_pairs_NoDup _ _ Hnd Hh).
    by rewrite Z.leb_refl.
Qed.

(** ** Conflict resolution *)

Lemma detectConflicts_wf local remote : Forall wfConflict (detectConflicts local remote).
Proof.
  apply Forall_forall. intros c Hc.
  apply elem_of_detectConflicts in Hc as (l & r & Hl & Hr & _ & ->). simpl in *.
  apply get_habitMap_elem in Hl as [_ Hl]. apply get_habitMap_elem in Hr as [_ Hr].
  split; intros x [= <-]; simpl; done.
Qed.

Lemma detectConflicts_ids local remote c :
  c ∈ detectConflicts local remote ->
  ConflictInfo.id c ∈ habitIds local /\ ConflictInfo.id c ∈ habitIds remote.
Proof.
  intros Hc. apply elem_of_detectConflicts in Hc as (l & r & Hl & Hr & _ & _).
  split; apply keys_habitMap; by eapply get_Some_keys.
Qed.

Lemma mergeHabitItems_id now l r k :
  HabitItem.id l = k -> HabitItem.id r = k -> HabitItem.id (mergeHabitItems now l r) = k.
Proof. intros Hl Hr. unfold mergeHabitItems. simpl. by destruct (_ <=? _). Qed.

(** Every entry of the map being resolved is keyed by its record's id, and
    that id comes from the local snapshot or from a conflict. *)
Lemma resolveStep_ids now (known : string -> Prop) m c res :
  wfConflict c -> known (ConflictInfo.id c) ->
  (forall k v, (k, v) ∈ m -> HabitItem.id v = k /\ known k) ->
  forall k v, (k, v) ∈ resolveStep now m (c, res) -> HabitItem.id v = k /\ known k.
Proof.
  intros [Hwl Hwr] Hk Hm k v. unfold resolveStep. simpl.
  destruct res; try apply Hm.
  - destruct (ConflictInfo.remote c) as [r|] eqn:Er.
    + intros Hin. apply elem_of_set in Hin as [[= -> ->]|Hin]; [|by apply Hm].
      split; [by apply Hwr | done].
    + intros Hin. apply elem_of_delete in Hin. by apply Hm.
  - destruct (ConflictInfo.local c) as [l|] eqn:El; [|apply Hm].
    destruct (ConflictInfo.remote c) as [r|] eqn:Er; [|apply Hm].
    intros Hin. apply elem_of_set in Hin as [[= -> ->]|Hin]; [|by apply Hm].
    split; [apply mergeHabitItems_id; auto | done].
Qed.

Lemma resolve_foldl_ids now (known : string -> Prop) crs m :
  Forall (fun cr => wfConflict cr.1 /\ known (ConflictInfo.id cr.1)) crs ->
  (forall k v, (k, v) ∈ m -> HabitItem.id v = k /\ known k) ->
  forall k v, (k, v) ∈ foldl (resolveStep now) m crs -> HabitItem.id v = k /\ known k.
Proof.
  intros Hall. revert m. induction Hall as [|[c res] crs [Hwf Hk] _ IH]; intros m Hm; simpl.
  - exact Hm.
  - apply IH. by apply resolveStep_ids.
Qed.

(** ** The sync cycle *)

(** C6. When conflict detection on the two fetched snapshots finds a
    conflict, the cycle returns the conflicts with [success = false] and
    status [conflict]; it has written nothing: [localStorage] and the
    remote file are what they were and no remote write was attempted. *)
Theorem conflict_cycle_writes_nothing (env : Env.t) (w : World.t) :
  World.authenticated w = true ->
  World.isOnline w = true ->
  World.hasUserAndRepo w = true ->
  detectConflicts (getLocalData env w) (readRemote env w) <> [] ->
  (sync env w).1
    = Returned (SyncResult.mk false
                  (detectConflicts (getLocalData env w) (readRemote env w))
                  (Env.now env) 0 true)
  /\ World.storage (sync env w).2 = World.storage w
  /\ World.remote (sync env w).2 = World.remote w
  /\ putAttempts (newCalls w (sync env w).2) = 0%nat
  /\ SyncState.status (World.syncState (sync env w).2) = StatusConflict.
Proof.
  intros Ha Ho Hu Hc. unfold sync, getRemoteData. rewrite Ha, Ho. simpl. rewrite Hu. simpl.
  change (getLocalData env (updateStatus Syncing None w)) with (getLocalData env w).
  change (readRemote env (updateStatus Syncing None w)) with (readRemote env w).
  destruct (detectConflicts (getLocalData env w) (readRemote env w)) as [|c cs] eqn:Ed;
    [done|].
  simpl. repeat split.
  unfold newCalls. simpl. by rewrite drop_app_length.
Qed.

Lemma conflict_cycle_writes_nothing_witness :
  World.storage (sync quietEnv conflictWorld).2 = World.storage conflictWorld
  /\ World.remote (sync quietEnv conflictWorld).2 = World.remote conflictWorld
  /\ SyncState.status (World.syncState (sync quietEnv conflictWorld).2) = StatusConflict.
Proof.
  destruct (conflict_cycle_writes_nothing quietEnv conflictWorld) as (_ & Hs & Hr & _ & Hst).
  - reflexivity.
  - reflexivity.
  - reflexivity.
  - vm_compute. discriminate.
  - auto.
Defined.

Lemma newCalls_eq w w' cs :
  World.calls w' = World.calls w ++ cs -> newCalls w w' = cs.
Proof. intros H. unfold newCalls. rewrite H. apply drop_app_length. Qed.

(** The outcomes of the remote half of a save: what is logged and thrown
    depends on the one write only. *)
Lemma saveRemoteData_calls env data w :
  World.hasUserAndRepo w = true ->
  exists res,
    World.calls (saveRemoteData env data w).2 = World.calls w ++ [CallGet; CallPut res]
    /\ World.storage (saveRemoteData env data w).2 = World.storage w
    /\ World.syncState (saveRemoteData env data w).2 = World.syncState w
    /\ (saveRemoteData env data w).1
       = match res with
         | PutOk => Returned tt
         | _ => Thrown ErrNetwork "Failed to save remote data"
         end.
Proof.
  intros Hu. unfold saveRemoteData. rewrite Hu. simpl.
  destruct (if Env.putFails env then _ else _) as [res r3].
  exists res. destruct res; simpl; auto.
Qed.

Lemma saveLocalData_facts env data w :
  World.hasUserAndRepo (saveLocalData env data w).2 = World.hasUserAndRepo w
  /\ World.calls (saveLocalData env data w).2 = World.calls w
  /\ World.syncState (saveLocalData env data w).2 = World.syncState w
  /\ (Env.secureFails env = false -> (saveLocalData env data w).1 = Returned tt).
Proof.
  unfold saveLocalData. destruct (Env.secureFails env); simpl; repeat split; auto.
  discriminate.
Qed.

Lemma saveBoth_facts env data w :
  World.hasUserAndRepo w = true ->
  exists res,
    World.calls (saveBoth env data w).2 = World.calls w ++ [CallGet; CallPut res]
    /\ World.syncState (saveBoth env data w).2 = World.syncState w
    /\ (res <> PutOk -> Env.secureFails env = false ->
        (saveBoth env data w).1 = Thrown ErrNetwork "Failed to save remote data").
Proof.
  intros Hu. unfold saveBoth.
  destruct (saveLocalData_facts env data w) as (Hu1 & Hc1 & Hs1 & Hol).
  destruct (saveLocalData env data w) as [ol w1]. simpl in Hu1, Hc1, Hs1, Hol.
  rewrite Hu in Hu1.
  destruct (saveRemoteData_calls env data w1 Hu1) as (res & Hcalls & _ & Hst & Hout).
  destruct (saveRemoteData env data w1) as [or w2]. simpl in Hcalls, Hst, Hout.
  exists res. rewrite Hc1 in Hcalls. rewrite Hs1 in Hst.
  split; [|split].
  - by destruct ol.
  - by destruct ol.
  - intros Hres Hsec. rewrite (Hol Hsec). simpl. rewrite Hout. by destruct res.
Qed.

(** What a cycle logs and reports. *)
Lemma sync_calls env w :
  newCalls w (sync env w).2 = []
  \/ (newCalls w (sync env w).2 = [CallGet]
      /\ exists r, (sync env w).1 = Returned r)
  \/ exists res,
       newCalls w (sync env w).2 = [CallGet; CallGet; CallPut res]
       /\ (res <> PutOk -> Env.secureFails env = false ->
           (sync env w).1 = Thrown ErrNetwork "Failed to save remote data"
           /\ SyncState.status (World.syncState (sync env w).2) = StatusError).
Proof.
  unfold sync.
  destruct (World.authenticated w) eqn:Ha; cbn [negb];
    [|left; apply newCalls_eq; by rewrite app_nil_r].
  destruct (World.isOnline w) eqn:Ho; cbn [negb];
    [|left; apply newCalls_eq; by rewrite app_nil_r].
  unfold getRemoteData.
  change (World.hasUserAndRepo (updateStatus Syncing None w)) with (World.hasUserAndRepo w).
  destruct (World.hasUserAndRepo w) eqn:Hu; cbn [negb];
    [|left; apply newCalls_eq; simpl; by rewrite app_nil_r].
  cbv zeta. destruct (0 <? length _)%nat.
  { right. left. split; [by apply newCalls_eq | eauto]. }
  right. right.
  destruct (mergeData _ _ _ _) as [mergedData store'].
  match goal with |- context [saveBoth env mergedData ?w0] => set (w2 := w0) end.
  destruct (saveBoth_facts env mergedData w2 Hu) as (res & Hcalls & _ & Hthrow).
  exists res.
  destruct (saveBoth env mergedData w2) as [o w3]. simpl in Hcalls, Hthrow.
  assert (Hc3 : World.calls w3 = World.calls w ++ [CallGet; CallGet; CallPut res]).
  { rewrite Hcalls. subst w2. simpl. by rewrite <- app_assoc. }
  split.
  - apply newCalls_eq. by destruct o.
  - intros Hres Hsec. by rewrite (Hthrow Hres Hsec).
Qed.

Lemma saveBoth_retryAttempts env d w n :
  saveBoth env d (withRetryAttempts n w)
  = ((saveBoth env d w).1, withRetryAttempts n (saveBoth env d w).2).
Proof.
  unfold saveBoth, saveLocalData, saveRemoteData. simpl.
  destruct (Env.secureFails env), (World.hasUserAndRepo w) eqn:Hu;
    simpl; rewrite ?Hu; simpl; try reflexivity;
    destruct (if Env.putFails env then _ else _) as [res r3]; destruct res; reflexivity.
Qed.

Lemma sync_ignores_retryAttempts env w n :
  (sync env (withRetryAttempts n w)).1 = (sync env w).1.
Proof.
  unfold sync.
  change (World.authenticated (withRetryAttempts n w)) with (World.authenticated w).
  change (World.isOnline (withRetryAttempts n w)) with (World.isOnline w).
  destruct (World.authenticated w); [|done]. destruct (World.isOnline w); [|done].
  cbn [negb]. cbv zeta.
  change (updateStatus Syncing None (withRetryAttempts n w))
    with (withRetryAttempts n (updateStatus Syncing None w)).
  generalize (updateStatus Syncing None w). intros w0.
  change (getLocalData env (withRetryAttempts n w0)) with (getLocalData env w0).
  unfold getRemoteData.
  change (World.hasUserAndRepo (withRetryAttempts n w0)) with (World.hasUserAndRepo w0).
  destruct (World.hasUserAndRepo w0); [|done]. cbn [negb].
  change (readRemote env (withRetryAttempts n w0)) with (readRemote env w0).
  destruct (0 <? length _)%nat; [done|].
  change (World.storage (withRemote (World.remote (withRetryAttempts n w0)) [CallGet]
                           (withRetryAttempts n w0)))
    with (World.storage (withRemote (World.remote w0) [CallGet] w0)).
  destruct (mergeData _ _ _ _) as [mergedData store'].
  match goal with |- context [saveBoth env mergedData (withStorage ?ls _)] =>
    change (withStorage ls (withRemote (World.remote (withRetryAttempts n w0)) [CallGet]
                              (withRetryAttempts n w0)))
      with (withRetryAttempts n (withStorage ls (withRemote (World.remote w0) [CallGet] w0)))
  end.
  rewrite saveBoth_retryAttempts.
  destruct (saveBoth env mergedData _) as [o w3]. by destruct o.
Qed.

(** One cycle attempts at most one remote write. *)
Lemma sync_single_write env w : (putAttempts (newCalls w (sync env w).2) <= 1)%nat.
Proof.
  destruct (sync_calls env w) as [->|[[-> _]|(res & -> & _)]];
    unfold putAttempts; simpl; lia.
Qed.

(** C1 (as amended). A cycle whose remote write is rejected for a stale
    token is not retried: that write is the only one the cycle attempts,
    the status becomes [error] and (the local write having succeeded) a
    [SyncError] of type [network] is thrown.  The configured
    [retryAttempts] has no influence on the outcome. *)
Theorem stale_write_fails_without_retry (env : Env.t) (w : World.t) (n : nat) :
  (0 < staleRejections (newCalls w (sync env w).2))%nat ->
  Env.secureFails env = false ->
  putAttempts (newCalls w (sync env w).2) = 1%nat
  /\ (sync env w).1 = Thrown ErrNetwork "Failed to save remote data"
  /\ SyncState.status (World.syncState (sync env w).2) = StatusError
  /\ (sync env (withRetryAttempts n w)).1 = (sync env w).1.
Proof.
  intros Hstale Hsec.
  destruct (sync_calls env w) as [Hc|[[Hc _]|(res & Hc & Hres)]];
    rewrite Hc in Hstale |- *; unfold staleRejections in Hstale; simpl in Hstale; try lia.
  destruct res; simpl in Hstale; try lia.
  destruct (Hres ltac:(discriminate) Hsec) as [Hout Hst].
  repeat split; auto using sync_ignores_retryAttempts.
Qed.

Lemma stale_write_fails_without_retry_witness :
  newCalls sampleWorld (sync racingEnv sampleWorld).2
    = [CallGet; CallGet; CallPut PutVersionConflict]
  /\ (sync racingEnv sampleWorld).1 = Thrown ErrNetwork "Failed to save remote data"
  /\ (sync racingEnv (withRetryAttempts 7 sampleWorld)).1
     = (sync racingEnv sampleWorld).1.
Proof.
  split; [vm_compute; reflexivity|].
  destruct (stale_write_fails_without_retry racingEnv sampleWorld 7) as (_ & Ho & _ & Hn).
  - vm_compute. lia.
  - reflexivity.
  - auto.
Defined.

(** C1 does not hold as the design document states it: a write rejected for
    a stale token ends the cycle at once, after one attempt out of the
    configured three, with a network error. *)
Lemma stale_write_is_not_retried :
  ~ staleWriteRetriedSpec racingEnv sampleWorld.
Proof.
  intros H.
  destruct (H ErrNetwork "Failed to save remote data") as [Hn _].
  - vm_compute. reflexivity.
  - vm_compute. lia.
  - vm_compute in Hn. discriminate.
Qed.

(** ** Text codecs *)

Section BitArithmetic.

Lemma land_shiftl_small x y n :
  0 <= n -> 0 <= y < 2 ^ n -> Z.land (Z.shiftl x n) y = 0.
Proof.
  intros Hn Hy. apply Z.bits_inj'. intros m Hm.
  rewrite Z.land_spec, Z.bits_0.
  destruct (Z.lt_ge_cases m n) as [Hlt|Hge].
  - by rewrite Z.shiftl_spec_low.
  - rewrite <- (Z.mod_small y (2 ^ n)) by lia.
    rewrite Z.mod_pow2_bits_high by lia. apply andb_false_r.
Qed.

Lemma lor_shiftl_small x y n :
  0 <= n -> 0 <= y < 2 ^ n -> Z.lor (Z.shiftl x n) y = x * 2 ^ n + y.
Proof.
  intros Hn Hy. pose proof (land_shiftl_small x y n Hn Hy) as H0.
  rewrite <- Z.lxor_lor, <- Z.add_nocarry_lxor by exact H0.
  by rewrite Z.shiftl_mul_pow2.
Qed.

Lemma land_mask x n : 0 <= n -> Z.land x (2 ^ n - 1) = x mod 2 ^ n.
Proof.
  intros Hn. rewrite <- Z.land_ones by exact Hn. f_equal.
  rewrite Z.ones_equiv. lia.
Qed.

Lemma land_3 x : Z.land x 3 = x mod 4.
Proof. exact (land_mask x 2 ltac:(lia)). Qed.
Lemma land_7 x : Z.land x 7 = x mod 8.
Proof. exact (land_mask x 3 ltac:(lia)). Qed.
Lemma land_15 x : Z.land x 15 = x mod 16.
Proof. exact (land_mask x 4 ltac:(lia)). Qed.
Lemma land_31 x : Z.land x 31 = x mod 32.
Proof. exact (land_mask x 5 ltac:(lia)). Qed.
Lemma land_63 x : Z.land x 63 = x mod 64.
Proof. exact (land_mask x 6 ltac:(lia)). Qed.
Lemma land_1023 x : Z.land x 1023 = x mod 1024.
Proof. exact (land_mask x 10 ltac:(lia)). Qed.

Lemma shiftr_2 x : Z.shiftr x 2 = x / 4.
Proof. exact (Z.shiftr_div_pow2 x 2 ltac:(lia)). Qed.
Lemma shiftr_4 x : Z.shiftr x 4 = x / 16.
Proof. exact (Z.shiftr_div_pow2 x 4 ltac:(lia)). Qed.
Lemma shiftr_6 x : Z.shiftr x 6 = x / 64.
Proof. exact (Z.shiftr_div_pow2 x 6 ltac:(lia)). Qed.
Lemma shiftr_10 x : Z.shiftr x 10 = x / 1024.
Proof. exact (Z.shiftr_div_pow2 x 10 ltac:(lia)). Qed.
Lemma shiftr_12 x : Z.shiftr x 12 = x / 4096.
Proof. exact (Z.shiftr_div_pow2 x 12 ltac:(lia)). Qed.
Lemma shiftr_18 x : Z.shiftr x 18 = x / 262144.
Proof. exact (Z.shiftr_div_pow2 x 18 ltac:(lia)). Qed.

Lemma shiftl_2 x : Z.shiftl x 2 = x * 4.
Proof. exact (Z.shiftl_mul_pow2 x 2 ltac:(lia)). Qed.
Lemma shiftl_4 x : Z.shiftl x 4 = x * 16.
Proof. exact (Z.shiftl_mul_pow2 x 4 ltac:(lia)). Qed.
Lemma lor_shiftl_2 x y : 0 <= y < 4 -> Z.lor (Z.shiftl x 2) y = x * 4 + y.
Proof. intros H. exact (lor_shiftl_small x y 2 ltac:(lia) H). Qed.
Lemma lor_shiftl_4 x y : 0 <= y < 16 -> Z.lor (Z.shiftl x 4) y = x * 16 + y.
Proof. intros H. exact (lor_shiftl_small x y 4 ltac:(lia) H). Qed.
Lemma lor_shiftl_6 x y : 0 <= y < 64 -> Z.lor (Z.shiftl x 6) y = x * 64 + y.
Proof. intros H. exact (lor_shiftl_small x y 6 ltac:(lia) H). Qed.

(** The marker bits of a continuation byte. *)
Lemma lor_128 y : 0 <= y < 64 -> Z.lor 128 y = 128 + y.
Proof.
  intros H. change 128 with (Z.shiftl 1 7) at 1.
  rewrite (lor_shiftl_small 1 y 7) by lia. lia.
Qed.

End BitArithmetic.

(** Turn the shifts and masks of a goal into divisions and remainders. *)
Ltac bits_to_arith :=
  rewrite ?land_3, ?land_7, ?land_15, ?land_31, ?land_63, ?land_1023,
    ?shiftr_2, ?shiftr_4, ?shiftr_6, ?shiftr_10, ?shiftr_12, ?shiftr_18.

Ltac divmod_lia := Z.div_mod_to_equations; lia.

(** Decide the comparisons of a goal by arithmetic. *)
Ltac zcmp :=
  repeat match goal with
    | |- context [?a <=? ?b] =>
        first [ rewrite (proj2 (Z.leb_le a b)) by divmod_lia
              | rewrite (proj2 (Z.leb_gt a b)) by divmod_lia ]
    | |- context [?a <? ?b] =>
        first [ rewrite (proj2 (Z.ltb_lt a b)) by divmod_lia
              | rewrite (proj2 (Z.ltb_ge a b)) by divmod_lia ]
    | |- context [?a =? ?b] =>
        first [ rewrite (proj2 (Z.eqb_eq a b)) by divmod_lia
              | rewrite (proj2 (Z.eqb_neq a b)) by divmod_lia ]
    end; cbn [andb orb negb].

Section Base64.
Import Codec.

Lemma isByte_range b : isByte b = true <-> 0 <= b <= 255.
Proof. unfold isByte. rewrite andb_true_iff, Z.leb_le, Z.leb_le. reflexivity. Qed.

Lemma b64index_b64char i : 0 <= i < 64 -> b64index (b64char i) = Some i.
Proof.
  intros Hi. unfold b64char.
  destruct (Z.ltb_spec i 26); [unfold b64index; zcmp; f_equal; lia|].
  destruct (Z.ltb_spec i 52); [unfold b64index; zcmp; f_equal; lia|].
  destruct (Z.ltb_spec i 62); [unfold b64index; zcmp; f_equal; lia|].
  destruct (Z.eqb_spec i 62); [subst; reflexivity|].
  assert (i = 63) as -> by lia. reflexivity.
Qed.

(** A character of the alphabet is neither white space nor the padding
    sign. *)
Lemma b64char_plain i :
  0 <= i < 64 ->
  isAsciiWhitespace (b64char i) = false
  /\ (b64char i =? 10) = false
  /\ (b64char i =? padChar) = false.
Proof.
  intros Hi. unfold b64char, isAsciiWhitespace, padChar.
  destruct (Z.ltb_spec i 26); [zcmp; auto|].
  destruct (Z.ltb_spec i 52); [zcmp; auto|].
  destruct (Z.ltb_spec i 62); [zcmp; auto|].
  destruct (Z.eqb_spec i 62); auto.
Qed.

End Base64.

Lemma list_ind_by3 {A} (P : list A -> Prop) :
  P [] -> (forall a, P [a]) -> (forall a b, P [a; b]) ->
  (forall a b c l, P l -> P (a :: b :: c :: l)) ->
  forall l, P l.
Proof.
  intros H0 H1 H2 H3.
  enough (H : forall l, P l /\ (forall a, P (a :: l)) /\ (forall a b, P (a :: b :: l)))
    by (intros l; apply H).
  induction l as [|c l (IH0 & IH1 & IH2)]; [auto|].
  split; [apply IH1|]. split; [intros a; apply IH2|]. intros a b. apply H3, IH0.
Qed.

Lemma filter_all {A} (f : A -> bool) (l : list A) :
  Forall (fun x => f x = true) l -> List.filter f l = l.
Proof.
  induction 1 as [|x l Hx _ IH]; simpl; [done|]. by rewrite Hx, IH.
Qed.

Section Base64RoundTrip.
Import Codec.

Lemma enc_sextet2 a b :
  0 <= a <= 255 -> 0 <= b <= 255 ->
  Z.lor (Z.shiftl (Z.land a 3) 4) (Z.shiftr b 4) = (a mod 4) * 16 + b / 16.
Proof. intros Ha Hb. bits_to_arith. apply lor_shiftl_4. divmod_lia. Qed.

Lemma enc_sextet3 b c :
  0 <= b <= 255 -> 0 <= c <= 255 ->
  Z.lor (Z.shiftl (Z.land b 15) 2) (Z.shiftr c 6) = (b mod 16) * 4 + c / 64.
Proof. intros Hb Hc. bits_to_arith. apply lor_shiftl_2. divmod_lia. Qed.

Lemma dec_byte1 s1 s2 :
  0 <= s2 < 64 -> Z.lor (Z.shiftl s1 2) (Z.shiftr s2 4) = s1 * 4 + s2 / 16.
Proof. intros H. bits_to_arith. apply lor_shiftl_2. divmod_lia. Qed.

Lemma dec_byte2 s2 s3 :
  0 <= s3 < 64 ->
  Z.lor (Z.shiftl (Z.land s2 15) 4) (Z.shiftr s3 2) = (s2 mod 16) * 16 + s3 / 4.
Proof. intros H. bits_to_arith. apply lor_shiftl_4. divmod_lia. Qed.

Lemma dec_byte3 s3 s4 :
  0 <= s4 < 64 -> Z.lor (Z.shiftl (Z.land s3 3) 6) s4 = (s3 mod 4) * 64 + s4.
Proof. intros H. bits_to_arith. by apply lor_shiftl_6. Qed.

Lemma base64Encode_shape bs :
  Forall (fun b => 0 <= b <= 255) bs ->
  exists sx p,
    base64Encode bs = map b64char sx ++ replicate p padChar
    /\ Forall (fun x => 0 <= x < 64) sx
    /\ decodeSextets sx = bs
    /\ padShape (length sx) p.
Proof.
  induction bs as [|a|a b|a b c bs IH] using list_ind_by3; intros Hb.
  - exists [], 0%nat. repeat split; [constructor|]. exists 0%nat. auto.
  - apply Forall_cons in Hb as [Ha _].
    exists [Z.shiftr a 2; Z.shiftl (Z.land a 3) 4], 2%nat.
    split; [reflexivity|]. split; [|split].
    + repeat constructor; rewrite ?shiftl_4; bits_to_arith; divmod_lia.
    + simpl. f_equal. rewrite dec_byte1 by (rewrite shiftl_4; bits_to_arith; divmod_lia).
      rewrite shiftl_4. bits_to_arith. divmod_lia.
    + exists 0%nat. auto.
  - apply Forall_cons in Hb as [Ha Hb]. apply Forall_cons in Hb as [Hb _].
    exists [Z.shiftr a 2; Z.lor (Z.shiftl (Z.land a 3) 4) (Z.shiftr b 4);
            Z.shiftl (Z.land b 15) 2], 1%nat.
    split; [reflexivity|]. split; [|split].
    + rewrite enc_sextet2 by done.
      repeat constructor; rewrite ?shiftl_2; bits_to_arith; divmod_lia.
    + simpl. rewrite enc_sextet2 by done.
      rewrite dec_byte1 by divmod_lia.
      rewrite dec_byte2 by (rewrite shiftl_2; bits_to_arith; divmod_lia).
      rewrite shiftl_2. bits_to_arith.
      f_equal; [divmod_lia|]. f_equal. divmod_lia.
    + exists 0%nat. auto.
  - apply Forall_cons in Hb as [Ha Hb]. apply Forall_cons in Hb as [Hb Hc].
    apply Forall_cons in Hc as [Hc Hbs].
    destruct (IH Hbs) as (sx & p & Henc & Hsx & Hdec & k & Hshape).
    exists (Z.shiftr a 2 :: Z.lor (Z.shiftl (Z.land a 3) 4) (Z.shiftr b 4)
            :: Z.lor (Z.shiftl (Z.land b 15) 2) (Z.shiftr c 6) :: Z.land c 63 :: sx), p.
    split; [|split; [|split]].
    + simpl. by rewrite Henc.
    + rewrite enc_sextet2, enc_sextet3 by done.
      repeat (apply Forall_cons; split); try exact Hsx; bits_to_arith; divmod_lia.
    + change (decodeSextets (?s1 :: ?s2 :: ?s3 :: ?s4 :: sx))
        with (Z.lor (Z.shiftl s1 2) (Z.shiftr s2 4)
              :: Z.lor (Z.shiftl (Z.land s2 15) 4) (Z.shiftr s3 2)
              :: Z.lor (Z.shiftl (Z.land s3 3) 6) s4 :: decodeSextets sx).
      rewrite Hdec, enc_sextet2, enc_sextet3 by done.
      rewrite dec_byte1, dec_byte2, dec_byte3 by (bits_to_arith; divmod_lia).
      bits_to_arith. f_equal; [divmod_lia|]. f_equal; [divmod_lia|]. f_equal. divmod_lia.
    + exists (S k). simpl. lia.
Qed.

Lemma mapM_b64index sx :
  Forall (fun x => 0 <= x < 64) sx -> mapM b64index (map b64char sx) = Some sx.
Proof.
  induction 1 as [|x sx Hx _ IH]; [done|].
  simpl. rewrite (b64index_b64char x Hx). simpl. by rewrite IH.
Qed.

Lemma stripPadding_plain l x :
  (x =? padChar) = false -> stripPadding (l ++ [x]) = l ++ [x].
Proof.
  intros Hx. unfold stripPadding. rewrite rev_app_distr. simpl.
  rewrite Hx. by destruct (rev l).
Qed.

Lemma stripPadding_one l x :
  (x =? padChar) = false -> stripPadding ((l ++ [x]) ++ [padChar]) = l ++ [x].
Proof.
  intros Hx. unfold stripPadding. rewrite !rev_app_distr. simpl.
  rewrite Hx. by rewrite rev_involutive.
Qed.

Lemma stripPadding_two l : stripPadding (l ++ [padChar; padChar]) = l.
Proof.
  unfold stripPadding. rewrite rev_app_distr. simpl. by rewrite rev_involutive.
Qed.

End Base64RoundTrip.

Lemma mod4_add (k r : nat) : (r < 4)%nat -> ((4 * k + r) mod 4 = r)%nat.
Proof.
  intros H. rewrite Nat.add_comm, (Nat.mul_comm 4 k), Nat.Div0.mod_add.
  by apply Nat.mod_small.
Qed.

Lemma mod4_mul (k : nat) : ((4 * k) mod 4 = 0)%nat.
Proof. rewrite <- (Nat.add_0_r (4 * k)). apply mod4_add. lia. Qed.

Section AtobBtoa.
Import Codec.

Lemma base64_chars_plain sx p :
  Forall (fun x => 0 <= x < 64) sx ->
  Forall (fun c => negb (isAsciiWhitespace c) = true /\ negb (c =? 10) = true)
         (map b64char sx ++ replicate p padChar).
Proof.
  intros Hsx. apply Forall_app. split.
  - apply Forall_map. eapply Forall_impl; [exact Hsx|]. intros x Hx. simpl.
    destruct (b64char_plain x Hx) as (-> & -> & _). done.
  - apply Forall_replicate. done.
Qed.

(** [atob] undoes the Base64 text of a sextet sequence with its padding. *)
Lemma atob_shape sx p :
  Forall (fun x => 0 <= x < 64) sx -> padShape (length sx) p ->
  atob (map b64char sx ++ replicate p padChar) = Some (decodeSextets sx).
Proof.
  intros Hsx (k & Hshape). unfold atob.
  rewrite filter_all
    by (eapply Forall_impl; [by apply base64_chars_plain|]; by intros c [? _]).
  cbv zeta.
  assert (Hstrip :
    (if (length (map b64char sx ++ replicate p padChar) mod 4 =? 0)%nat
     then stripPadding (map b64char sx ++ replicate p padChar)
     else map b64char sx ++ replicate p padChar) = map b64char sx).
  { rewrite length_app, length_map, length_replicate.
    destruct Hshape as [[-> Hn]|[[-> Hn]|[-> Hn]]]; rewrite Hn.
    - rewrite Nat.add_0_r, mod4_mul. simpl. rewrite app_nil_r.
      destruct sx as [|x sx _] using rev_ind; [done|].
      rewrite map_app. simpl. apply stripPadding_plain.
      apply Forall_app in Hsx as [_ Hx]. apply Forall_cons in Hx as [Hx _].
      by destruct (b64char_plain x Hx) as (_ & _ & ->).
    - replace (4 * k + 3 + 1)%nat with (4 * S k)%nat by lia. rewrite mod4_mul. simpl.
      destruct sx as [|x sx _] using rev_ind; [simpl in Hn; lia|].
      rewrite map_app. simpl. apply stripPadding_one.
      apply Forall_app in Hsx as [_ Hx]. apply Forall_cons in Hx as [Hx _].
      by destruct (b64char_plain x Hx) as (_ & _ & ->).
    - replace (4 * k + 2 + 2)%nat with (4 * S k)%nat by lia. rewrite mod4_mul. simpl.
      apply stripPadding_two. }
  rewrite Hstrip, length_map.
  assert (Hlen : (length sx mod 4 =? 1)%nat = false).
  { apply Nat.eqb_neq.
    destruct Hshape as [[_ ->]|[[_ ->]|[_ ->]]];
      [rewrite mod4_mul | rewrite mod4_add by lia | rewrite mod4_add by lia]; lia. }
  rewrite Hlen. by rewrite mapM_b64index.
Qed.

Lemma removeNewlines_shape sx p :
  Forall (fun x => 0 <= x < 64) sx ->
  removeNewlines (map b64char sx ++ replicate p padChar)
  = map b64char sx ++ replicate p padChar.
Proof.
  intros Hsx. unfold removeNewlines. apply filter_all.
  eapply Forall_impl; [by apply base64_chars_plain|]. by intros c [_ ?].
Qed.

Lemma forallb_isByte bs :
  forallb isByte bs = true <-> Forall (fun b => 0 <= b <= 255) bs.
Proof.
  rewrite forallb_forall, Forall_forall. setoid_rewrite <- list_elem_of_In.
  split; intros H b Hb; apply isByte_range, H, Hb.
Qed.

(** [atob] after [btoa] is the identity on binary strings, also through
    the removal of line feeds. *)
Lemma atob_btoa bs e :
  btoa bs = Some e -> atob (removeNewlines e) = Some bs /\ toUint8Array bs = bs.
Proof.
  unfold btoa. destruct (forallb isByte bs) eqn:Hb; [|done]. intros [= <-].
  apply forallb_isByte in Hb.
  destruct (base64Encode_shape bs Hb) as (sx & p & -> & Hsx & <- & Hshape).
  rewrite removeNewlines_shape by done. split; [by apply atob_shape|].
  unfold toUint8Array. clear -Hb. induction Hb as [|b bs Hb' _ IH]; [done|].
  simpl. rewrite IH. f_equal. apply Z.mod_small. lia.
Qed.

End AtobBtoa.

Section Utf8RoundTrip.
Import Codec.

Lemma isScalar_range cp :
  isScalar cp = true <-> 0 <= cp <= 0x10FFFF /\ ~ (0xD800 <= cp <= 0xDFFF).
Proof.
  unfold isScalar.
  rewrite !andb_true_iff, negb_true_iff, andb_false_iff, !Z.leb_le, !Z.leb_gt. lia.
Qed.

Lemma decode_step st b bs :
  utf8DecodeFrom st (b :: bs)
  = (decHandler st b).1 ++ utf8DecodeFrom (decHandler st b).2 bs.
Proof. simpl. by destruct (decHandler st b). Qed.

Lemma lead_ascii b : 0 <= b <= 0x7F -> decHandler decInit b = ([b], decInit).
Proof. intros H. unfold decHandler, leadByte. simpl. by zcmp. Qed.

Lemma lead_two b :
  0xC2 <= b <= 0xDF -> decHandler decInit b = ([], mkDec (b mod 32) 0 1 0x80 0xBF).
Proof. intros H. unfold decHandler, leadByte. simpl. zcmp. by bits_to_arith. Qed.

Lemma lead_three b :
  0xE0 <= b <= 0xEF ->
  decHandler decInit b
  = ([], mkDec (b mod 16) 0 2 (if b =? 0xE0 then 0xA0 else 0x80)
           (if b =? 0xED then 0x9F else 0xBF)).
Proof.
  intros H. unfold decHandler, leadByte. simpl.
  rewrite (proj2 (Z.leb_le 0 b)) by lia. rewrite (proj2 (Z.leb_gt b 127)) by lia.
  rewrite (proj2 (Z.leb_le 194 b)) by lia. rewrite (proj2 (Z.leb_gt b 223)) by lia.
  rewrite (proj2 (Z.leb_le 224 b)) by lia. rewrite (proj2 (Z.leb_le b 239)) by lia.
  simpl. by bits_to_arith.
Qed.

Lemma lead_four b :
  0xF0 <= b <= 0xF4 ->
  decHandler decInit b
  = ([], mkDec (b mod 8) 0 3 (if b =? 0xF0 then 0x90 else 0x80)
           (if b =? 0xF4 then 0x8F else 0xBF)).
Proof.
  intros H. unfold decHandler, leadByte. simpl.
  rewrite (proj2 (Z.leb_le 0 b)) by lia. rewrite (proj2 (Z.leb_gt b 127)) by lia.
  rewrite (proj2 (Z.leb_le 194 b)) by lia. rewrite (proj2 (Z.leb_gt b 223)) by lia.
  rewrite (proj2 (Z.leb_le 224 b)) by lia. rewrite (proj2 (Z.leb_gt b 239)) by lia.
  rewrite (proj2 (Z.leb_le 240 b)) by lia. rewrite (proj2 (Z.leb_le b 244)) by lia.
  simpl. by bits_to_arith.
Qed.

Lemma continuation c seen needed lo hi b :
  needed <> 0 -> lo <= b <= hi ->
  decHandler (mkDec c seen needed lo hi) b
  = if seen + 1 =? needed then ([c * 64 + b mod 64], decInit)
    else ([], mkDec (c * 64 + b mod 64) (seen + 1) needed 0x80 0xBF).
Proof.
  intros Hn Hb. unfold decHandler. simpl.
  rewrite (proj2 (Z.eqb_neq needed 0)) by done.
  rewrite (proj2 (Z.leb_le lo b)) by lia. rewrite (proj2 (Z.leb_le b hi)) by lia. simpl.
  rewrite land_63, lor_shiftl_6 by divmod_lia. reflexivity.
Qed.

Lemma continuation_more c seen needed lo hi b :
  needed <> 0 -> lo <= b <= hi -> seen + 1 <> needed ->
  decHandler (mkDec c seen needed lo hi) b
  = ([], mkDec (c * 64 + b mod 64) (seen + 1) needed 0x80 0xBF).
Proof.
  intros Hn Hb Hs. rewrite continuation by done.
  by rewrite (proj2 (Z.eqb_neq (seen + 1) needed)).
Qed.

Lemma continuation_last c seen needed lo hi b :
  needed <> 0 -> lo <= b <= hi -> seen + 1 = needed ->
  decHandler (mkDec c seen needed lo hi) b = ([c * 64 + b mod 64], decInit).
Proof.
  intros Hn Hb Hs. rewrite continuation by done.
  by rewrite (proj2 (Z.eqb_eq (seen + 1) needed)).
Qed.

Lemma utf8EncodeCodePoint_arith cp :
  0 <= cp ->
  utf8EncodeCodePoint cp =
    if cp <=? 0x7F then [cp]
    else if cp <=? 0x7FF then [cp / 64 + 192; 128 + cp mod 64]
    else if cp <=? 0xFFFF then
      [cp / 4096 + 224; 128 + (cp / 64) mod 64; 128 + cp mod 64]
    else [cp / 262144 + 240; 128 + (cp / 4096) mod 64;
          128 + (cp / 64) mod 64; 128 + cp mod 64].
Proof.
  intros H. unfold utf8EncodeCodePoint. bits_to_arith.
  rewrite !lor_128 by divmod_lia. reflexivity.
Qed.

Lemma utf8EncodeCodePoint_bytes cp :
  isScalar cp = true -> Forall (fun b => 0 <= b <= 255) (utf8EncodeCodePoint cp).
Proof.
  intros Hs. apply isScalar_range in Hs as [Hr _].
  rewrite utf8EncodeCodePoint_arith by lia.
  destruct (Z.leb_spec cp 0x7F); [repeat constructor; lia|].
  destruct (Z.leb_spec cp 0x7FF); [repeat constructor; divmod_lia|].
  destruct (Z.leb_spec cp 0xFFFF); repeat constructor; divmod_lia.
Qed.

(** The decoder, started afresh on the encoding of a scalar value, yields
    that value and is afresh again. *)
Lemma decode_encoded cp rest :
  isScalar cp = true ->
  utf8DecodeFrom decInit (utf8EncodeCodePoint cp ++ rest)
  = cp :: utf8DecodeFrom decInit rest.
Proof.
  intros Hs. apply isScalar_range in Hs as [Hr Hns].
  rewrite utf8EncodeCodePoint_arith by lia.
  destruct (Z.leb_spec cp 0x7F).
  { simpl app. by rewrite decode_step, lead_ascii by lia. }
  destruct (Z.leb_spec cp 0x7FF).
  { simpl app. rewrite decode_step, lead_two by divmod_lia. simpl fst. simpl snd.
    rewrite decode_step, continuation_last by divmod_lia. simpl.
    f_equal. divmod_lia. }
  destruct (Z.leb_spec cp 0xFFFF).
  { simpl app. rewrite decode_step, lead_three by divmod_lia. simpl fst. simpl snd.
    rewrite decode_step, continuation_more.
    2, 4: lia.
    2: { destruct (Z.eqb_spec (cp / 4096 + 224) 224), (Z.eqb_spec (cp / 4096 + 224) 237);
         divmod_lia. }
    simpl fst. simpl snd. rewrite decode_step, continuation_last by divmod_lia. simpl.
    f_equal. divmod_lia. }
  simpl app. rewrite decode_step, lead_four by divmod_lia. simpl fst. simpl snd.
  rewrite decode_step, continuation_more.
  2, 4: lia.
  2: { destruct (Z.eqb_spec (cp / 262144 + 240) 240), (Z.eqb_spec (cp / 262144 + 240) 244);
       divmod_lia. }
  simpl fst. simpl snd. rewrite decode_step, continuation_more by divmod_lia.
  simpl fst. simpl snd. rewrite decode_step, continuation_last by divmod_lia. simpl.
  f_equal. divmod_lia.
Qed.

Lemma utf8_decode_encode cps :
  Forall (fun cp => isScalar cp = true) cps ->
  utf8DecodeFrom decInit (concat (map utf8EncodeCodePoint cps)) = cps.
Proof.
  induction 1 as [|cp cps Hcp _ IH]; [done|].
  simpl. by rewrite decode_encoded, IH.
Qed.

Lemma utf8_encode_bytes cps :
  Forall (fun cp => isScalar cp = true) cps ->
  Forall (fun b => 0 <= b <= 255) (concat (map utf8EncodeCodePoint cps)).
Proof.
  induction 1 as [|cp cps Hcp _ IH]; [constructor|].
  simpl. apply Forall_app. split; [by apply utf8EncodeCodePoint_bytes | done].
Qed.

End Utf8RoundTrip.

Section Utf16RoundTrip.
Import Codec.

Lemma isHigh_range u : isHigh u = true <-> 0xD800 <= u <= 0xDBFF.
Proof. unfold isHigh. rewrite andb_true_iff, !Z.leb_le. reflexivity. Qed.

Lemma isLow_range u : isLow u = true <-> 0xDC00 <= u <= 0xDFFF.
Proof. unfold isLow. rewrite andb_true_iff, !Z.leb_le. reflexivity. Qed.

Lemma isCodeUnit_range u : isCodeUnit u = true <-> 0 <= u < 0x10000.
Proof. unfold isCodeUnit. rewrite andb_true_iff, Z.leb_le, Z.ltb_lt. reflexivity. Qed.

Lemma utf16_pair u l :
  0xD800 <= u <= 0xDBFF -> 0xDC00 <= l <= 0xDFFF ->
  utf16EncodeCodePoint (0x10000 + (u - 0xD800) * 0x400 + (l - 0xDC00)) = [u; l].
Proof.
  intros Hu Hl. unfold utf16EncodeCodePoint.
  rewrite (proj2 (Z.ltb_ge _ _)) by lia. bits_to_arith.
  f_equal; [divmod_lia|]. f_equal. divmod_lia.
Qed.

Lemma utf16_single u : 0 <= u < 0x10000 -> utf16EncodeCodePoint u = [u].
Proof. intros H. unfold utf16EncodeCodePoint. by rewrite (proj2 (Z.ltb_lt _ _)) by lia. Qed.

(** The scalar values of a well-formed string are scalar values, spell the
    string again in UTF-16, and begin with U+FEFF only if the string does. *)
Lemma toScalars_wellFormed (n : nat) : forall s,
  (length s <= n)%nat ->
  forallb isCodeUnit s = true -> wellFormed s = true ->
  Forall (fun cp => isScalar cp = true) (toScalars s)
  /\ concat (map utf16EncodeCodePoint (toScalars s)) = s
  /\ startsWithBOM (toScalars s) = startsWithBOM s.
Proof.
  induction n as [|n IH]; intros s Hlen Hcu Hwf.
  { destruct s; [simpl; auto | simpl in Hlen; lia]. }
  destruct s as [|u s]; [simpl; auto|].
  simpl in Hcu. apply andb_true_iff in Hcu as [Hu Hcu]. apply isCodeUnit_range in Hu.
  simpl in Hwf |- *. destruct (isHigh u) eqn:Hh.
  - destruct s as [|l s]; [done|].
    apply andb_true_iff in Hwf as [Hl Hwf]. rewrite Hl.
    simpl in Hcu. apply andb_true_iff in Hcu as [_ Hcu].
    apply isHigh_range in Hh. apply isLow_range in Hl.
    destruct (IH s) as (Hsc & Hrt & _); [simpl in Hlen; lia | done | done |].
    split; [|split].
    + constructor; [|done]. apply isScalar_range. lia.
    + simpl. by rewrite utf16_pair, Hrt.
    + simpl. rewrite (proj2 (Z.eqb_neq _ _)) by lia.
      by rewrite (proj2 (Z.eqb_neq u _)) by lia.
  - apply andb_true_iff in Hwf as [Hnl Hwf]. apply negb_true_iff in Hnl. rewrite Hnl.
    destruct (IH s) as (Hsc & Hrt & _); [simpl in Hlen; lia | done | done |].
    split; [|split].
    + constructor; [|done]. apply isScalar_range.
      unfold isHigh in Hh. unfold isLow in Hnl.
      apply andb_false_iff in Hh, Hnl. rewrite !Z.leb_gt in Hh, Hnl. lia.
    + simpl. by rewrite utf16_single, Hrt.
    + reflexivity.
Qed.

Lemma stripBOM_none cps : startsWithBOM cps = false -> stripBOM cps = cps.
Proof. destruct cps as [|cp cps]; [done|]. simpl. by intros ->. Qed.

(** Decoding the UTF-8 bytes of a well-formed string that does not begin
    with U+FEFF gives the string back. *)
Lemma textDecode_textEncode s :
  forallb isCodeUnit s = true -> wellFormed s = true -> startsWithBOM s = false ->
  textDecode (textEncode s) = s
  /\ Forall (fun b => 0 <= b <= 255) (textEncode s).
Proof.
  intros Hcu Hwf Hbom.
  destruct (toScalars_wellFormed (length s) s) as (Hsc & Hrt & Hb); [lia | done | done |].
  unfold textDecode, textEncode. split; [|by apply utf8_encode_bytes].
  rewrite utf8_decode_encode by done.
  rewrite stripBOM_none by congruence. exact Hrt.
Qed.

End Utf16RoundTrip.

Section CodecRoundTrip.
Import Codec.

(** C8 (as amended). For every well-formed string (a sequence of UTF-16
    code units without unpaired surrogate; emoji and combining characters
    included) that does not begin with U+FEFF, decoding its Base64 encoding
    returns the string: for [encodeToBase64] / [decodeFromBase64] and for
    [encodeUTF8ToBase64] / [decodeBase64ToUTF8] alike. *)
Theorem base64_text_round_trip (spreadLimit : nat) (s : list Z) :
  forallb isCodeUnit s = true ->
  wellFormed s = true ->
  startsWithBOM s = false ->
  encodeToBase64 s ≫= decodeFromBase64 = Some s
  /\ encodeUTF8ToBase64 spreadLimit s ≫= decodeBase64ToUTF8 = Some s.
Proof.
  intros Hcu Hwf Hbom.
  destruct (textDecode_textEncode s Hcu Hwf Hbom) as [Hrt Hbytes].
  assert (Hbtoa : btoa (textEncode s) = Some (base64Encode (textEncode s))).
  { unfold btoa. by rewrite (proj2 (forallb_isByte _) Hbytes). }
  destruct (atob_btoa _ _ Hbtoa) as [Hatob Hu8].
  split.
  - unfold encodeToBase64. rewrite Hbtoa. simpl.
    unfold decodeFromBase64. by rewrite Hatob, Hu8, Hrt.
  - unfold encodeUTF8ToBase64. rewrite Hwf.
    destruct (_ <=? _)%nat; rewrite Hbtoa; simpl;
      unfold decodeBase64ToUTF8; by rewrite Hatob, Hu8, Hrt.
Qed.

Lemma base64_text_round_trip_witness :
  let s := [0xD83C; 0xDFAF; 0x20; 0x65E5; 0x62F1; 0x4E00; 0x8DB3; 0x20; 0x65; 0x301;
            0xD83D; 0xDC68; 0x200D; 0xD83D; 0xDCBB] in
  encodeToBase64 s ≫= decodeFromBase64 = Some s
  /\ encodeUTF8ToBase64 4 s ≫= decodeBase64ToUTF8 = Some s.
Proof.
  apply (base64_text_round_trip 4
           [0xD83C; 0xDFAF; 0x20; 0x65E5; 0x62F1; 0x4E00; 0x8DB3; 0x20; 0x65; 0x301;
            0xD83D; 0xDC68; 0x200D; 0xD83D; 0xDCBB]).
  - reflexivity.
  - reflexivity.
  - reflexivity.
Defined.

(** C8 does not hold as the design document states it: a string that begins
    with U+FEFF comes back without it, and an unpaired surrogate comes back
    as U+FFFD. *)
Lemma leading_bom_is_lost :
  let s := [0xFEFF; 0x61] in
  forallb isCodeUnit s = true
  /\ wellFormed s = true
  /\ encodeToBase64 s ≫= decodeFromBase64 = Some [0x61]
  /\ encodeToBase64 s ≫= decodeFromBase64 <> Some s
  /\ encodeUTF8ToBase64 1000 s ≫= decodeBase64ToUTF8 <> Some s
  /\ encodeToBase64 [0xD800; 0x61] ≫= decodeFromBase64 = Some [0xFFFD; 0x61].
Proof.
  simpl. repeat split; try (vm_compute; reflexivity); vm_compute; discriminate.
Qed.

End CodecRoundTrip.

(** * Further properties of the code *)

(** ** Conflict detection and merge *)

(** X1. The verdict of [hasConflict] does not depend on which of the two
    records is the local one. *)
Theorem conflict_verdict_symmetric (a b : HabitItem.t) :
  hasConflict a b = hasConflict b a.
Proof.
  unfold hasConflict.
  rewrite (String.eqb_sym (HabitItem.text a)).
  destruct (String.eqb (HabitItem.text b) (HabitItem.text a)); simpl; [|done].
  replace (Z.abs (habitTime a - habitTime b)) with (Z.abs (habitTime b - habitTime a))
    by lia.
  by destruct (HabitItem.completed a), (HabitItem.completed b).
Qed.

Lemma NoDup_add k s : NoDup s -> NoDup (JsMap.add k s).
Proof.
  intros Hnd. unfold JsMap.add. destruct (decide (k ∈ s)) as [|Hn]; [done|].
  apply NoDup_app. split; [done|]. split; [|apply NoDup_singleton].
  intros x Hx Hk. apply list_elem_of_singleton in Hk. by subst.
Qed.

Lemma NoDup_foldl_add ks s : NoDup s -> NoDup (foldl (fun s k => JsMap.add k s) s ks).
Proof.
  revert s. induction ks as [|k ks IH]; intros s Hnd; simpl; [done|].
  by apply IH, NoDup_add.
Qed.

Lemma NoDup_allIds local remote : NoDup (allIds local remote).
Proof. unfold allIds, JsMap.set_of. apply NoDup_foldl_add. constructor. Qed.

(** A loop that pushes, for each of distinct keys, at most one item
    carrying that key, pushes items with distinct keys. *)
Lemma NoDup_omap_keyed {A B} (key : B -> A) (pick : A -> option B) (xs : list A) :
  NoDup xs -> (forall x y, pick x = Some y -> key y = x) ->
  NoDup (map key (omap pick xs)).
Proof.
  intros Hnd Hkey. induction Hnd as [|x xs Hx Hnd IH]; simpl; [constructor|].
  destruct (pick x) as [y|] eqn:Ep; [|done]. simpl.
  apply NoDup_cons. split; [|done].
  intros Hin. apply list_elem_of_fmap in Hin as (y' & Hy' & Hin).
  apply list_elem_of_omap in Hin as (x' & Hx' & Hp').
  apply Hkey in Ep, Hp'. apply Hx. congruence.
Qed.

Lemma detectPick_id lm rm k c : detectPick lm rm k = Some c -> ConflictInfo.id c = k.
Proof.
  unfold detectPick. destruct (JsMap.get k lm); [|done]. destruct (JsMap.get k rm); [|done].
  destruct (hasConflict _ _); [|done]. by intros [= <-].
Qed.

Lemma conflicts_distinct_ids local remote :
  NoDup (map ConflictInfo.id (detectConflicts local remote)).
Proof.
  unfold detectConflicts. rewrite pushLoop_omap.
  apply NoDup_omap_keyed; [apply NoDup_allIds|]. intros k c. apply detectPick_id.
Qed.

(** X2. [detectConflicts] reports at most one conflict per id; each is of
    type [modify], holds both records, and its id is in both snapshots. *)
Theorem conflicts_once_per_shared_id (local remote : HabitsData.t) :
  NoDup (map ConflictInfo.id (detectConflicts local remote))
  /\ Forall (fun c =>
       ConflictInfo.type c = Modify
       /\ is_Some (ConflictInfo.local c) /\ is_Some (ConflictInfo.remote c)
       /\ ConflictInfo.id c ∈ habitIds local /\ ConflictInfo.id c ∈ habitIds remote)
     (detectConflicts local remote).
Proof.
  split; [apply conflicts_distinct_ids|].
  apply Forall_forall. intros c Hc.
  - destruct (detectConflicts_ids _ _ _ Hc) as [Hl Hr].
    apply elem_of_detectConflicts in Hc as (l & r & _ & _ & _ & ->). simpl. eauto 10.
Qed.

(** X3. The ids of the merged snapshot are exactly the ids that either
    input has and that have no tombstone; in particular a record that only
    the remote snapshot has is kept whatever its age. *)
Theorem merged_ids_characterised (now : Z) (store : list Tombstone.t)
    (local remote : HabitsData.t) (k : string) :
  k ∈ habitIds (mergeData now store local remote).1
  <-> (k ∈ habitIds local \/ k ∈ habitIds remote) /\ k ∉ getDeletedHabitsIds store.
Proof.
  split.
  - intros Hin. unfold habitIds in Hin. apply list_elem_of_fmap in Hin as (h & -> & Hh).
    apply elem_of_merged in Hh as (k & Hk & Hpick).
    apply mergePick_id in Hpick as [<- Hn]. split; [by apply elem_of_allIds | done].
  - intros [Hin Hn]. by apply untombstoned_present.
Qed.

Lemma insertByCreatedAt_perm h l : insertByCreatedAt h l ≡ₚ h :: l.
Proof.
  induction l as [|x l IH]; simpl; [done|].
  destruct (_ <=? _); [done|]. rewrite IH. apply Permutation_swap.
Qed.

Lemma sortByCreatedAt_perm l : sortByCreatedAt l ≡ₚ l.
Proof.
  unfold sortByCreatedAt. induction l as [|x l IH]; simpl; [done|].
  by rewrite insertByCreatedAt_perm, IH.
Qed.

Lemma insertByCreatedAt_sorted h l :
  isSortedByCreatedAt l = true -> isSortedByCreatedAt (insertByCreatedAt h l) = true.
Proof.
  induction l as [|x l IH]; intros Hs; [done|].
  simpl insertByCreatedAt. destruct (Z.leb_spec (HabitItem.createdAt h) (HabitItem.createdAt x)).
  - change (isSortedByCreatedAt (h :: x :: l))
      with ((HabitItem.createdAt h <=? HabitItem.createdAt x) && isSortedByCreatedAt (x :: l)).
    rewrite Hs. by rewrite (proj2 (Z.leb_le _ _)) by lia.
  - assert (Hl : isSortedByCreatedAt l = true).
    { simpl in Hs. destruct l; [done|]. by apply andb_true_iff in Hs as [_ ?]. }
    specialize (IH Hl).
    destruct l as [|y l]; simpl.
    + by rewrite (proj2 (Z.leb_le _ _)) by lia.
    + simpl in Hs. apply andb_true_iff in Hs as [Hxy _]. apply Z.leb_le in Hxy.
      simpl in IH. destruct (HabitItem.createdAt h <=? HabitItem.createdAt y) eqn:Hhy.
      * rewrite (proj2 (Z.leb_le (HabitItem.createdAt x) _)) by lia. exact IH.
      * rewrite (proj2 (Z.leb_le (HabitItem.createdAt x) _)) by lia. exact IH.
Qed.

Lemma sortByCreatedAt_is_sorted l : isSortedByCreatedAt (sortByCreatedAt l) = true.
Proof.
  unfold sortByCreatedAt. induction l as [|x l IH]; [done|].
  simpl. by apply insertByCreatedAt_sorted.
Qed.

(** X4. The records of a merged snapshot are in [createdAt] order and no
    two of them have the same id, whatever the inputs hold. *)
Theorem merged_sorted_one_per_id (now : Z) (store : list Tombstone.t)
    (local remote : HabitsData.t) :
  isSortedByCreatedAt (HabitsData.habits (mergeData now store local remote).1) = true
  /\ NoDup (habitIds (mergeData now store local remote).1).
Proof.
  split; [apply sortByCreatedAt_is_sorted|].
  unfold habitIds. rewrite mergeData_habits, sortByCreatedAt_perm.
  unfold mergedHabits. rewrite pushLoop_omap.
  apply NoDup_omap_keyed; [apply NoDup_allIds|].
  intros k h Hp. by apply mergePick_id in Hp as [? _].
Qed.

(** X5. For an id that both snapshots have and that has no tombstone, the
    merged snapshot holds the record modified last, the local one when
    both were modified at the same time, and no other record of that id. *)
Theorem newest_record_wins (now : Z) (store : list Tombstone.t)
    (local remote : HabitsData.t) (k : string) (l r : HabitItem.t) :
  JsMap.get k (habitMap (HabitsData.habits local)) = Some l ->
  JsMap.get k (habitMap (HabitsData.habits remote)) = Some r ->
  k ∉ getDeletedHabitsIds store ->
  (if habitTime r <=? habitTime l then l else r)
    ∈ HabitsData.habits (mergeData now store local remote).1
  /\ forall h, h ∈ HabitsData.habits (mergeData now store local remote).1 ->
       HabitItem.id h = k -> h = if habitTime r <=? habitTime l then l else r.
Proof.
  intros Hl Hr Hn.
  assert (Hpick : mergePick now store (HabitsData.lastSync local)
                    (habitMap (HabitsData.habits local))
                    (habitMap (HabitsData.habits remote)) k
                  = Some (if habitTime r <=? habitTime l then l else r)).
  { unfold mergePick. destruct (decide _); [done|]. by rewrite Hl, Hr. }
  split.
  - apply elem_of_merged. exists k. split; [|done].
    apply elem_of_allIds. left. apply keys_habitMap. by eapply get_Some_keys.
  - intros h Hh Hid. apply elem_of_merged in Hh as (k' & _ & Hp').
    pose proof Hp' as Hp''. apply mergePick_id in Hp'' as [Hk' _].
    assert (k' = k) as -> by congruence. congruence.
Qed.

Lemma newest_record_wins_witness :
  habit1remote ∈ HabitsData.habits
                   (mergeData 5000 [] (snapshotOf 5000 [habit1; habit2] ∅)
                      (snapshotOf 900 [habit1remote] ∅)).1.
Proof.
  apply (newest_record_wins 5000 [] (snapshotOf 5000 [habit1; habit2] ∅)
           (snapshotOf 900 [habit1remote] ∅) "1" habit1 habit1remote).
  - reflexivity.
  - reflexivity.
  - compute_done.
Defined.

(** X6. A merge invents nothing: every record of the merged snapshot is a
    record of the local or of the remote snapshot. *)
Theorem merged_records_from_inputs (now : Z) (store : list Tombstone.t)
    (local remote : HabitsData.t) (h : HabitItem.t) :
  h ∈ HabitsData.habits (mergeData now store local remote).1 ->
  h ∈ HabitsData.habits local \/ h ∈ HabitsData.habits remote.
Proof.
  intros Hh. apply elem_of_merged in Hh as (k & _ & Hp). unfold mergePick in Hp.
  destruct (decide _); [done|].
  destruct (JsMap.get k (habitMap (HabitsData.habits local))) as [l|] eqn:El;
    destruct (JsMap.get k (habitMap (HabitsData.habits remote))) as [r|] eqn:Er;
    try done.
  - apply get_habitMap_elem in El as [El _]. apply get_habitMap_elem in Er as [Er _].
    destruct (_ <=? _); injection Hp as <-; auto.
  - apply get_habitMap_elem in El as [El _]. injection Hp as <-; auto.
  - apply get_habitMap_elem in Er as [Er _].
    destruct (_ <? _); [injection Hp as <-; auto|].
    destruct (negb _); [injection Hp as <-; auto | done].
Qed.

Lemma merged_records_from_inputs_witness :
  habit2 ∈ HabitsData.habits (snapshotOf 5000 [habit1; habit2] ∅)
  \/ habit2 ∈ HabitsData.habits (snapshotOf 900 [habit1remote] ∅).
Proof.
  apply (merged_records_from_inputs 5000 [] (snapshotOf 5000 [habit1; habit2] ∅)
           (snapshotOf 900 [habit1remote] ∅) habit2).
  vm_compute. repeat constructor.
Defined.

(** ** Deletion tracking *)

Lemma find_app_fresh {A} (f : A -> bool) (l : list A) (x : A) :
  List.find f l = None -> f x = true -> List.find f (l ++ [x]) = Some x.
Proof.
  induction l as [|y l IH]; simpl; intros Hn Hx; [by rewrite Hx|].
  destruct (f y); [done|]. by apply IH.
Qed.

Lemma markHabitAsDeleted_elem now k store t :
  t ∈ markHabitAsDeleted now k store
  <-> t ∈ store
      \/ (List.find (fun item => bool_decide (Tombstone.id item = k)) store = None
          /\ t = Tombstone.mk k now).
Proof.
  unfold markHabitAsDeleted. destruct (List.find _ store) eqn:E.
  - split; [auto|]. intros [?|[? _]]; done.
  - rewrite elem_of_app, list_elem_of_singleton. split.
    + intros [?|?]; [by left | by right].
    + intros [?|[_ ?]]; [by left | by right].
Qed.

(** X7. Marking an id as deleted a second time changes nothing: the
    tombstone of the first deletion, with its time, is kept.  Marking never
    removes a tombstone, and its only new id is the one marked. *)
Theorem markHabitAsDeleted_idempotent (t1 t2 : Z) (k : string) (store : list Tombstone.t) :
  markHabitAsDeleted t2 k (markHabitAsDeleted t1 k store) = markHabitAsDeleted t1 k store
  /\ (forall t, t ∈ store -> t ∈ markHabitAsDeleted t1 k store)
  /\ (forall k', k' ∈ getDeletedHabitsIds (markHabitAsDeleted t1 k store)
                 <-> k' = k \/ k' ∈ getDeletedHabitsIds store).
Proof.
  split; [|split].
  - unfold markHabitAsDeleted at 2 3. destruct (List.find _ store) as [t|] eqn:E.
    + unfold markHabitAsDeleted. by rewrite E.
    + unfold markHabitAsDeleted.
      rewrite (find_app_fresh _ store (Tombstone.mk k t1) E); [done|].
      simpl. by apply bool_decide_eq_true.
  - intros t Ht. apply markHabitAsDeleted_elem. by left.
  - intros k'. rewrite !elem_of_deletedIds. split.
    + intros (t & Ht & Hid). apply markHabitAsDeleted_elem in Ht as [Ht|[_ ->]].
      * right. eauto.
      * left. by subst.
    + intros [->|(t & Ht & Hid)].
      * apply elem_of_deletedIds, markHabitAsDeleted_recorded.
      * exists t. split; [|done]. apply markHabitAsDeleted_elem. by left.
Qed.

Lemma NoDup_filter_ids (f : Tombstone.t -> bool) (store : list Tombstone.t) :
  NoDup (map Tombstone.id store) -> NoDup (map Tombstone.id (List.filter f store)).
Proof.
  induction store as [|t store IH]; simpl; intros Hnd; [done|].
  apply NoDup_cons in Hnd as [Ht Hnd]. destruct (f t); simpl; [|by apply IH].
  apply NoDup_cons. split; [|by apply IH].
  intros Hin. apply Ht. apply list_elem_of_fmap in Hin as (t' & -> & Hin).
  apply list_elem_of_In, filter_In in Hin as [Hin _].
  apply list_elem_of_fmap_2. by apply list_elem_of_In.
Qed.

(** X8. The tombstone list never holds two tombstones of one id, as long
    as it is only changed by [markHabitAsDeleted] and by the sweep of a
    merge. *)
Theorem tombstone_ids_stay_distinct (now : Z) (k : string) (store : list Tombstone.t) :
  NoDup (map Tombstone.id store) ->
  NoDup (map Tombstone.id (markHabitAsDeleted now k store))
  /\ NoDup (map Tombstone.id (cleanupDeletedIds now store)).
Proof.
  intros Hnd. split; [|by apply NoDup_filter_ids].
  unfold markHabitAsDeleted. destruct (List.find _ store) eqn:E; [done|].
  rewrite map_app. simpl. apply NoDup_app. split; [done|].
  split; [|apply NoDup_singleton].
  intros k' Hin Hk. apply list_elem_of_singleton in Hk. subst k'.
  apply list_elem_of_fmap in Hin as (t & Hid & Hin).
  apply list_elem_of_In in Hin. pose proof (find_none _ _ E t Hin) as Hb. simpl in Hb.
  apply bool_decide_eq_false in Hb. congruence.
Qed.

Lemma tombstone_ids_stay_distinct_witness :
  NoDup (map Tombstone.id
           (markHabitAsDeleted 500 "2" [Tombstone.mk "1" 100; Tombstone.mk "3" 300]))
  /\ NoDup (map Tombstone.id
              (cleanupDeletedIds 500 [Tombstone.mk "1" 100; Tombstone.mk "3" 300])).
Proof.
  apply (tombstone_ids_stay_distinct 500 "2" [Tombstone.mk "1" 100; Tombstone.mk "3" 300]).
  compute_done.
Defined.

(** X9. Sweeping at some time and then again at a later time leaves what
    one sweep at the later time leaves; so a sweep repeated at the same
    time changes nothing. *)
Theorem cleanup_twice_is_cleanup_later (now1 now2 : Z) (store : list Tombstone.t) :
  now1 <= now2 ->
  cleanupDeletedIds now2 (cleanupDeletedIds now1 store) = cleanupDeletedIds now2 store.
Proof.
  intros Hle. unfold cleanupDeletedIds. induction store as [|t store IH]; [done|].
  simpl. destruct (Z.ltb_spec (now1 - retention) (Tombstone.deletedAt t)) as [H1|H1]; simpl.
  - by rewrite IH.
  - rewrite IH. by rewrite (proj2 (Z.ltb_ge _ _)) by lia.
Qed.

Lemma cleanup_twice_is_cleanup_later_witness :
  cleanupDeletedIds (retention + 200)
    (cleanupDeletedIds (retention + 50) [Tombstone.mk "1" 100; Tombstone.mk "3" 300])
  = cleanupDeletedIds (retention + 200) [Tombstone.mk "1" 100; Tombstone.mk "3" 300].
Proof.
  apply (cleanup_twice_is_cleanup_later (retention + 50) (retention + 200)). lia.
Defined.

(** ** Conflict resolution *)

Section ResolveFacts.
Context {V : Type}.
Implicit Types (m : list (string * V)) (k : string) (v : V).

Lemma get_set k k' v m :
  JsMap.get k (JsMap.set k' v m) = if decide (k = k') then Some v else JsMap.get k m.
Proof.
  induction m as [|[k0 v0] m IH]; simpl.
  - destruct (decide (k = k')); reflexivity.
  - destruct (decide (k' = k0)) as [->|Hne]; simpl.
    + destruct (decide (k = k0)); reflexivity.
    + destruct (decide (k = k0)) as [->|Hne'].
      * destruct (decide (k0 = k')); congruence.
      * exact IH.
Qed.

Lemma get_delete_ne k k' m : k <> k' -> JsMap.get k (JsMap.delete k' m) = JsMap.get k m.
Proof.
  intros Hne. induction m as [|[k0 v0] m IH]; simpl; [done|].
  destruct (decide (k' = k0)) as [->|Hne0]; simpl.
  - by destruct (decide (k = k0)).
  - destruct (decide (k = k0)); [done | exact IH].
Qed.

Lemma keys_set_existing k v m : k ∈ JsMap.keys m -> JsMap.keys (JsMap.set k v m) = JsMap.keys m.
Proof.
  unfold JsMap.keys. induction m as [|[k0 v0] m IH]; simpl.
  - intros H. by apply elem_of_nil in H.
  - rewrite elem_of_cons. intros Hin. destruct (decide (k = k0)) as [->|Hne]; simpl; [done|].
    f_equal. apply IH. by destruct Hin.
Qed.

End ResolveFacts.

(** The record a resolution puts under the id of its conflict; [current]
    is the record the map holds there. *)
Lemma resolveStep_get now m c res k :
  JsMap.get k (resolveStep now m (c, res)) =
    if decide (k = ConflictInfo.id c) then
      match res, ConflictInfo.local c, ConflictInfo.remote c with
      | ResRemote, _, Some r => Some r
      | ResRemote, _, None => JsMap.get k (JsMap.delete k m)
      | ResMerge, Some l, Some r => Some (mergeHabitItems now l r)
      | _, _, _ => JsMap.get k m
      end
    else JsMap.get k m.
Proof.
  unfold resolveStep. simpl.
  destruct (decide (k = ConflictInfo.id c)) as [->|Hne].
  - destruct res; try done.
    + destruct (ConflictInfo.remote c); [|done].
      rewrite get_set. by destruct (decide _).
    + destruct (ConflictInfo.local c); [|done]. destruct (ConflictInfo.remote c); [|done].
      rewrite get_set. by destruct (decide _).
  - destruct res; try done.
    + destruct (ConflictInfo.remote c); [|by apply get_delete_ne].
      rewrite get_set. by destruct (decide _).
    + destruct (ConflictInfo.local c); [|done]. destruct (ConflictInfo.remote c); [|done].
      rewrite get_set. by destruct (decide _).
Qed.

Lemma foldl_resolve_untouched now crs m k :
  k ∉ map (fun cr => ConflictInfo.id cr.1) crs ->
  JsMap.get k (foldl (resolveStep now) m crs) = JsMap.get k m.
Proof.
  revert m. induction crs as [|[c res] crs IH]; intros m Hk; simpl; [done|].
  simpl in Hk. apply not_elem_of_cons in Hk as [Hne Hk].
  rewrite IH by done. rewrite resolveStep_get. by destruct (decide _).
Qed.

Lemma foldl_resolve_chosen now crs m c res l r :
  NoDup (map (fun cr => ConflictInfo.id cr.1) crs) ->
  (c, res) ∈ crs ->
  ConflictInfo.local c = Some l -> ConflictInfo.remote c = Some r ->
  JsMap.get (ConflictInfo.id c) m = Some l ->
  JsMap.get (ConflictInfo.id c) (foldl (resolveStep now) m crs)
  = Some (chosenRecord now res l r).
Proof.
  intros Hnd Hin Hl Hr. revert m.
  induction crs as [|[c0 res0] crs IH]; intros m Hm; [by apply elem_of_nil in Hin|].
  simpl in Hnd. apply NoDup_cons in Hnd as [Hc0 Hnd]. simpl.
  apply elem_of_cons in Hin as [[= <- <-]|Hin].
  - rewrite foldl_resolve_untouched by done. rewrite resolveStep_get.
    destruct (decide _); [|done]. rewrite Hl, Hr. by destruct res.
  - apply IH; [done | done |].
    rewrite resolveStep_get. destruct (decide _) as [Heq|]; [|done].
    exfalso. apply Hc0. rewrite <- Heq.
    apply list_elem_of_fmap. by exists (c, res).
Qed.

Lemma resolveConflicts_Some now conflicts resolutions localData resolved :
  resolveConflicts now conflicts resolutions localData = Some resolved ->
  length conflicts = length resolutions
  /\ HabitsData.habits resolved
     = JsMap.values (foldl (resolveStep now) (habitMap (HabitsData.habits localData))
                       (zip conflicts resolutions)).
Proof.
  unfold resolveConflicts. destruct (Nat.eqb_spec (length conflicts) (length resolutions));
    simpl; [|done].
  by intros [= <-].
Qed.

(** X10. Each conflict found between the local and the remote snapshot is
    resolved as its resolution says: the resolved snapshot holds the remote
    record for [remote], the field-wise merge for [merge], and the local
    record for [local] (and for [manual]). *)
Theorem conflicts_resolved_as_chosen (now : Z) (resolutions : list ConflictResolution)
    (localData remoteData resolved : HabitsData.t) (i : nat)
    (c : ConflictInfo.t) (res : ConflictResolution) :
  resolveConflicts now (detectConflicts localData remoteData) resolutions localData
    = Some resolved ->
  detectConflicts localData remoteData !! i = Some c ->
  resolutions !! i = Some res ->
  exists l r,
    ConflictInfo.local c = Some l /\ ConflictInfo.remote c = Some r
    /\ chosenRecord now res l r ∈ HabitsData.habits resolved.
Proof.
  intros Hres Hc Hr. apply resolveConflicts_Some in Hres as [Hlen ->].
  pose proof (list_elem_of_lookup_2 _ _ _ Hc) as Hin.
  apply elem_of_detectConflicts in Hin as (l & r & Hl & _ & _ & Heq).
  exists l, r. rewrite Heq at 1 2. simpl. split; [done|]. split; [done|].
  unfold JsMap.values. apply list_elem_of_fmap. exists (ConflictInfo.id c, chosenRecord now res l r).
  split; [done|]. apply get_Some_elem.
  apply foldl_resolve_chosen.
  - replace (map (fun cr : ConflictInfo.t * ConflictResolution => ConflictInfo.id cr.1)
               (zip (detectConflicts localData remoteData) resolutions))
      with (map ConflictInfo.id (zip (detectConflicts localData remoteData) resolutions).*1)
      by (by rewrite <- list_fmap_compose).
    rewrite fst_zip by lia. apply conflicts_distinct_ids.
  - apply list_elem_of_lookup. exists i. by apply lookup_zip_Some.
  - by rewrite Heq.
  - by rewrite Heq.
  - done.
Qed.

Lemma conflicts_resolved_as_chosen_witness :
  exists l r,
    ConflictInfo.local (ConflictInfo.mk "1" Modify (Some habit1) (Some habit1remote) 100 120)
      = Some l
    /\ ConflictInfo.remote (ConflictInfo.mk "1" Modify (Some habit1) (Some habit1remote) 100 120)
       = Some r
    /\ chosenRecord 20 ResMerge l r
         ∈ HabitsData.habits
             (snapshotOf 20 [mergeHabitItems 20 habit1 habit1remote; habit2] ∅).
Proof.
  apply (conflicts_resolved_as_chosen 20 [ResMerge]
           (snapshotOf 10 [habit1; habit2] ∅) (snapshotOf 5 [habit1remote; habit3] ∅)
           (snapshotOf 20 [mergeHabitItems 20 habit1 habit1remote; habit2] ∅) 0
           (ConflictInfo.mk "1" Modify (Some habit1) (Some habit1remote) 100 120) ResMerge).
  - vm_compute. reflexivity.
  - vm_compute. reflexivity.
  - reflexivity.
Defined.

Lemma values_ids_keys (m : list (string * HabitItem.t)) :
  (forall k v, (k, v) ∈ m -> HabitItem.id v = k) ->
  map HabitItem.id (JsMap.values m) = JsMap.keys m.
Proof.
  unfold JsMap.values, JsMap.keys. induction m as [|[k v] m IH]; intros Hm; [done|].
  simpl. f_equal.
  - apply Hm, elem_of_cons. by left.
  - apply IH. intros k' v' Hin. apply Hm, elem_of_cons. by right.
Qed.

Lemma resolveStep_keys now m c res :
  ConflictInfo.id c ∈ JsMap.keys m -> is_Some (ConflictInfo.remote c) ->
  JsMap.keys (resolveStep now m (c, res)) = JsMap.keys m.
Proof.
  intros Hk [r Hr]. unfold resolveStep. simpl. rewrite Hr.
  destruct res; try done.
  - by apply keys_set_existing.
  - destruct (ConflictInfo.local c); [|done]. by apply keys_set_existing.
Qed.

Lemma foldl_resolve_keys now crs m :
  Forall (fun cr => ConflictInfo.id cr.1 ∈ JsMap.keys m /\ is_Some (ConflictInfo.remote cr.1))
         crs ->
  JsMap.keys (foldl (resolveStep now) m crs) = JsMap.keys m.
Proof.
  revert m. induction crs as [|[c res] crs IH]; intros m Hall; simpl; [done|].
  apply Forall_cons in Hall as [[Hk Hr] Hall]. simpl in Hk, Hr.
  rewrite IH; [by apply resolveStep_keys|].
  eapply Forall_impl; [exact Hall|]. intros cr [? ?].
  by rewrite resolveStep_keys.
Qed.

(** X11. Resolving the conflicts found between the local and the remote
    snapshot neither adds nor removes nor reorders ids: the resolved
    snapshot lists the ids of the local snapshot, each once, in their
    local order. *)
Theorem resolution_keeps_local_ids (now : Z) (resolutions : list ConflictResolution)
    (localData remoteData resolved : HabitsData.t) :
  resolveConflicts now (detectConflicts localData remoteData) resolutions localData
    = Some resolved ->
  habitIds resolved = JsMap.keys (habitMap (HabitsData.habits localData)).
Proof.
  intros Hres. apply resolveConflicts_Some in Hres as [Hlen Hh].
  unfold habitIds. rewrite Hh.
  assert (Hall : Forall (fun cr : ConflictInfo.t * ConflictResolution =>
                   wfConflict cr.1
                   /\ ConflictInfo.id cr.1 ∈ JsMap.keys (habitMap (HabitsData.habits localData))
                   /\ is_Some (ConflictInfo.remote cr.1))
                 (zip (detectConflicts localData remoteData) resolutions)).
  { apply Forall_forall. intros [c res] Hin. apply elem_of_zip_l in Hin. simpl in *.
    split; [|split].
    - pose proof (detectConflicts_wf localData remoteData) as Hwf.
      by eapply Forall_forall in Hwf.
    - apply keys_habitMap. by apply detectConflicts_ids in Hin as [? _].
    - apply elem_of_detectConflicts in Hin as (l & r & _ & _ & _ & ->). simpl. eauto. }
  rewrite values_ids_keys.
  - apply foldl_resolve_keys. eapply Forall_impl; [exact Hall|]. by intros cr (_ & ? & ?).
  - intros k v Hkv.
    eapply (resolve_foldl_ids now (fun _ => True)) in Hkv as [Hid _]; [exact Hid| |].
    + eapply Forall_impl; [exact Hall|]. by intros cr (? & _ & _).
    + intros k' v' Hin. apply elem_of_habitMap in Hin as [_ ?]. done.
Qed.

Lemma resolution_keeps_local_ids_witness :
  habitIds (snapshotOf 20 [habit1remote; habit2] ∅)
  = JsMap.keys (habitMap (HabitsData.habits (snapshotOf 10 [habit1; habit2] ∅))).
Proof.
  apply (resolution_keeps_local_ids 20 [ResRemote] (snapshotOf 10 [habit1; habit2] ∅)
           (snapshotOf 5 [habit1remote; habit3] ∅)).
  vm_compute. reflexivity.
Defined.

Lemma foldl_resolve_local now crs m :
  Forall (fun cr : ConflictInfo.t * ConflictResolution => cr.2 = ResLocal \/ cr.2 = ResManual)
         crs ->
  foldl (resolveStep now) m crs = m.
Proof.
  revert m. induction crs as [|[c res] crs IH]; intros m Hall; simpl; [done|].
  apply Forall_cons in Hall as [Hres Hall]. simpl in Hres.
  rewrite IH by done. unfold resolveStep. simpl. by destruct Hres as [-> | ->].
Qed.

(** X13. The field-wise merge of two versions is stamped with the time of
    the resolution, does not depend on which version is called local
    unless both were modified at the same time, and has an empty text only
    if both versions have. *)
Theorem merged_item_is_order_independent (now : Z) (l r : HabitItem.t) :
  HabitItem.updatedAt (mergeHabitItems now l r) = Some now
  /\ (habitTime l <> habitTime r -> mergeHabitItems now l r = mergeHabitItems now r l)
  /\ (HabitItem.text (mergeHabitItems now l r) = "" ->
      HabitItem.text l = "" /\ HabitItem.text r = "").
Proof.
  split; [done|]. split.
  - intros Hne. unfold mergeHabitItems.
    destruct (Z.leb_spec (habitTime r) (habitTime l)), (Z.leb_spec (habitTime l) (habitTime r));
      try reflexivity; lia.
  - unfold mergeHabitItems. simpl.
    destruct (habitTime r <=? habitTime l);
      destruct (String.eqb_spec (HabitItem.text l) ""), (String.eqb_spec (HabitItem.text r) "");
      intros H; auto; congruence.
Qed.

(** ** Local storage *)

(** X14. What [saveLocalData] stores, [getLocalData] reads back with the
    same records in the same order, except that every [updatedAt] is reset
    to the record's [createdAt]; a non-empty [lastResetDate] is read back
    too.  This holds even when the encrypted part of the write fails. *)
Theorem local_save_then_load (env env' : Env.t) (data : HabitsData.t) (w : World.t) :
  HabitsData.habits (getLocalData env' (saveLocalData env data w).2)
    = map resetUpdatedAt (HabitsData.habits data)
  /\ HabitsData.lastResetDate (getLocalData env' (saveLocalData env data w).2)
     = (if String.eqb (HabitsData.lastResetDate data) "" then Env.today env'
        else HabitsData.lastResetDate data)
  /\ Forall (fun h => HabitItem.updatedAt h = Some (HabitItem.createdAt h))
            (HabitsData.habits (getLocalData env' w)).
Proof.
  split; [|split].
  - unfold saveLocalData. destruct (Env.secureFails env); simpl;
      unfold getLocalData; simpl; rewrite map_map; by apply map_ext.
  - unfold saveLocalData. by destruct (Env.secureFails env).
  - unfold getLocalData. destruct (LocalStorage.dailyTodos (World.storage w)); simpl.
    + apply Forall_map. by apply Forall_forall.
    + constructor.
Qed.

(** ** The sync cycle, pushing and pulling *)

Lemma remotePut_current data r :
  remotePut data (remoteToken r) r = (PutOk, Remote.mk (Some data) (S (Remote.rev r))).
Proof. unfold remotePut. by destruct (decide _). Qed.

Lemma remotePut_result data token r :
  (remotePut data token r).1 = PutOk /\ Remote.file (remotePut data token r).2 = Some data
  \/ (remotePut data token r).1 <> PutOk /\ (remotePut data token r).2 = r.
Proof.
  unfold remotePut. destruct (decide _); [left; done|]. right. by destruct token.
Qed.

(** What the two writes of a save leave behind. *)
Lemma saveBoth_effects env data w :
  World.hasUserAndRepo w = true ->
  let w' := (saveBoth env data w).2 in
  LocalStorage.dailyTodos (World.storage w') = Some (map todoOfHabit (HabitsData.habits data))
  /\ LocalStorage.deleted_habits (World.storage w')
     = LocalStorage.deleted_habits (World.storage w)
  /\ World.syncState w' = World.syncState w
  /\ ((exists u, (saveBoth env data w).1 = Returned u)
      /\ Remote.file (World.remote w') = Some data
      /\ LocalStorage.habits_data (World.storage w') = Some data
      \/ (exists ty msg, (saveBoth env data w).1 = Thrown ty msg)
         /\ (Env.secureFails env = false ->
             World.remote w'
             = foreignWrite (Env.writeBeforePut env)
                 (foreignWrite (Env.writeBeforeSha env) (World.remote w)))).
Proof.
  intros Hu. unfold saveBoth, saveLocalData, saveRemoteData.
  destruct (Env.secureFails env); simpl; rewrite Hu; simpl.
  - destruct (Env.putFails env); simpl.
    + repeat split; try done. right. split; [eauto | done].
    + destruct (remotePut _ _ _) as [res r3]. destruct res; simpl;
        (repeat split; try done; right; split; [eauto | done]).
  - destruct (Env.putFails env); simpl.
    + repeat split; try done. right. split; [eauto | done].
    + match goal with |- context [remotePut ?d ?t ?r] =>
        destruct (remotePut_result d t r) as [[Hres Hfile]|[Hres Hsame]];
        destruct (remotePut d t r) as [res r3] end; simpl in *.
      * subst res. simpl. repeat split; try done. left. eauto.
      * subst r3. destruct res; [done| | |]; simpl;
          (repeat split; try done; right; split; [eauto | done]).
Qed.

(** The cycle when a conflict is found. *)
Lemma conflict_cycle_facts (env : Env.t) (w : World.t) :
  World.authenticated w = true ->
  World.isOnline w = true ->
  World.hasUserAndRepo w = true ->
  detectConflicts (getLocalData env w) (readRemote env w) <> [] ->
  (sync env w).1
    = Returned (SyncResult.mk false
                  (detectConflicts (getLocalData env w) (readRemote env w))
                  (Env.now env) 0 true)
  /\ World.storage (sync env w).2 = World.storage w.
Proof.
  intros Ha Ho Hu Hc. unfold sync, getRemoteData. rewrite Ha, Ho. simpl. rewrite Hu. simpl.
  change (getLocalData env (updateStatus Syncing None w)) with (getLocalData env w).
  change (readRemote env (updateStatus Syncing None w)) with (readRemote env w).
  destruct (detectConflicts (getLocalData env w) (readRemote env w)) as [|c cs] eqn:Ed;
    [done|].
  done.
Qed.

(** The cycle once no conflict is found: it saves the merged snapshot and
    reports how the save went. *)
Lemma sync_after_detection env w :
  World.authenticated w = true -> World.isOnline w = true ->
  World.hasUserAndRepo w = true ->
  detectConflicts (getLocalData env w) (readRemote env w) = [] ->
  exists w2,
    World.hasUserAndRepo w2 = true
    /\ World.remote w2 = World.remote w
    /\ LocalStorage.deleted_habits (World.storage w2)
       = cleanupDeletedIds (Env.now env) (LocalStorage.deleted_habits (World.storage w))
    /\ sync env w =
       match saveBoth env (cycleMerged env w) w2 with
       | (Thrown ty msg, w3) => syncFailed ty msg w3
       | (Returned _, w3) =>
           (Returned (SyncResult.mk true [] (Env.now env)
                        (length (HabitsData.habits (cycleMerged env w))) false),
            saveSyncState
              (withSyncState (SyncState.mk Success (Some (Env.now env))
                                (SyncState.lastError (World.syncState w3)) false 0) w3))
       end.
Proof.
  intros Ha Ho Hu Hc. unfold sync, getRemoteData. rewrite Ha, Ho. cbn [negb]. cbv zeta.
  change (World.hasUserAndRepo (updateStatus Syncing None w)) with (World.hasUserAndRepo w).
  rewrite Hu. cbn [negb].
  change (getLocalData env (updateStatus Syncing None w)) with (getLocalData env w).
  change (readRemote env (updateStatus Syncing None w)) with (readRemote env w).
  rewrite Hc. cbn [length Nat.ltb Nat.leb].
  change (World.storage (withRemote (World.remote (updateStatus Syncing None w)) [CallGet]
                           (updateStatus Syncing None w)))
    with (World.storage w).
  unfold cycleMerged.
  destruct (mergeData _ _ _ _) as [mergedData store'] eqn:Em.
  pose proof (mergeData_store (Env.now env) (LocalStorage.deleted_habits (World.storage w))
                (getLocalData env w) (readRemote env w)) as Hstore.
  rewrite Em in Hstore. simpl in Hstore. subst store'.
  eexists. split; [|split; [|split; [|reflexivity]]]; done.
Qed.

(** What a cycle that reports success leaves behind. *)
Lemma sync_success_facts (env : Env.t) (w : World.t) (r : SyncResult.t) :
  (sync env w).1 = Returned r ->
  SyncResult.success r = true ->
  Remote.file (World.remote (sync env w).2) = Some (cycleMerged env w)
  /\ LocalStorage.habits_data (World.storage (sync env w).2) = Some (cycleMerged env w)
  /\ LocalStorage.dailyTodos (World.storage (sync env w).2)
     = Some (map todoOfHabit (HabitsData.habits (cycleMerged env w)))
  /\ SyncState.status (World.syncState (sync env w).2) = Success
  /\ SyncState.pendingChanges (World.syncState (sync env w).2) = false
  /\ SyncResult.syncedRecords r = length (HabitsData.habits (cycleMerged env w)).
Proof.
  intros Hret Hsucc.
  destruct (World.authenticated w) eqn:Ha;
    [|unfold sync in Hret; rewrite Ha in Hret; done].
  destruct (World.isOnline w) eqn:Ho;
    [|unfold sync in Hret; rewrite Ha, Ho in Hret; done].
  destruct (World.hasUserAndRepo w) eqn:Hu.
  2: { unfold sync, getRemoteData in Hret. rewrite Ha, Ho in Hret. simpl in Hret.
       rewrite Hu in Hret. done. }
  destruct (detectConflicts (getLocalData env w) (readRemote env w)) as [|c cs] eqn:Hc.
  2: { destruct (conflict_cycle_facts env w Ha Ho Hu) as [Hout _]; [by rewrite Hc|].
       rewrite Hout in Hret. injection Hret as <-. done. }
  destruct (sync_after_detection env w Ha Ho Hu Hc) as (w2 & Hu2 & _ & _ & Heq).
  rewrite Heq in Hret |- *.
  destruct (saveBoth_effects env (cycleMerged env w) w2 Hu2) as (Htodos & _ & _ & Hcases).
  destruct (saveBoth env (cycleMerged env w) w2) as [o w3]. simpl in *.
  destruct Hcases as [([u ->] & Hfile & Hdata)|([ty [msg ->]] & _)]; [|done].
  simpl in *. injection Hret as <-. done.
Qed.

(** X15. When a cycle reports success, the remote file and the encrypted
    local copy both hold the snapshot merged in that cycle, [dailyTodos]
    holds its records, the status is [success] and no change is pending. *)
Theorem successful_cycle_converges (env : Env.t) (w : World.t) (r : SyncResult.t) :
  (sync env w).1 = Returned r ->
  SyncResult.success r = true ->
  Remote.file (World.remote (sync env w).2) = Some (cycleMerged env w)
  /\ LocalStorage.habits_data (World.storage (sync env w).2) = Some (cycleMerged env w)
  /\ LocalStorage.dailyTodos (World.storage (sync env w).2)
     = Some (map todoOfHabit (HabitsData.habits (cycleMerged env w)))
  /\ SyncState.status (World.syncState (sync env w).2) = Success
  /\ SyncState.pendingChanges (World.syncState (sync env w).2) = false
  /\ SyncResult.syncedRecords r = length (HabitsData.habits (cycleMerged env w)).
Proof. apply sync_success_facts. Qed.

Lemma successful_cycle_converges_witness :
  Remote.file (World.remote (sync quietEnv sampleWorld).2)
    = Some (cycleMerged quietEnv sampleWorld)
  /\ LocalStorage.habits_data (World.storage (sync quietEnv sampleWorld).2)
     = Some (cycleMerged quietEnv sampleWorld).
Proof.
  destruct (successful_cycle_converges quietEnv sampleWorld
              (SyncResult.mk true [] 5000 1 false)) as (Hf & Hd & _).
  - vm_compute. reflexivity.
  - reflexivity.
  - auto.
Defined.

(** X16. Once no conflict is found, [localStorage] is rewritten with the
    merged records and the swept tombstones before the outcome of the
    remote write is known.  So when the cycle then fails on the remote
    write, the local list already holds the merged records while the remote
    file holds nothing of this cycle. *)
Theorem failed_cycle_has_rewritten_local (env : Env.t) (w : World.t)
    (ty : SyncErrorType) (msg : string) :
  World.authenticated w = true ->
  World.isOnline w = true ->
  World.hasUserAndRepo w = true ->
  detectConflicts (getLocalData env w) (readRemote env w) = [] ->
  Env.secureFails env = false ->
  (sync env w).1 = Thrown ty msg ->
  LocalStorage.dailyTodos (World.storage (sync env w).2)
    = Some (map todoOfHabit (HabitsData.habits (cycleMerged env w)))
  /\ LocalStorage.deleted_habits (World.storage (sync env w).2)
     = cleanupDeletedIds (Env.now env) (LocalStorage.deleted_habits (World.storage w))
  /\ World.remote (sync env w).2
     = foreignWrite (Env.writeBeforePut env)
         (foreignWrite (Env.writeBeforeSha env) (World.remote w)).
Proof.
  intros Ha Ho Hu Hc Hsec Hthrown.
  destruct (sync_after_detection env w Ha Ho Hu Hc) as (w2 & Hu2 & Hr2 & Hd2 & Heq).
  rewrite Heq in Hthrown |- *.
  destruct (saveBoth_effects env (cycleMerged env w) w2 Hu2) as (Htodos & Hdel & _ & Hcases).
  destruct (saveBoth env (cycleMerged env w) w2) as [o w3]. simpl in *.
  destruct Hcases as [([u ->] & _)|([ty' [msg' ->]] & Hrem)]; [done|].
  simpl. rewrite Htodos, Hdel, Hd2, (Hrem Hsec), Hr2. done.
Qed.

Lemma failed_cycle_has_rewritten_local_witness :
  LocalStorage.dailyTodos (World.storage (sync racingEnv sampleWorld).2)
    = Some (map todoOfHabit (HabitsData.habits (cycleMerged racingEnv sampleWorld)))
  /\ Remote.file (World.remote (sync racingEnv sampleWorld).2)
     = Some (snapshotOf 4999 [habit1; habit2] ∅).
Proof.
  destruct (failed_cycle_has_rewritten_local racingEnv sampleWorld ErrNetwork
              "Failed to save remote data") as (Ht & _ & Hr).
  - reflexivity.
  - reflexivity.
  - reflexivity.
  - vm_compute. reflexivity.
  - reflexivity.
  - vm_compute. reflexivity.
  - split; [exact Ht|]. rewrite Hr. reflexivity.
Defined.

(** X17. The version token is asked for just before the write, not when
    the remote file is read.  A write of another replica that lands in
    between is therefore overwritten without notice: the cycle succeeds and
    the remote file holds the snapshot merged from the older remote
    state. *)
Theorem write_between_read_and_token_is_overwritten (env : Env.t) (w : World.t) :
  World.authenticated w = true ->
  World.isOnline w = true ->
  World.hasUserAndRepo w = true ->
  detectConflicts (getLocalData env w) (readRemote env w) = [] ->
  Env.secureFails env = false ->
  Env.shaFails env = false ->
  Env.putFails env = false ->
  Env.writeBeforePut env = None ->
  (sync env w).1
    = Returned (SyncResult.mk true [] (Env.now env)
                  (length (HabitsData.habits (cycleMerged env w))) false)
  /\ Remote.file (World.remote (sync env w).2) = Some (cycleMerged env w).
Proof.
  intros Ha Ho Hu Hc Hsec Hsha Hput Hwbp.
  destruct (sync_after_detection env w Ha Ho Hu Hc) as (w2 & Hu2 & Hr2 & _ & Heq).
  rewrite Heq.
  unfold saveBoth, saveLocalData, saveRemoteData.
  rewrite Hsec, Hsha, Hput, Hwbp. simpl. rewrite Hu2. simpl.
  rewrite remotePut_current. simpl. done.
Qed.

Lemma write_between_read_and_token_is_overwritten_witness :
  Remote.file
    (World.remote
       (sync (Env.mk 5000 "Tue Jan 02 2024" false false
                (Some (snapshotOf 4999 [habit1; habit2; habit3] ∅)) None false false)
             sampleWorld).2)
  = Some (HabitsData.mk "1.0" 5000 "Tue Jan 02 2024" [habit1]
            (defaultSettings true 300000)).
Proof.
  destruct (write_between_read_and_token_is_overwritten
              (Env.mk 5000 "Tue Jan 02 2024" false false
                 (Some (snapshotOf 4999 [habit1; habit2; habit3] ∅)) None false false)
              sampleWorld) as [_ Hr].
  - reflexivity.
  - reflexivity.
  - reflexivity.
  - vm_compute. reflexivity.
  - reflexivity.
  - reflexivity.
  - reflexivity.
  - reflexivity.
  - rewrite Hr. vm_compute. reflexivity.
Defined.

Lemma saveRemoteData_quiet env data w :
  World.hasUserAndRepo w = true ->
  Env.shaFails env = false -> Env.putFails env = false -> Env.writeBeforePut env = None ->
  (saveRemoteData env data w).1 = Returned tt
  /\ Remote.file (World.remote (saveRemoteData env data w).2) = Some data
  /\ World.storage (saveRemoteData env data w).2 = World.storage w
  /\ World.authenticated (saveRemoteData env data w).2 = World.authenticated w
  /\ World.hasUserAndRepo (saveRemoteData env data w).2 = true
  /\ World.syncState (saveRemoteData env data w).2 = World.syncState w.
Proof.
  intros Hu Hsha Hput Hwbp. unfold saveRemoteData.
  rewrite Hu, Hsha, Hput, Hwbp. simpl. rewrite remotePut_current. simpl. done.
Qed.

Lemma pull_reads_file env w data :
  World.authenticated w = true -> World.hasUserAndRepo w = true ->
  Env.readFails env = false -> Env.secureFails env = false ->
  Remote.file (World.remote w) = Some data ->
  (pull env w).1 = Returned data
  /\ LocalStorage.dailyTodos (World.storage (pull env w).2)
     = Some (map todoOfHabit (HabitsData.habits data)).
Proof.
  intros Ha Hu Hread Hsec Hfile.
  unfold pull, getRemoteData, saveLocalData, readRemote.
  rewrite Ha, Hu, Hread, Hsec, Hfile. simpl. done.
Qed.

(** X18. What is pushed can be pulled: after a [push] of a snapshot whose
    write is not disturbed, a [pull] returns that snapshot and replaces the
    local list by its records; the push has cleared the pending-changes
    flag. *)
Theorem push_then_pull (env1 env2 : Env.t) (data : HabitsData.t) (w : World.t) :
  World.authenticated w = true ->
  World.hasUserAndRepo w = true ->
  Env.shaFails env1 = false -> Env.putFails env1 = false ->
  Env.writeBeforePut env1 = None ->
  Env.readFails env2 = false -> Env.secureFails env2 = false ->
  (push env1 (Some data) w).1 = Returned tt
  /\ SyncState.pendingChanges (World.syncState (push env1 (Some data) w).2) = false
  /\ (pull env2 (push env1 (Some data) w).2).1 = Returned data
  /\ LocalStorage.dailyTodos (World.storage (pull env2 (push env1 (Some data) w).2).2)
     = Some (map todoOfHabit (HabitsData.habits data)).
Proof.
  intros Ha Hu Hsha Hput Hwbp Hread Hsec.
  destruct (saveRemoteData_quiet env1 data w Hu Hsha Hput Hwbp)
    as (Hout & Hfile & _ & Ha' & Hu' & _).
  unfold push. rewrite Ha. simpl.
  destruct (saveRemoteData env1 data w) as [o w1]. simpl in *. subst o. simpl.
  split; [done|]. split; [done|].
  apply pull_reads_file; simpl; congruence.
Qed.

Lemma push_then_pull_witness :
  (pull quietEnv (push quietEnv (Some (snapshotOf 10 [habit2; habit3] ∅)) sampleWorld).2).1
  = Returned (snapshotOf 10 [habit2; habit3] ∅).
Proof.
  apply (push_then_pull quietEnv quietEnv (snapshotOf 10 [habit2; habit3] ∅) sampleWorld);
    reflexivity.
Defined.

(** X19. [pull] is not a merge, and it reads a missing or unreadable
    remote file as the empty default snapshot: in that case it empties the
    local list. *)
Theorem pull_without_remote_file_empties_local (env : Env.t) (w : World.t) :
  World.authenticated w = true ->
  World.hasUserAndRepo w = true ->
  Remote.file (World.remote w) = None \/ Env.readFails env = true ->
  LocalStorage.dailyTodos (World.storage (pull env w).2) = Some [].
Proof.
  intros Ha Hu Hmiss. unfold pull, getRemoteData. rewrite Ha, Hu. simpl.
  assert (Hr : HabitsData.habits (readRemote env w) = []).
  { unfold readRemote. destruct Hmiss as [Hf|Hf]; rewrite Hf; [|done].
    by destruct (Env.readFails env). }
  unfold saveLocalData. destruct (Env.secureFails env); simpl; by rewrite Hr.
Qed.

Lemma pull_without_remote_file_empties_local_witness :
  LocalStorage.dailyTodos
    (World.storage
       (pull (Env.mk 5000 "Tue Jan 02 2024" true false None None false false)
             sampleWorld).2)
  = Some [].
Proof.
  apply (pull_without_remote_file_empties_local
           (Env.mk 5000 "Tue Jan 02 2024" true false None None false false) sampleWorld).
  - reflexivity.
  - reflexivity.
  - right. reflexivity.
Defined.

(** ** Import of local data *)

Lemma migration_pick_id lh rh k h :
  DataMigration.mergePick (habitMap lh) (habitMap rh) k = Some h -> HabitItem.id h = k.
Proof.
  unfold DataMigration.mergePick.
  destruct (JsMap.get k (habitMap lh)) as [l|] eqn:El;
    destruct (JsMap.get k (habitMap rh)) as [r|] eqn:Er; intros [= <-].
  - by apply get_habitMap_elem in El as [_ ?].
  - by apply get_habitMap_elem in El as [_ ?].
  - by apply get_habitMap_elem in Er as [_ ?].
Qed.

Lemma elem_of_migration_merge now local remote h :
  h ∈ HabitsData.habits (DataMigration.mergeLocalAndRemote now local remote) <->
  exists k, k ∈ allIds local remote
    /\ DataMigration.mergePick (habitMap (HabitsData.habits local))
         (habitMap (HabitsData.habits remote)) k = Some h.
Proof.
  unfold DataMigration.mergeLocalAndRemote. simpl.
  rewrite elem_of_sortByCreatedAt. apply elem_of_pushLoop.
Qed.

Lemma migration_merge_ids now local remote k :
  k ∈ habitIds (DataMigration.mergeLocalAndRemote now local remote)
  <-> k ∈ habitIds local \/ k ∈ habitIds remote.
Proof.
  split.
  - intros Hin. unfold habitIds in Hin. apply list_elem_of_fmap in Hin as (h & -> & Hh).
    apply elem_of_migration_merge in Hh as (k & Hk & Hp).
    apply migration_pick_id in Hp as <-. by apply elem_of_allIds.
  - intros Hin.
    assert (Hp : exists h, DataMigration.mergePick (habitMap (HabitsData.habits local))
                   (habitMap (HabitsData.habits remote)) k = Some h).
    { unfold DataMigration.mergePick.
      destruct (JsMap.get k (habitMap (HabitsData.habits local))) eqn:El;
        destruct (JsMap.get k (habitMap (HabitsData.habits remote))) eqn:Er; eauto.
      exfalso. apply get_None_keys in El, Er. rewrite keys_habitMap in El, Er.
      unfold habitIds in Hin. tauto. }
    destruct Hp as [h Hp]. unfold habitIds. apply list_elem_of_fmap. exists h. split.
    + symmetry. by apply migration_pick_id in Hp.
    + apply elem_of_migration_merge. exists k. split; [by apply elem_of_allIds | done].
Qed.

(** X20. The merge of the import keeps, for every id that either side has,
    exactly one record, the local one whenever there is one, whatever the
    modification times; the records are in [createdAt] order; tombstones
    play no part; a settings key comes from the local side when it has
    one, else from the remote side. *)
Theorem import_merge_prefers_local (now : Z) (local remote : HabitsData.t) :
  (forall k, k ∈ habitIds (DataMigration.mergeLocalAndRemote now local remote)
             <-> k ∈ habitIds local \/ k ∈ habitIds remote)
  /\ (forall k l, JsMap.get k (habitMap (HabitsData.habits local)) = Some l ->
        l ∈ HabitsData.habits (DataMigration.mergeLocalAndRemote now local remote))
  /\ NoDup (habitIds (DataMigration.mergeLocalAndRemote now local remote))
  /\ isSortedByCreatedAt
       (HabitsData.habits (DataMigration.mergeLocalAndRemote now local remote)) = true
  /\ (forall key,
        HabitsData.settings (DataMigration.mergeLocalAndRemote now local remote) !! key
        = match HabitsData.settings local !! key with
          | Some v => Some v
          | None => HabitsData.settings remote !! key
          end).
Proof.
  split; [|split; [|split; [|split]]].
  - intros k. apply migration_merge_ids.
  - intros k l Hl. apply elem_of_migration_merge. exists k. split.
    + apply elem_of_allIds. left. apply keys_habitMap. by eapply get_Some_keys.
    + unfold DataMigration.mergePick. rewrite Hl.
      by destruct (JsMap.get k (habitMap (HabitsData.habits remote))).
  - unfold habitIds, DataMigration.mergeLocalAndRemote. simpl.
    rewrite sortByCreatedAt_perm, pushLoop_omap.
    apply NoDup_omap_keyed; [apply NoDup_allIds|]. intros k h. apply migration_pick_id.
  - apply sortByCreatedAt_is_sorted.
  - intros key. unfold DataMigration.mergeLocalAndRemote. simpl.
    rewrite lookup_union. by destruct (HabitsData.settings local !! key),
                               (HabitsData.settings remote !! key).
Qed.

Lemma saveRemoteData_facts env data w :
  World.storage (saveRemoteData env data w).2 = World.storage w
  /\ (exists cs, World.calls (saveRemoteData env data w).2 = World.calls w ++ cs
                 /\ (putAttempts cs <= 1)%nat)
  /\ (forall u, (saveRemoteData env data w).1 = Returned u ->
        Remote.file (World.remote (saveRemoteData env data w).2) = Some data).
Proof.
  unfold saveRemoteData. destruct (World.hasUserAndRepo w); simpl.
  2: { split; [done|]. split; [|done]. exists []. rewrite app_nil_r. split; [done|]. unfold putAttempts. simpl. lia. }
  destruct (Env.putFails env); simpl.
  { split; [done|]. split; [|done]. eexists. split; [reflexivity|].
    unfold putAttempts. simpl. lia. }
  match goal with |- context [remotePut ?d ?t ?r] =>
    destruct (remotePut_result d t r) as [[Hres Hfile]|[Hres Hsame]];
    destruct (remotePut d t r) as [res r3] end; simpl in *.
  - subst res. simpl. split; [done|]. split; [|done].
    eexists. split; [reflexivity|]. unfold putAttempts. simpl. lia.
  - split; [by destruct res|]. split.
    + exists [CallGet; CallPut res]. split; [by destruct res|].
      unfold putAttempts. simpl. lia.
    + intros u. by destruct res.
Qed.

Lemma push_facts env data w :
  World.storage (push env (Some data) w).2 = World.storage w
  /\ (exists cs, World.calls (push env (Some data) w).2 = World.calls w ++ cs
                 /\ (putAttempts cs <= 1)%nat)
  /\ (forall u, (push env (Some data) w).1 = Returned u ->
        Remote.file (World.remote (push env (Some data) w).2) = Some data).
Proof.
  unfold push. destruct (World.authenticated w); simpl.
  2: { split; [done|]. split; [|done]. exists []. rewrite app_nil_r. split; [done|]. unfold putAttempts. simpl. lia. }
  destruct (saveRemoteData_facts env data w) as (Hs & Hc & Hf).
  destruct (saveRemoteData env data w) as [o w1]. simpl in *.
  destruct o as [a|ty msg]; simpl; [|done].
  split; [done|]. split; [done|]. intros u _. by apply (Hf a).
Qed.

(** X21. The import never touches [localStorage] and attempts at most one
    remote write.  Without authentication or without local records it
    does nothing at all.  When it reports success for a non-empty local
    list, the remote file holds a record for the id of every local entry. *)
Theorem import_pushes_every_local_record (env : Env.t) (w : World.t) :
  World.storage (DataMigration.migrateLocalData env w).2 = World.storage w
  /\ (putAttempts (newCalls w (DataMigration.migrateLocalData env w).2) <= 1)%nat
  /\ (World.authenticated w = false \/ DataMigration.hasLocalData (World.storage w) = false ->
      (DataMigration.migrateLocalData env w).2 = w)
  /\ (DataMigration.MigrationResult.success (DataMigration.migrateLocalData env w).1 = true ->
      forall todos t,
        LocalStorage.dailyTodos (World.storage w) = Some todos -> t ∈ todos ->
        exists pushed,
          Remote.file (World.remote (DataMigration.migrateLocalData env w).2) = Some pushed
          /\ Todo.id t ∈ habitIds pushed).
Proof.
  unfold DataMigration.migrateLocalData.
  destruct (World.authenticated w) eqn:Ha; simpl.
  2: { split; [done|]. split; [|split; [done|done]].
       unfold newCalls. rewrite drop_all. unfold putAttempts. simpl. lia. }
  destruct (DataMigration.hasLocalData (World.storage w)) eqn:Hl; simpl.
  2: { split; [done|]. split; [|split; [done|]].
       - unfold newCalls. rewrite drop_all. unfold putAttempts. simpl. lia.
       - intros _ todos t Ht Hin. unfold DataMigration.hasLocalData in Hl. rewrite Ht in Hl.
         destruct todos; [by apply elem_of_nil in Hin | done]. }
  destruct (DataMigration.getRemoteData env w) as [remoteData w1] eqn:Eg.
  assert (Hw1 : World.storage w1 = World.storage w
                /\ exists cs1, World.calls w1 = World.calls w ++ cs1 /\ putAttempts cs1 = 0%nat).
  { unfold DataMigration.getRemoteData in Eg.
    destruct (_ && _); injection Eg as <- <-; simpl; (split; [done|]).
    - by exists [CallGet].
    - exists []. by rewrite app_nil_r. }
  destruct Hw1 as (Hs1 & cs1 & Hc1 & Hp1).
  match goal with |- context [push env (Some ?d) w1] => set (toPush := d) end.
  assert (Hids : forall todos t,
             LocalStorage.dailyTodos (World.storage w) = Some todos -> t ∈ todos ->
             Todo.id t ∈ habitIds toPush).
  { intros todos t Ht Hin.
    assert (Hloc : Todo.id t ∈ habitIds (DataMigration.getLocalHabitsData env (World.storage w))).
    { unfold habitIds, DataMigration.getLocalHabitsData. simpl. rewrite Ht.
      rewrite map_map. simpl. by apply (list_elem_of_fmap_2 Todo.id). }
    subst toPush. destruct (_ <? _)%nat; [|done].
    apply migration_merge_ids. by left. }
  destruct (push_facts env toPush w1) as (Hs & (cs & Hc & Hp) & Hf).
  destruct (push env (Some toPush) w1) as [o w2]. simpl in *.
  assert (Hcalls : newCalls w w2 = cs1 ++ cs).
  { apply newCalls_eq. rewrite Hc, Hc1. by rewrite <- app_assoc. }
  assert (Hput : (putAttempts (cs1 ++ cs) <= 1)%nat).
  { unfold putAttempts in *. rewrite List.filter_app, length_app. lia. }
  destruct o; simpl.
  - split; [congruence|]. split; [by rewrite Hcalls|]. split; [intros [?|?]; done|].
    intros _ todos t Ht Hin. exists toPush. split; [by eapply Hf | by eapply Hids].
  - split; [congruence|]. split; [by rewrite Hcalls|]. split; [intros [?|?]; done | done].
Qed.

Lemma foldl_oldest todos a :
  exists m, foldl DataMigration.oldestStep (Some a) todos = Some m
    /\ m <= a
    /\ Forall (fun t => m <= Todo.createdAt t) todos
    /\ (m = a \/ exists t, t ∈ todos /\ Todo.createdAt t = m).
Proof.
  revert a. induction todos as [|t todos IH]; intros a; simpl.
  - exists a. repeat split; [lia | constructor | by left].
  - destruct (Z.ltb_spec (Todo.createdAt t) a) as [Hlt|Hge].
    + destruct (IH (Todo.createdAt t)) as (m & -> & Hle & Hall & Hm).
      exists m. split; [done|]. split; [lia|]. split; [by constructor|].
      right. destruct Hm as [->|(t' & Ht' & <-)].
      * exists t. split; [apply elem_of_cons; by left | done].
      * exists t'. split; [apply elem_of_cons; by right | done].
    + destruct (IH a) as (m & -> & Hle & Hall & Hm).
      exists m. split; [done|]. split; [done|]. split; [constructor; [lia | done]|].
      destruct Hm as [->|(t' & Ht' & <-)]; [by left|].
      right. exists t'. split; [apply elem_of_cons; by right | done].
Qed.

(** X22. [getLocalDataStats] counts the stored entries and reports as
    oldest date the earliest [createdAt] among them; it reports none only
    for an empty list. *)
Theorem oldest_date_is_earliest (ls : LocalStorage.t) (todos : list Todo.t) :
  LocalStorage.dailyTodos ls = Some todos ->
  (DataMigration.getLocalDataStats ls).1 = length todos
  /\ match (DataMigration.getLocalDataStats ls).2 with
     | None => todos = []
     | Some m =>
         (exists t, t ∈ todos /\ Todo.createdAt t = m)
         /\ Forall (fun t => m <= Todo.createdAt t) todos
     end.
Proof.
  intros Ht. unfold DataMigration.getLocalDataStats. rewrite Ht. simpl. split; [done|].
  destruct todos as [|t todos]; [done|]. simpl.
  destruct (foldl_oldest todos (Todo.createdAt t)) as (m & -> & Hle & Hall & Hm).
  split.
  - destruct Hm as [->|(t' & Ht' & <-)].
    + exists t. split; [apply elem_of_cons; by left | done].
    + exists t'. split; [apply elem_of_cons; by right | done].
  - by constructor.
Qed.

Lemma oldest_date_is_earliest_witness :
  (DataMigration.getLocalDataStats
     (LocalStorage.mk (Some [Todo.mk "2" "walk" true None 200; Todo.mk "1" "read" false None 100;
                             Todo.mk "3" "write" false None 300]) None [] None false)).2
  = Some 100.
Proof.
  destruct (oldest_date_is_earliest
              (LocalStorage.mk (Some [Todo.mk "2" "walk" true None 200;
                                      Todo.mk "1" "read" false None 100;
                                      Todo.mk "3" "write" false None 300]) None [] None false)
              [Todo.mk "2" "walk" true None 200; Todo.mk "1" "read" false None 100;
               Todo.mk "3" "write" false None 300]) as [_ H].
  - reflexivity.
  - reflexivity.
Defined.

(** X23. A backup made by [createLocalBackup] restores the stored list as
    it was, also after [clearLocalData]; the reset date is restored when
    one was stored, and is otherwise left as it is at the time of the
    restore.  No backup is made when no list is stored. *)
Theorem backup_restores_the_list (now : Z) (ls current : LocalStorage.t) :
  match DataMigration.createLocalBackup now ls with
  | None => LocalStorage.dailyTodos ls = None
  | Some b =>
      (DataMigration.restoreFromBackup (Some b) current).1 = true
      /\ LocalStorage.dailyTodos (DataMigration.restoreFromBackup (Some b) current).2
         = LocalStorage.dailyTodos ls
      /\ LocalStorage.lastResetDate (DataMigration.restoreFromBackup (Some b) current).2
         = match LocalStorage.lastResetDate ls with
           | Some d => if String.eqb d "" then LocalStorage.lastResetDate current else Some d
           | None => LocalStorage.lastResetDate current
           end
      /\ LocalStorage.deleted_habits (DataMigration.restoreFromBackup (Some b) current).2
         = LocalStorage.deleted_habits current
  end.
Proof.
  unfold DataMigration.createLocalBackup.
  destruct (LocalStorage.dailyTodos ls) as [todos|]; [|done].
  unfold DataMigration.restoreFromBackup. simpl. done.
Qed.

(** ** Text codecs on arbitrary strings *)

Section CodecFacts.
Import Codec.

(** The scalar values of any string are scalar values, and spelling them
    in UTF-16 gives a string of the same length. *)
Lemma toScalars_scalars (n : nat) : forall s,
  (length s <= n)%nat -> forallb isCodeUnit s = true ->
  Forall (fun cp => isScalar cp = true) (toScalars s)
  /\ length (concat (map utf16EncodeCodePoint (toScalars s))) = length s.
Proof.
  induction n as [|n IH]; intros s Hlen Hcu.
  { destruct s; [simpl; auto | simpl in Hlen; lia]. }
  destruct s as [|u s]; [simpl; auto|].
  simpl in Hcu. apply andb_true_iff in Hcu as [Hu Hcu]. apply isCodeUnit_range in Hu.
  assert (Hfffd : isScalar 0xFFFD = true) by reflexivity.
  simpl toScalars. destruct (isHigh u) eqn:Hh.
  - destruct s as [|l s]; [split; [by constructor | done]|].
    destruct (isLow l) eqn:Hl.
    + simpl in Hcu. apply andb_true_iff in Hcu as [_ Hcu].
      apply isHigh_range in Hh. apply isLow_range in Hl.
      destruct (IH s) as [Hsc Hn]; [simpl in Hlen; lia | done |].
      split.
      * constructor; [|done]. apply isScalar_range. lia.
      * simpl map. simpl concat. rewrite utf16_pair by done. simpl. by rewrite Hn.
    + destruct (IH (l :: s)) as [Hsc Hn]; [simpl in Hlen |- *; lia | done |].
      split; [by constructor|].
      remember (toScalars (l :: s)) as t. simpl. by rewrite Hn.
  - destruct (IH s) as [Hsc Hn]; [simpl in Hlen; lia | done |].
    destruct (isLow u) eqn:Hl.
    + split; [by constructor|]. simpl. by rewrite Hn.
    + assert (~ 0xD800 <= u <= 0xDBFF) by (rewrite <- isHigh_range; congruence).
      assert (~ 0xDC00 <= u <= 0xDFFF) by (rewrite <- isLow_range; congruence).
      split.
      * constructor; [|done]. apply isScalar_range. lia.
      * simpl map. simpl concat. rewrite utf16_single by lia. simpl. by rewrite Hn.
Qed.

Lemma startsWithBOM_toScalars s : startsWithBOM (toScalars s) = startsWithBOM s.
Proof.
  destruct s as [|u s]; [done|]. simpl. destruct (isHigh u) eqn:Hh.
  - apply isHigh_range in Hh. rewrite (proj2 (Z.eqb_neq u _)) by lia.
    destruct s as [|l s]; [done|]. destruct (isLow l) eqn:Hl; [|done].
    apply isLow_range in Hl. simpl. apply Z.eqb_neq. lia.
  - destruct (isLow u) eqn:Hl; [|done].
    apply isLow_range in Hl. simpl. by rewrite (proj2 (Z.eqb_neq u _)) by lia.
Qed.

(** A string the spelling of its scalar values leaves as it is has no
    unpaired surrogate. *)
Lemma utf16_toScalars_fixed (n : nat) : forall s,
  (length s <= n)%nat -> forallb isCodeUnit s = true ->
  concat (map utf16EncodeCodePoint (toScalars s)) = s -> wellFormed s = true.
Proof.
  induction n as [|n IH]; intros s Hlen Hcu Hfix.
  { destruct s; [done | simpl in Hlen; lia]. }
  destruct s as [|u s]; [done|].
  simpl in Hcu. apply andb_true_iff in Hcu as [Hu Hcu]. apply isCodeUnit_range in Hu.
  simpl toScalars in Hfix. simpl wellFormed. destruct (isHigh u) eqn:Hh.
  - apply isHigh_range in Hh. destruct s as [|l s].
    { simpl in Hfix. injection Hfix as Hfix. lia. }
    simpl in Hcu. apply andb_true_iff in Hcu as [_ Hcu].
    destruct (isLow l) eqn:Hl.
    + apply isLow_range in Hl. simpl map in Hfix. simpl concat in Hfix.
      rewrite utf16_pair in Hfix by done. simpl in Hfix. injection Hfix as Hfix.
      simpl. apply (IH s); [simpl in Hlen; lia | done | done].
    + simpl in Hfix. injection Hfix as Hfix _. lia.
  - destruct (isLow u) eqn:Hl.
    + apply isLow_range in Hl. simpl in Hfix. injection Hfix as Hfix _. lia.
    + simpl map in Hfix. simpl concat in Hfix.
      rewrite utf16_single in Hfix by lia. simpl in Hfix. injection Hfix as Hfix.
      simpl. apply (IH s); [simpl in Hlen; lia | done | done].
Qed.

(** The strings that survive being spelt as scalar values, a leading
    U+FEFF dropped, and spelt back. *)
Lemma respelling_fixed_iff s :
  forallb isCodeUnit s = true ->
  concat (map utf16EncodeCodePoint (stripBOM (toScalars s))) = s
  <-> wellFormed s = true /\ startsWithBOM s = false.
Proof.
  intros Hcu. split.
  - intros Hfix. destruct (startsWithBOM s) eqn:Hbom.
    + exfalso. destruct s as [|u s]; [done|]. simpl in Hbom. apply Z.eqb_eq in Hbom as ->.
      simpl in Hcu. simpl in Hfix.
      destruct (toScalars_scalars (length s) s) as [_ Hn]; [lia | done |].
      apply (f_equal length) in Hfix. rewrite Hn in Hfix. simpl in Hfix. lia.
    + split; [|done]. rewrite stripBOM_none in Hfix by by rewrite startsWithBOM_toScalars.
      by apply (utf16_toScalars_fixed (length s)).
  - intros [Hwf Hbom].
    destruct (toScalars_wellFormed (length s) s) as (_ & Hrt & Hb); [lia | done | done |].
    rewrite stripBOM_none by congruence. exact Hrt.
Qed.

(** Decoding the UTF-8 bytes of any string. *)
Lemma textDecode_textEncode_any s :
  forallb isCodeUnit s = true ->
  textDecode (textEncode s) = concat (map utf16EncodeCodePoint (stripBOM (toScalars s)))
  /\ Forall (fun b => 0 <= b <= 255) (textEncode s).
Proof.
  intros Hcu. destruct (toScalars_scalars (length s) s) as [Hsc _]; [lia | done |].
  unfold textDecode, textEncode. split; [|by apply utf8_encode_bytes].
  by rewrite utf8_decode_encode.
Qed.

Lemma filter_whitespace_removeNewlines x :
  List.filter (fun c => negb (isAsciiWhitespace c)) (removeNewlines x)
  = List.filter (fun c => negb (isAsciiWhitespace c)) x.
Proof.
  unfold removeNewlines. induction x as [|c x IH]; [done|]. simpl.
  destruct (Z.eqb_spec c 10) as [->|Hne]; simpl; [done|].
  destruct (negb (isAsciiWhitespace c)); by rewrite IH.
Qed.

Lemma atob_whitespace x y :
  List.filter (fun c => negb (isAsciiWhitespace c)) x
  = List.filter (fun c => negb (isAsciiWhitespace c)) y ->
  atob x = atob y.
Proof. intros H. unfold atob. by rewrite H. Qed.

Lemma btoa_shape bs e :
  btoa bs = Some e ->
  (length e mod 4 = 0)%nat
  /\ Forall (fun c => is_Some (b64index c) \/ c = padChar) e
  /\ List.filter (fun c => negb (isAsciiWhitespace c)) e = e.
Proof.
  unfold btoa. destruct (forallb isByte bs) eqn:Hb; [|done]. intros [= <-].
  apply forallb_isByte in Hb.
  destruct (base64Encode_shape bs Hb) as (sx & p & -> & Hsx & _ & k & Hshape).
  split; [|split].
  - rewrite length_app, length_map, length_replicate.
    destruct Hshape as [[-> ->]|[[-> ->]|[-> ->]]].
    + rewrite Nat.add_0_r. apply mod4_mul.
    + replace (4 * k + 3 + 1)%nat with (4 * S k)%nat by lia. apply mod4_mul.
    + replace (4 * k + 2 + 2)%nat with (4 * S k)%nat by lia. apply mod4_mul.
  - apply Forall_app. split.
    + apply Forall_map. eapply Forall_impl; [exact Hsx|]. intros x Hx. simpl.
      left. rewrite b64index_b64char by done. by eexists.
    + apply Forall_replicate. by right.
  - apply filter_all. eapply Forall_impl; [by apply base64_chars_plain|]. by intros c [? _].
Qed.

End CodecFacts.

Section FatalDecoder.
Import Codec EncodingUtils.

Lemma fatal_step st b bs :
  decHandlerFatal st b = Some (decHandler st b) ->
  utf8DecodeFatalFrom st (b :: bs)
  = app (decHandler st b).1 <$> utf8DecodeFatalFrom (decHandler st b).2 bs.
Proof.
  intros H. cbn [utf8DecodeFatalFrom]. rewrite H. destruct (decHandler st b) as [out st'].
  simpl. by destruct (utf8DecodeFatalFrom st' bs).
Qed.

Lemma fatal_lead b :
  leadByteValid b = true -> decHandlerFatal decInit b = Some (decHandler decInit b).
Proof. intros H. unfold decHandlerFatal, decHandler. simpl. by rewrite H. Qed.

Lemma fatal_cont c seen needed lo hi b :
  needed <> 0 -> lo <= b <= hi ->
  decHandlerFatal (mkDec c seen needed lo hi) b
  = Some (decHandler (mkDec c seen needed lo hi) b).
Proof.
  intros Hn Hb. unfold decHandlerFatal. simpl.
  rewrite (proj2 (Z.eqb_neq needed 0)) by done.
  rewrite (proj2 (Z.leb_le lo b)) by lia. by rewrite (proj2 (Z.leb_le b hi)) by lia.
Qed.

Ltac lead_valid := apply fatal_lead; unfold leadByteValid; zcmp; reflexivity.

Ltac in_bounds :=
  repeat match goal with
    | |- context [Z.eqb ?a ?b] => destruct (Z.eqb_spec a b)
    end; divmod_lia.

(** The fatal decoder accepts the encoding of a scalar value. *)
Lemma fatal_decode_encoded cp rest :
  isScalar cp = true ->
  utf8DecodeFatalFrom decInit (utf8EncodeCodePoint cp ++ rest)
  = cons cp <$> utf8DecodeFatalFrom decInit rest.
Proof.
  intros Hs. apply isScalar_range in Hs as [Hr Hns].
  rewrite utf8EncodeCodePoint_arith by lia.
  destruct (Z.leb_spec cp 0x7F).
  { simpl app. rewrite fatal_step by lead_valid. rewrite lead_ascii by lia.
    simpl. by destruct (utf8DecodeFatalFrom decInit rest). }
  destruct (Z.leb_spec cp 0x7FF).
  { simpl app. rewrite fatal_step by lead_valid. rewrite lead_two by divmod_lia.
    simpl fst. simpl snd.
    rewrite fatal_step by (apply fatal_cont; divmod_lia).
    rewrite continuation_last by divmod_lia. simpl fst. simpl snd.
    destruct (utf8DecodeFatalFrom decInit rest); [|done]. simpl. do 2 f_equal. divmod_lia. }
  destruct (Z.leb_spec cp 0xFFFF).
  { simpl app. rewrite fatal_step by lead_valid. rewrite lead_three by divmod_lia.
    simpl fst. simpl snd.
    rewrite fatal_step by (apply fatal_cont; [lia | in_bounds]).
    rewrite continuation_more; [| lia | in_bounds | lia].
    simpl fst. simpl snd.
    rewrite fatal_step by (apply fatal_cont; divmod_lia).
    rewrite continuation_last by divmod_lia. simpl fst. simpl snd.
    destruct (utf8DecodeFatalFrom decInit rest); [|done]. simpl. do 2 f_equal. divmod_lia. }
  simpl app. rewrite fatal_step by lead_valid. rewrite lead_four by divmod_lia.
  simpl fst. simpl snd.
  rewrite fatal_step by (apply fatal_cont; [lia | in_bounds]).
  rewrite continuation_more; [| lia | in_bounds | lia].
  simpl fst. simpl snd.
  rewrite fatal_step by (apply fatal_cont; divmod_lia).
  rewrite continuation_more by divmod_lia. simpl fst. simpl snd.
  rewrite fatal_step by (apply fatal_cont; divmod_lia).
  rewrite continuation_last by divmod_lia. simpl fst. simpl snd.
  destruct (utf8DecodeFatalFrom decInit rest); [|done]. simpl. do 2 f_equal. divmod_lia.
Qed.

Lemma utf8_decode_fatal_encode cps :
  Forall (fun cp => isScalar cp = true) cps ->
  utf8DecodeFatalFrom decInit (concat (map utf8EncodeCodePoint cps)) = Some cps.
Proof.
  induction 1 as [|cp cps Hcp _ IH]; [done|].
  simpl. by rewrite fatal_decode_encoded, IH.
Qed.

End FatalDecoder.

Section CodecBeyondWellFormed.
Import Codec.

(** What decoding returns for the Base64 text of any string, whatever
    white space the text has picked up. *)
Lemma decode_encoded_text s e received :
  forallb isCodeUnit s = true ->
  encodeToBase64 s = Some e ->
  List.filter (fun c => negb (isAsciiWhitespace c)) received = e ->
  decodeFromBase64 received = Some (textDecode (textEncode s)).
Proof.
  intros Hcu He Hrecv. unfold encodeToBase64 in He. cbv zeta in He.
  destruct (atob_btoa _ _ He) as [Hatob Hbytes].
  destruct (btoa_shape _ _ He) as (_ & _ & Hplain).
  unfold decodeFromBase64. cbv zeta.
  rewrite (atob_whitespace (removeNewlines received) (removeNewlines e)).
  2: { rewrite !filter_whitespace_removeNewlines. by rewrite Hrecv, Hplain. }
  by rewrite Hatob, Hbytes.
Qed.

(** X24. [encodeToBase64] returns a text for every string, also one with
    unpaired surrogates: its length is a multiple of four and it is made
    of the Base64 alphabet and [=].  [encodeUTF8ToBase64] returns the same
    text, except that it throws for a string with an unpaired surrogate
    whose bytes exceed the argument limit of the engine. *)
Theorem encoding_never_throws (s : list Z) :
  forallb isCodeUnit s = true ->
  exists e,
    encodeToBase64 s = Some e
    /\ (length e mod 4 = 0)%nat
    /\ Forall (fun c => is_Some (b64index c) \/ c = padChar) e
    /\ forall spreadLimit,
         encodeUTF8ToBase64 spreadLimit s
         = if (length (textEncode s) <=? spreadLimit)%nat || wellFormed s
           then Some e else None.
Proof.
  intros Hcu. destruct (textDecode_textEncode_any s Hcu) as [_ Hb].
  apply forallb_isByte in Hb.
  assert (He : encodeToBase64 s = Some (base64Encode (textEncode s))).
  { unfold encodeToBase64, btoa. cbv zeta. by rewrite Hb. }
  exists (base64Encode (textEncode s)). split; [done|].
  destruct (btoa_shape (textEncode s) (base64Encode (textEncode s))) as (Hlen & Hchars & _).
  { unfold btoa. by rewrite Hb. }
  split; [done|]. split; [done|].
  intros spreadLimit. unfold encodeUTF8ToBase64, btoa. cbv zeta. rewrite Hb.
  destruct (length (textEncode s) <=? spreadLimit)%nat; [done|]. simpl.
  by destruct (wellFormed s).
Qed.

Lemma encoding_never_throws_witness :
  exists e,
    Codec.encodeToBase64 [0xD800] = Some e
    /\ (length e mod 4 = 0)%nat
    /\ Forall (fun c => is_Some (Codec.b64index c) \/ c = Codec.padChar) e
    /\ forall spreadLimit,
         Codec.encodeUTF8ToBase64 spreadLimit [0xD800]
         = if (length (Codec.textEncode [0xD800%Z]) <=? spreadLimit)%nat
              || Codec.wellFormed [0xD800]
           then Some e else None.
Proof. apply (encoding_never_throws [0xD800]). reflexivity. Defined.

(** X25. Decoding the Base64 text of any string, with whatever white space
    (the line breaks of the GitHub API included) added to it, returns the
    string with every unpaired surrogate replaced by U+FFFD and a leading
    U+FEFF dropped; both decoders agree. *)
Theorem decoding_ignores_line_breaks (s e received : list Z) :
  forallb isCodeUnit s = true ->
  encodeToBase64 s = Some e ->
  List.filter (fun c => negb (isAsciiWhitespace c)) received = e ->
  decodeFromBase64 received
  = Some (concat (map utf16EncodeCodePoint (stripBOM (toScalars s))))
  /\ decodeBase64ToUTF8 received = decodeFromBase64 received.
Proof.
  intros Hcu He Hrecv. split; [|reflexivity].
  rewrite (decode_encoded_text s e received) by done.
  f_equal. by apply textDecode_textEncode_any.
Qed.

Lemma decoding_ignores_line_breaks_witness :
  Codec.decodeFromBase64 [55; 55; 117; 47; 10; 55; 55; 43; 57; 32; 89; 81; 61; 61; 10]
  = Some [0xFFFD; 0x61].
Proof.
  destruct (decoding_ignores_line_breaks [0xFEFF; 0xD83D; 0x61]
              [55; 55; 117; 47; 55; 55; 43; 57; 89; 81; 61; 61]
              [55; 55; 117; 47; 10; 55; 55; 43; 57; 32; 89; 81; 61; 61; 10])
    as [H _]; [reflexivity | reflexivity | reflexivity |].
  exact H.
Defined.

(** X26. Decoding the Base64 text of a string returns that very string
    exactly when the string has no unpaired surrogate and does not begin
    with U+FEFF. *)
Theorem round_trip_exact_iff (s e : list Z) :
  forallb isCodeUnit s = true ->
  encodeToBase64 s = Some e ->
  decodeFromBase64 e = Some s <-> wellFormed s = true /\ startsWithBOM s = false.
Proof.
  intros Hcu He.
  destruct (btoa_shape (textEncode s) e) as (_ & _ & Hplain); [exact He|].
  rewrite (decode_encoded_text s e e) by done.
  rewrite (proj1 (textDecode_textEncode_any s Hcu)).
  rewrite <- (respelling_fixed_iff s Hcu). split; [by intros [= ->] | by intros ->].
Qed.

Lemma round_trip_exact_iff_witness :
  Codec.decodeFromBase64 [53; 76; 105; 116] = Some [0x4E2D].
Proof.
  apply (proj2 (round_trip_exact_iff [0x4E2D] [53; 76; 105; 116] eq_refl eq_refl)).
  split; reflexivity.
Defined.

End CodecBeyondWellFormed.

Section EncodingUtilsFacts.
Import Codec EncodingUtils.

(** X27. [isValidUTF8] accepts a string exactly when it has no unpaired
    surrogate and does not begin with U+FEFF. *)
Theorem valid_utf8_iff_well_formed (text : list Z) :
  forallb isCodeUnit text = true ->
  isValidUTF8 text = true <-> wellFormed text = true /\ startsWithBOM text = false.
Proof.
  intros Hcu. destruct (toScalars_scalars (length text) text) as [Hsc _]; [lia | done |].
  unfold isValidUTF8, textDecodeFatal, textEncode.
  rewrite utf8_decode_fatal_encode by done.
  rewrite bool_decide_eq_true. by apply respelling_fixed_iff.
Qed.

Lemma valid_utf8_iff_well_formed_witness :
  EncodingUtils.isValidUTF8 [0x4E2D; 0xD83D; 0xDE00] = true.
Proof.
  apply (proj2 (valid_utf8_iff_well_formed [0x4E2D; 0xD83D; 0xDE00] eq_refl)).
  split; reflexivity.
Defined.

(** X28. [fixCorruptedText] returns every string without unpaired
    surrogate and not beginning with U+FEFF as it is, whether or not the
    string holds an [â] or an [Ã]: UTF-8 text that was read as Latin-1 is
    such a string and is not repaired. *)
Theorem fix_leaves_well_formed_text (text : list Z) :
  forallb isCodeUnit text = true ->
  wellFormed text = true ->
  startsWithBOM text = false ->
  fixCorruptedText text = text.
Proof.
  intros Hcu Hwf Hbom. unfold fixCorruptedText.
  destruct (includesUnit 0xE2 text || includesUnit 0xC3 text); [|done].
  by apply textDecode_textEncode.
Qed.

Lemma fix_leaves_well_formed_text_witness :
  EncodingUtils.fixCorruptedText [0xC3; 0xA4; 0xC2; 0xB8; 0xC2; 0xAD]
  = [0xC3; 0xA4; 0xC2; 0xB8; 0xC2; 0xAD].
Proof.
  apply (fix_leaves_well_formed_text [0xC3; 0xA4; 0xC2; 0xB8; 0xC2; 0xAD]); reflexivity.
Defined.

End EncodingUtilsFacts.

(** ** Backup file names *)

Section BackupNameFacts.
Import BackupNames.

Lemma timeAt_same s replacement rest :
  timeAt s = Some (replacement, rest) -> replacement ++ rest = s.
Proof.
  unfold timeAt.
  destruct s as [|t [|a [|b [|c1 [|d [|e [|c2 [|f [|g rest']]]]]]]]]; try done.
  destruct (_ && _) eqn:H; [|done]. intros [= <- <-].
  repeat (apply andb_true_iff in H as [H ?]).
  repeat match goal with
    | H : (_ =? _) = true |- _ => apply Z.eqb_eq in H
    end.
  subst. reflexivity.
Qed.

(** The replacement ['T$1:$2:$3'] writes the match back. *)
Lemma replaceTime_same s : replaceTime s = s.
Proof.
  induction s as [|c s IH]; [done|].
  change (replaceTime (c :: s))
    with (match timeAt (c :: s) with
          | Some (replacement, rest) => replacement ++ rest
          | None => c :: replaceTime s
          end).
  destruct (timeAt (c :: s)) as [[replacement rest]|] eqn:E.
  - by apply timeAt_same.
  - by rewrite IH.
Qed.

Lemma dashesToColons_after ts :
  dashesToColons (colonsAndDotsToDashes ts) = allToColons ts.
Proof.
  unfold dashesToColons, colonsAndDotsToDashes, allToColons. rewrite map_map.
  apply map_ext. intros c. unfold dash, colon, dot.
  destruct (Z.eqb_spec c 58), (Z.eqb_spec c 46), (Z.eqb_spec c 45); subst; simpl; try done.
  by rewrite (proj2 (Z.eqb_neq c 45)).
Qed.

Lemma matchBackupAt_name x :
  x <> [] -> forallb (fun c => negb (isLineTerminator c)) x = true ->
  matchBackupAt (backupPrefix ++ x ++ jsonSuffix) = Some x.
Proof.
  intros Hne Hlt. unfold matchBackupAt.
  change (startsWith backupPrefix (backupPrefix ++ x ++ jsonSuffix)) with true.
  change (drop (length backupPrefix) (backupPrefix ++ x ++ jsonSuffix))
    with (x ++ jsonSuffix).
  cbv zeta. rewrite length_app.
  assert (Hlen : (length jsonSuffix <? length x + length jsonSuffix)%nat = true).
  { apply Nat.ltb_lt. destruct x; [done | simpl; lia]. }
  rewrite Hlen.
  replace (length x + length jsonSuffix - length jsonSuffix)%nat with (length x) by lia.
  rewrite take_app_length, drop_app_length, Hlt.
  by rewrite bool_decide_eq_true_2.
Qed.

Lemma map_fixed {A} (f : A -> A) (l : list A) (x : A) :
  map f l = l -> x ∈ l -> f x = x.
Proof.
  induction l as [|y l IH]; intros Hmap Hin; [by apply elem_of_nil in Hin|].
  simpl in Hmap. injection Hmap as Hy Hl.
  apply elem_of_cons in Hin as [->|Hin]; [done | by apply IH].
Qed.

(** X29. From the name [createBackup] gives a backup,
    [extractTimestampFromFileName] reads the timestamp with every [-], [:]
    and [.] turned into [:]: never the timestamp the backup was made at,
    when that has a [-] or a [.] as an ISO timestamp does. *)
Theorem backup_name_timestamp (nowIso timestamp : list Z) :
  timestamp <> [] ->
  forallb (fun c => negb (isLineTerminator c)) timestamp = true ->
  extractTimestampFromFileName nowIso (backupFileName timestamp) = allToColons timestamp
  /\ ((dash ∈ timestamp) \/ (dot ∈ timestamp) ->
      extractTimestampFromFileName nowIso (backupFileName timestamp) <> timestamp).
Proof.
  intros Hne Hlt.
  assert (Hx : extractTimestampFromFileName nowIso (backupFileName timestamp)
               = allToColons timestamp).
  { unfold extractTimestampFromFileName, backupFileName.
    assert (Hm : matchBackup (backupPrefix ++ colonsAndDotsToDashes timestamp ++ jsonSuffix)
                 = Some (colonsAndDotsToDashes timestamp)).
    { change (backupPrefix ++ colonsAndDotsToDashes timestamp ++ jsonSuffix)
        with (98 :: drop 1 backupPrefix ++ colonsAndDotsToDashes timestamp ++ jsonSuffix).
      cbn [matchBackup].
      change (98 :: drop 1 backupPrefix ++ colonsAndDotsToDashes timestamp ++ jsonSuffix)
        with (backupPrefix ++ colonsAndDotsToDashes timestamp ++ jsonSuffix).
      rewrite matchBackupAt_name; [done | by destruct timestamp |].
      unfold colonsAndDotsToDashes. rewrite forallb_forall in Hlt |- *.
      intros c Hc. apply in_map_iff in Hc as (c0 & <- & Hc0).
      destruct ((c0 =? colon) || (c0 =? dot)); [done | by apply Hlt]. }
    rewrite Hm. by rewrite replaceTime_same, dashesToColons_after. }
  split; [done|]. rewrite Hx. intros Hin Hsame.
  destruct Hin as [Hin|Hin]; apply (map_fixed _ _ _ Hsame) in Hin; done.
Qed.

Lemma backup_name_timestamp_witness :
  BackupNames.extractTimestampFromFileName []
    (BackupNames.backupFileName
       [50; 48; 50; 52; 45; 48; 49; 45; 48; 50; 84; 48; 51; 58; 48; 52; 58; 48; 53; 46;
        54; 55; 56; 90])
  = [50; 48; 50; 52; 58; 48; 49; 58; 48; 50; 84; 48; 51; 58; 48; 52; 58; 48; 53; 58;
     54; 55; 56; 90].
Proof.
  destruct (backup_name_timestamp []
              [50; 48; 50; 52; 45; 48; 49; 45; 48; 50; 84; 48; 51; 58; 48; 52; 58; 48; 53; 46;
               54; 55; 56; 90]) as [H _]; [done | reflexivity |].
  exact H.
Defined.

End BackupNameFacts.

(** ** Deleting in the page and synchronising *)

(** X30. [deleteTodo] of the page removes the entry from [dailyTodos] and
    records no tombstone.  So when the remote file still holds a record of
    that id, the next cycle that reports success has put an entry of that
    id back into [dailyTodos]. *)
Theorem deleted_entry_returns_with_sync (env : Env.t) (w : World.t)
    (todos : list Todo.t) (k : string) (remote : HabitsData.t) (r : SyncResult.t) :
  Remote.file (World.remote w) = Some remote ->
  Env.readFails env = false ->
  k ∈ habitIds remote ->
  k ∉ getDeletedHabitsIds (LocalStorage.deleted_habits (World.storage w)) ->
  (sync env (withStorage (Page.deleteTodo k todos (World.storage w)).2 w)).1 = Returned r ->
  SyncResult.success r = true ->
  (k ∉ map Todo.id (Page.deleteTodo k todos (World.storage w)).1)
  /\ LocalStorage.dailyTodos (Page.deleteTodo k todos (World.storage w)).2
     = Some (Page.deleteTodo k todos (World.storage w)).1
  /\ LocalStorage.deleted_habits (Page.deleteTodo k todos (World.storage w)).2
     = LocalStorage.deleted_habits (World.storage w)
  /\ exists after,
       LocalStorage.dailyTodos
         (World.storage
            (sync env (withStorage (Page.deleteTodo k todos (World.storage w)).2 w)).2)
       = Some after
       /\ k ∈ map Todo.id after.
Proof.
  intros Hfile Hread Hin Hnd Hret Hsucc.
  split; [|split; [done|split; [done|]]].
  - simpl. intros Hk. apply list_elem_of_fmap in Hk as (t & -> & Ht).
    apply list_elem_of_In, filter_In in Ht as [_ Ht].
    by rewrite String.eqb_refl in Ht.
  - destruct (sync_success_facts env _ r Hret Hsucc) as (_ & _ & Htodos & _).
    eexists. split; [exact Htodos|].
    rewrite map_map. simpl.
    apply (untombstoned_present _ _ _ _ k); [exact Hnd|].
    right. unfold readRemote. simpl. by rewrite Hread, Hfile.
Qed.

Lemma deleted_entry_returns_with_sync_witness :
  exists after,
    LocalStorage.dailyTodos
      (World.storage
         (sync quietEnv
            (withStorage
               (Page.deleteTodo "1" [Todo.mk "1" "read" false (Some false) 100]
                  (World.storage sampleWorld)).2 sampleWorld)).2)
    = Some after
    /\ "1" ∈ map Todo.id after.
Proof.
  destruct (deleted_entry_returns_with_sync quietEnv sampleWorld
              [Todo.mk "1" "read" false (Some false) 100] "1"
              (snapshotOf 900 [habit1] ∅) (SyncResult.mk true [] 5000 1 false))
    as (_ & _ & _ & H).
  - reflexivity.
  - reflexivity.
  - vm_compute. repeat constructor.
  - vm_compute. intros H. inversion H.
  - vm_compute. reflexivity.
  - reflexivity.
  - exact H.
Defined.

(** ** Merging a snapshot with itself *)

Lemma merged_ids_NoDup now store local remote :
  NoDup (habitIds (mergeData now store local remote).1).
Proof.
  unfold habitIds. rewrite mergeData_habits, sortByCreatedAt_perm.
  unfold mergedHabits. rewrite pushLoop_omap.
  apply NoDup_omap_keyed; [apply NoDup_allIds|].
  intros k h Hp. by apply mergePick_id in Hp as [? _].
Qed.

(** C9 (as amended). Merging a snapshot with itself finds no conflict.  The
    merged result is the snapshot with its records in [createdAt] order and
    [lastSync] set to the merge time, as for every merge, exactly when the
    ids of the snapshot are distinct and none of them has a tombstone; when
    the records are in [createdAt] order already, it is the snapshot itself
    with the new [lastSync]. *)
Theorem self_merge_up_to_lastSync (now : Z) (store : list Tombstone.t) (s : HabitsData.t) :
  detectConflicts s s = []
  /\ ((mergeData now store s s).1
        = HabitsData.mk (HabitsData.version s) now (HabitsData.lastResetDate s)
            (sortByCreatedAt (HabitsData.habits s)) (HabitsData.settings s)
      <-> NoDup (habitIds s)
          /\ forall k, k ∈ habitIds s -> k ∉ getDeletedHabitsIds store)
  /\ (NoDup (habitIds s) ->
      (forall k, k ∈ habitIds s -> k ∉ getDeletedHabitsIds store) ->
      isSortedByCreatedAt (HabitsData.habits s) = true ->
      (mergeData now store s s).1 = withLastSync now s).
Proof.
  split; [apply detectConflicts_self|].
  assert (Hif : NoDup (habitIds s) ->
                (forall k, k ∈ habitIds s -> k ∉ getDeletedHabitsIds store) ->
                (mergeData now store s s).1
                = HabitsData.mk (HabitsData.version s) now (HabitsData.lastResetDate s)
                    (sortByCreatedAt (HabitsData.habits s)) (HabitsData.settings s)).
  { intros Hnd Hd. unfold mergeData. simpl. rewrite Z.leb_refl.
    by rewrite (mergedHabits_self _ _ _ Hnd Hd). }
  split; [split|].
  - intros Heq. apply (f_equal HabitsData.habits) in Heq. simpl in Heq. split.
    + pose proof (merged_ids_NoDup now store s s) as Hnd.
      unfold habitIds in Hnd |- *. rewrite mergeData_habits, Heq in Hnd.
      by rewrite sortByCreatedAt_perm in Hnd.
    + intros k Hk Hdel. apply (tombstoned_absent now store s s k Hdel).
      unfold habitIds in Hk |- *. rewrite mergeData_habits, Heq.
      apply list_elem_of_fmap in Hk as (h & -> & Hh).
      apply list_elem_of_fmap_2. by apply elem_of_sortByCreatedAt.
  - intros [Hnd Hd]. by apply Hif.
  - intros Hnd Hd Hs. rewrite (Hif Hnd Hd). unfold withLastSync.
    by rewrite (sortByCreatedAt_sorted _ Hs).
Qed.

Lemma self_merge_up_to_lastSync_witness :
  (mergeData 50 [Tombstone.mk "9" 40]
     (snapshotOf 10 [habit2; habit1; habit3] darkTheme)
     (snapshotOf 10 [habit2; habit1; habit3] darkTheme)).1
  = snapshotOf 50 [habit1; habit2; habit3] darkTheme.
Proof.
  apply (proj2 (proj1 (proj2 (self_merge_up_to_lastSync 50 [Tombstone.mk "9" 40]
                                (snapshotOf 10 [habit2; habit1; habit3] darkTheme))))).
  split; [compute_done|].
  intros k Hin Hk. apply elem_of_deletedIds in Hk as (t & Ht & <-).
  apply list_elem_of_singleton in Ht. subst t. revert Hin. compute_done.
Defined.

(** C9 does not hold for every snapshot, also when the order of the
    records and [lastSync] are left aside: of two records with one id the
    self-merge keeps only the last, and it drops a record whose id has a
    tombstone.  Both snapshots below are in [createdAt] order and are
    merged at the time of their [lastSync]. *)
Lemma self_merge_drops_records :
  isSortedByCreatedAt [habit1; habit1remote; habit2] = true
  /\ detectConflicts (snapshotOf 10 [habit1; habit1remote; habit2] ∅)
                     (snapshotOf 10 [habit1; habit1remote; habit2] ∅) = []
  /\ (mergeData 10 [] (snapshotOf 10 [habit1; habit1remote; habit2] ∅)
                      (snapshotOf 10 [habit1; habit1remote; habit2] ∅)).1
     = snapshotOf 10 [habit1remote; habit2] ∅
  /\ (mergeData 10 [Tombstone.mk "1" 5] (snapshotOf 10 [habit1; habit2] ∅)
                                        (snapshotOf 10 [habit1; habit2] ∅)).1
     = snapshotOf 10 [habit2] ∅.
Proof.
  split; [reflexivity|]. split; [apply detectConflicts_self|].
  split; vm_compute; reflexivity.
Qed.

(** ** Resolving conflicts: what is written *)

(** When [resolveConflicts] returns a snapshot, that snapshot is the one
    built from the local snapshot read again, and it has been written to
    the remote file and to both local copies. *)
Lemma resolveConflicts_returned env conflicts resolutions w resolved :
  (SyncManager.resolveConflicts env conflicts resolutions w).1 = Some (Returned resolved) ->
  resolveConflicts (Env.now env) conflicts resolutions (getLocalData env w) = Some resolved
  /\ Remote.file (World.remote (SyncManager.resolveConflicts env conflicts resolutions w).2)
     = Some resolved
  /\ LocalStorage.habits_data
       (World.storage (SyncManager.resolveConflicts env conflicts resolutions w).2)
     = Some resolved
  /\ LocalStorage.dailyTodos
       (World.storage (SyncManager.resolveConflicts env conflicts resolutions w).2)
     = Some (map todoOfHabit (HabitsData.habits resolved))
  /\ SyncState.status
       (World.syncState (SyncManager.resolveConflicts env conflicts resolutions w).2)
     = Success.
Proof.
  unfold SyncManager.resolveConflicts, resolveConflicts.
  destruct (negb _) eqn:Hlen; [done|].
  unfold getRemoteData. destruct (World.hasUserAndRepo w) eqn:Hu; cbn [negb]; [|done].
  cbv zeta.
  match goal with |- context [saveBoth env ?d ?w1] =>
    destruct (saveBoth_effects env d w1) as (Htodos & _ & _ & Hcases); [exact Hu|];
    destruct (saveBoth env d w1) as [o w2] end.
  simpl in Htodos, Hcases.
  destruct Hcases as [([u ->] & Hfile & Hdata)|([ty [msg ->]] & _)]; [|done].
  simpl. intros [= <-]. done.
Qed.

Lemma resolveStep_values now (known : string -> Prop) m c res :
  (forall h, ConflictInfo.local c = Some h \/ ConflictInfo.remote c = Some h ->
             known (HabitItem.id h)) ->
  (forall k v, (k, v) ∈ m -> known (HabitItem.id v)) ->
  forall k v, (k, v) ∈ resolveStep now m (c, res) -> known (HabitItem.id v).
Proof.
  intros Hc Hm k v. unfold resolveStep. simpl.
  destruct res; try apply Hm.
  - destruct (ConflictInfo.remote c) as [r|] eqn:Er.
    + intros Hin. apply elem_of_set in Hin as [[= -> ->]|Hin]; [|by eapply Hm].
      apply Hc. by right.
    + intros Hin. apply elem_of_delete in Hin. by eapply Hm.
  - destruct (ConflictInfo.local c) as [l|] eqn:El; [|apply Hm].
    destruct (ConflictInfo.remote c) as [r|] eqn:Er; [|apply Hm].
    intros Hin. apply elem_of_set in Hin as [[= -> ->]|Hin]; [|by eapply Hm].
    unfold mergeHabitItems. simpl. destruct (_ <=? _); apply Hc; auto.
Qed.

Lemma resolve_foldl_values now (known : string -> Prop) crs m :
  Forall (fun cr : ConflictInfo.t * ConflictResolution =>
            forall h, ConflictInfo.local cr.1 = Some h \/ ConflictInfo.remote cr.1 = Some h ->
                      known (HabitItem.id h)) crs ->
  (forall k v, (k, v) ∈ m -> known (HabitItem.id v)) ->
  forall k v, (k, v) ∈ foldl (resolveStep now) m crs -> known (HabitItem.id v).
Proof.
  intros Hall. revert m. induction Hall as [|[c res] crs Hc _ IH]; intros m Hm; simpl.
  - exact Hm.
  - apply IH. by apply resolveStep_values.
Qed.

(** The ids of a resolved snapshot are ids of the local snapshot or of
    records the conflicts carry. *)
Lemma resolved_ids_known now (known : string -> Prop) conflicts resolutions localData resolved :
  (forall c h, c ∈ conflicts ->
     ConflictInfo.local c = Some h \/ ConflictInfo.remote c = Some h ->
     known (HabitItem.id h)) ->
  (forall k, k ∈ habitIds localData -> known k) ->
  resolveConflicts now conflicts resolutions localData = Some resolved ->
  forall k, k ∈ habitIds resolved -> known k.
Proof.
  intros Hc Hl. unfold resolveConflicts.
  destruct (negb _); [done|]. intros [= <-] k Hin.
  unfold habitIds in Hin. simpl in Hin. unfold JsMap.values in Hin.
  apply list_elem_of_fmap in Hin as (h & -> & Hh).
  apply list_elem_of_fmap in Hh as ([k v] & -> & Hkv). simpl.
  eapply (resolve_foldl_values now known) in Hkv; [exact Hkv| |].
  - apply Forall_forall. intros [c res] Hin h Hh. simpl in *.
    apply elem_of_zip_l in Hin. by eapply Hc.
  - intros k' v' Hin. apply elem_of_habitMap in Hin as [Hv Hid].
    apply Hl. by apply list_elem_of_fmap_2.
Qed.

(** C10 (as amended). The snapshot [resolveConflicts] returns is the one it
    has written to the remote file and to both local copies.  Its records
    have ids of the local snapshot the method reads again or of records
    that the conflicts passed in carry; when these conflicts are the ones
    found for that local snapshot, only ids of the local snapshot.  A
    record that only the remote snapshot has and that no conflict carries
    is not in it. *)
Theorem resolved_snapshot_ids_from_local (env : Env.t) (conflicts : list ConflictInfo.t)
    (resolutions : list ConflictResolution) (w : World.t) (resolved : HabitsData.t) :
  (SyncManager.resolveConflicts env conflicts resolutions w).1 = Some (Returned resolved) ->
  (Remote.file (World.remote (SyncManager.resolveConflicts env conflicts resolutions w).2)
     = Some resolved
   /\ LocalStorage.habits_data
        (World.storage (SyncManager.resolveConflicts env conflicts resolutions w).2)
      = Some resolved
   /\ LocalStorage.dailyTodos
        (World.storage (SyncManager.resolveConflicts env conflicts resolutions w).2)
      = Some (map todoOfHabit (HabitsData.habits resolved)))
  /\ (forall k, k ∈ habitIds resolved ->
        k ∈ habitIds (getLocalData env w) \/ carries conflicts k)
  /\ (forall remoteData,
        conflicts = detectConflicts (getLocalData env w) remoteData ->
        forall k, k ∈ habitIds resolved -> k ∈ habitIds (getLocalData env w))
  /\ (forall k, k ∈ habitIds (readRemote env w) ->
        k ∉ habitIds (getLocalData env w) -> ~ carries conflicts k ->
        k ∉ habitIds resolved).
Proof.
  intros Hret.
  destruct (resolveConflicts_returned _ _ _ _ _ Hret) as (Hres & Hfile & Hdata & Htodos & _).
  assert (H1 : forall k, k ∈ habitIds resolved ->
                 k ∈ habitIds (getLocalData env w) \/ carries conflicts k).
  { eapply (resolved_ids_known (Env.now env)
              (fun k => k ∈ habitIds (getLocalData env w) \/ carries conflicts k));
      [| |exact Hres].
    - intros c h Hc Hh. right. by exists c, h.
    - intros k Hk. by left. }
  split; [done|]. split; [exact H1|]. split.
  - intros remoteData -> k Hk.
    eapply (resolved_ids_known (Env.now env) (fun k => k ∈ habitIds (getLocalData env w)));
      [| |exact Hres|exact Hk]; [|done].
    intros c h Hc Hh.
    apply elem_of_detectConflicts in Hc as (l & r & Hl & Hr & _ & Heq).
    apply get_habitMap_elem in Hl as [Hlin Hlid]. apply get_habitMap_elem in Hr as [_ Hrid].
    rewrite Heq in Hh. simpl in Hh.
    destruct Hh as [[= <-]|[= <-]].
    + by apply list_elem_of_fmap_2.
    + rewrite Hrid, <- Hlid. by apply list_elem_of_fmap_2.
  - intros k _ Hl Hc Hk. destruct (H1 k Hk); contradiction.
Qed.

Lemma resolved_snapshot_ids_from_local_witness :
  Remote.file
    (World.remote (SyncManager.resolveConflicts quietEnv reportedConflicts [ResRemote]
                     twoRecordWorld).2)
  = Some (HabitsData.mk "1.0" 5000 "Tue Jan 02 2024"
            [habit1remote; HabitItem.mk "2" "walk" true false 200 (Some 200)]
            (defaultSettings true 300000)).
Proof.
  destruct (resolved_snapshot_ids_from_local quietEnv reportedConflicts [ResRemote]
              twoRecordWorld
              (HabitsData.mk "1.0" 5000 "Tue Jan 02 2024"
                 [habit1remote; HabitItem.mk "2" "walk" true false 200 (Some 200)]
                 (defaultSettings true 300000)))
    as ((Hfile & _) & _).
  - vm_compute. reflexivity.
  - exact Hfile.
Defined.

(** C10 does not hold for a conflict list that is no longer current, which
    the method accepts: the page deletes record 1 after a cycle has
    reported a conflict on it; resolving that conflict as [remote] then
    writes a snapshot with id 1, which the local snapshot no longer has, to
    both stores. *)
Lemma stale_conflict_adds_foreign_id :
  habitIds (getLocalData quietEnv afterPageDelete) = ["2"]
  /\ exists resolved,
       (SyncManager.resolveConflicts quietEnv reportedConflicts [ResRemote]
          afterPageDelete).1 = Some (Returned resolved)
       /\ habitIds resolved = ["2"; "1"]
       /\ Remote.file
            (World.remote (SyncManager.resolveConflicts quietEnv reportedConflicts
                             [ResRemote] afterPageDelete).2)
          = Some resolved
       /\ LocalStorage.dailyTodos
            (World.storage (SyncManager.resolveConflicts quietEnv reportedConflicts
                              [ResRemote] afterPageDelete).2)
          = Some [Todo.mk "2" "walk" true (Some false) 200;
                  Todo.mk "1" "read more" false (Some false) 100].
Proof.
  split; [reflexivity|]. eexists. split; [vm_compute; reflexivity|].
  split; [reflexivity|]. split; vm_compute; reflexivity.
Qed.

(** X12. When every conflict is resolved by keeping the local version, the
    snapshot [resolveConflicts] returns and writes to the remote file and
    to both local copies holds the local records, one for each id, and no
    id that only the remote snapshot has; when the local ids are distinct
    it is the local snapshot itself with [lastSync] set to the time of the
    resolution. *)
Theorem keeping_local_returns_local (env : Env.t) (conflicts : list ConflictInfo.t)
    (resolutions : list ConflictResolution) (w : World.t) (resolved : HabitsData.t) :
  Forall (fun res => res = ResLocal \/ res = ResManual) resolutions ->
  (SyncManager.resolveConflicts env conflicts resolutions w).1 = Some (Returned resolved) ->
  resolved
    = HabitsData.mk (HabitsData.version (getLocalData env w)) (Env.now env)
        (HabitsData.lastResetDate (getLocalData env w))
        (JsMap.values (habitMap (HabitsData.habits (getLocalData env w))))
        (HabitsData.settings (getLocalData env w))
  /\ (NoDup (habitIds (getLocalData env w)) ->
      resolved = withLastSync (Env.now env) (getLocalData env w))
  /\ (forall k, k ∈ habitIds resolved -> k ∈ habitIds (getLocalData env w))
  /\ Remote.file (World.remote (SyncManager.resolveConflicts env conflicts resolutions w).2)
     = Some resolved
  /\ LocalStorage.habits_data
       (World.storage (SyncManager.resolveConflicts env conflicts resolutions w).2)
     = Some resolved
  /\ LocalStorage.dailyTodos
       (World.storage (SyncManager.resolveConflicts env conflicts resolutions w).2)
     = Some (map todoOfHabit (HabitsData.habits resolved)).
Proof.
  intros Hall Hret.
  destruct (resolveConflicts_returned _ _ _ _ _ Hret) as (Hres & Hfile & Hdata & Htodos & _).
  assert (Heq : resolved
    = HabitsData.mk (HabitsData.version (getLocalData env w)) (Env.now env)
        (HabitsData.lastResetDate (getLocalData env w))
        (JsMap.values (habitMap (HabitsData.habits (getLocalData env w))))
        (HabitsData.settings (getLocalData env w))).
  { unfold resolveConflicts in Hres. destruct (negb _); [done|].
    rewrite foldl_resolve_local in Hres; [by injection Hres as <-|].
    apply Forall_forall. intros [c res] Hin. apply elem_of_zip_r in Hin. simpl in *.
    by eapply Forall_forall in Hall. }
  split; [exact Heq|]. split; [|split; [|done]].
  - intros Hnd. rewrite Heq. unfold withLastSync. f_equal.
    rewrite (habitMap_NoDup _ Hnd). unfold JsMap.values.
    rewrite <- list_fmap_compose. apply list_fmap_id.
  - intros k Hk. rewrite Heq in Hk. unfold habitIds in Hk |- *. simpl in Hk.
    unfold JsMap.values in Hk.
    apply list_elem_of_fmap in Hk as (h & -> & Hh).
    apply list_elem_of_fmap in Hh as ([k v] & -> & Hkv). simpl.
    apply elem_of_habitMap in Hkv as [Hv _]. by apply list_elem_of_fmap_2.
Qed.

Lemma keeping_local_returns_local_witness :
  Remote.file
    (World.remote (SyncManager.resolveConflicts quietEnv reportedConflicts [ResLocal]
                     twoRecordWorld).2)
  = Some (withLastSync 5000 (getLocalData quietEnv twoRecordWorld)).
Proof.
  destruct (keeping_local_returns_local quietEnv reportedConflicts [ResLocal] twoRecordWorld
              (withLastSync 5000 (getLocalData quietEnv twoRecordWorld)))
    as (_ & _ & _ & Hfile & _).
  - repeat constructor.
  - vm_compute. reflexivity.
  - exact Hfile.
Defined.
